(** * epub2audiobook: a shallow embedding of the conversion pipeline

    The development follows the layout of the Python package:

    - [PyStr]        the [str] operations the code relies on
                     ([replace], [strip], [join], integer formatting);
    - [Re]           the fragment of Python's [re] used by the text cleanup;
    - [Chapter], [BookMetadata], [TTSConfig], [ChapterAudio]
                     the dataclasses of [models.py];
    - [m4b_builder]  [_escape] and [_build_ffmetadata];
    - [epub_parser]  [_clean_for_tts], [_html_to_text], [_extract_chapters];
    - [converter]    [Converter.convert] and [_enrich_metadata], over a
                     file system keyed by the names [pathlib] gives;
    - [assembly]     [build_m4b] and the files it writes and removes;
    - [jobs], [app]  the in-memory job store and the web endpoints that
                     drive it; [covers] the cover endpoint;
    - [tts]          the engine registry;
    - [edge_engine]  the split of a long text into chunks.

    A Python [str] is a sequence of Unicode code points and is modelled as
    a [list N].  Python [int]s are [Z]. *)

From Stdlib Require Import ZArith NArith QArith Ascii DecimalString.
From stdpp Require Import base option list gmap strings.

Open Scope Z_scope.

(* ================================================================== *)
(** * Python strings *)
(* ================================================================== *)

Module PyStr.

(** A code point. *)
Abbreviation char := N.

(** A Python [str]. *)
Abbreviation str := (list N).

(** An ASCII literal of the source, as a [str]. *)
Definition lit (s : string) : str :=
  N_of_ascii <$> String.list_ascii_of_string s.

Definition NL : char := 10%N.         (* "\n" *)
Definition NUL : char := 0%N.         (* "\x00" *)
Definition SPACE : char := 32%N.      (* " " *)
Definition BACKSLASH : char := 92%N.  (* "\\" *)

Definition eqb_str (a b : str) : bool := bool_decide (a = b).

(** [s.startswith(p)]. *)
Fixpoint starts_with (p s : str) : bool :=
  match p, s with
  | [], _ => true
  | _ :: _, [] => false
  | a :: p', b :: s' => (a =? b)%N && starts_with p' s'
  end.

(** The scan of [s.replace(old, new)] for a non-empty [old]: left to
    right, non-overlapping.  [skip] counts the characters of a match
    that is being dropped. *)
Fixpoint replace_scan (old new : str) (skip : nat) (s : str) : str :=
  match s with
  | [] => []
  | c :: s' =>
      match skip with
      | S k => replace_scan old new k s'
      | O =>
          if starts_with old s
          then new ++ replace_scan old new (pred (length old)) s'
          else c :: replace_scan old new O s'
      end
  end.

(** [s.replace(old, new)].  With an empty [old] Python inserts [new]
    before every character and at the end. *)
Definition replace (old new s : str) : str :=
  match old with
  | [] => new ++ flat_map (fun c => c :: new) s
  | _ :: _ => replace_scan old new O s
  end.

(** [c.isspace()] for a single code point; this is also what [\s]
    matches in a [str] pattern and what [strip()] removes. *)
Definition isspace (c : char) : bool :=
  ((9 <=? c) && (c <=? 13) || (28 <=? c) && (c <=? 32)
   || (c =? 133) || (c =? 160) || (c =? 5760)
   || (8192 <=? c) && (c <=? 8202)
   || (c =? 8232) || (c =? 8233) || (c =? 8239) || (c =? 8287)
   || (c =? 12288))%N.

Fixpoint drop_while {A} (p : A -> bool) (l : list A) : list A :=
  match l with
  | [] => []
  | x :: l' => if p x then drop_while p l' else l
  end.

Definition lstrip (s : str) : str := drop_while isspace s.
Definition rstrip (s : str) : str := reverse (drop_while isspace (reverse s)).

(** [s.strip()]. *)
Definition strip (s : str) : str := rstrip (lstrip s).

(** [sep.join(parts)]. *)
Fixpoint join (sep : str) (parts : list str) : str :=
  match parts with
  | [] => []
  | [p] => p
  | p :: rest => p ++ sep ++ join sep rest
  end.

(** [str(n)] for an [int]. *)
Definition str_of_int (n : Z) : str :=
  lit (NilZero.string_of_int (Z.to_int n)).

(** [format(n, "04d")]: sign-aware zero padding to four columns. *)
Definition format_04d (n : Z) : str :=
  let digits := str_of_int (Z.abs n) in
  if n <? 0
  then lit "-" ++ replicate (3 - length digits) 48%N ++ digits
  else replicate (4 - length digits) 48%N ++ digits.

(** Truthiness of a [str] and of [bytes]: non-empty. *)
Definition truthy {A} (s : list A) : bool :=
  match s with [] => false | _ :: _ => true end.

End PyStr.
Import PyStr.

(* ================================================================== *)
(** * Exceptions *)
(* ================================================================== *)

(** An exception that [except Exception] catches: its class name and
    message. *)
Inductive exception := Exception (kind : string) (msg : str).

(** The outcome of a call: it returns a value or raises. *)
Inductive result (A : Type) :=
| Ok (a : A)
| Raise (e : exception).
Arguments Ok {A} a.
Arguments Raise {A} e.

(* ================================================================== *)
(** * models.py *)
(* ================================================================== *)

Module Chapter.
Record t := mk { index : Z; title : str; text : str }.
End Chapter.

Module BookMetadata.
Record t := mk {
  title : str;
  author : str;
  language : str;
  cover_image : option (list N)   (* Optional[bytes] *)
}.
End BookMetadata.

Module TTSConfig.
Record t := mk {
  voice : str;
  speed : Q;                      (* a float in the source; never inspected here *)
  pitch : option str;
  language : str
}.
End TTSConfig.

Module ChapterAudio.
Record t := mk { chapter : Chapter.t; audio_path : str; duration_ms : Z }.
End ChapterAudio.

(* ================================================================== *)
(** * audio/m4b_builder.py *)
(* ================================================================== *)

Module m4b_builder.

(** [_escape]: the backslash first, then the loop over
    [("=", ";", "#", "\n")], each replaced by a backslash and itself. *)
Definition escape_chars : list char := [61; 59; 35; NL]%N.

Definition _escape (value : str) : str :=
  let value := replace [BACKSLASH] [BACKSLASH; BACKSLASH] value in
  fold_left (fun value c => replace [c] [BACKSLASH; c] value)
            escape_chars value.

(** The net effect of [_escape] on one character. *)
Definition escape_char (c : char) : str :=
  if bool_decide (c ∈ BACKSLASH :: escape_chars) then [BACKSLASH; c] else [c].

(** The reader of the ffmetadata format undoes the escaping: a
    backslash makes the next character literal.  (Not part of the
    package; the inverse the round trip is stated against.) *)
Fixpoint unescape (s : str) : str :=
  match s with
  | [] => []
  | c :: s' =>
      if (c =? BACKSLASH)%N
      then match s' with
           | [] => []
           | d :: s'' => d :: unescape s''
           end
      else c :: unescape s'
  end.

(** The header lines written before the loop. *)
Definition header_lines (metadata : BookMetadata.t) : list str :=
  let lines := [lit ";FFMETADATA1"] in
  let lines := lines ++ [lit "title=" ++ _escape (BookMetadata.title metadata)] in
  let lines := lines ++ [lit "artist=" ++ _escape (BookMetadata.author metadata)] in
  lines ++ [[]].                       (* the empty line *)

(** One iteration of the loop over [chapter_audios]; the loop state is
    [(lines, current_time_ms)]. *)
Definition chapter_step (st : list str * Z) (ch_audio : ChapterAudio.t)
  : list str * Z :=
  let '(lines, current_time_ms) := st in
  let lines := lines ++ [lit "[CHAPTER]"] in
  let lines := lines ++ [lit "TIMEBASE=1/1000"] in
  let lines := lines ++ [lit "START=" ++ str_of_int current_time_ms] in
  let current_time_ms := current_time_ms + ChapterAudio.duration_ms ch_audio in
  let lines := lines ++ [lit "END=" ++ str_of_int current_time_ms] in
  let lines :=
    lines ++ [lit "title=" ++
              _escape (Chapter.title (ChapterAudio.chapter ch_audio))] in
  let lines := lines ++ [[]] in
  (lines, current_time_ms).

(** The list [lines] at the end of [_build_ffmetadata]. *)
Definition ffmetadata_lines (chapter_audios : list ChapterAudio.t)
           (metadata : BookMetadata.t) : list str :=
  fst (fold_left chapter_step chapter_audios (header_lines metadata, 0)).

Definition _build_ffmetadata (chapter_audios : list ChapterAudio.t)
           (metadata : BookMetadata.t) : str :=
  join [NL] (ffmetadata_lines chapter_audios metadata).

(** ** The markers as the specification words them *)

Definition sum_durations (ds : list Z) : Z := foldr Z.add 0 ds.

(** [start_i = Σ_{j<i} d_j] *)
Definition marker_start (ds : list Z) (i : nat) : Z :=
  sum_durations (take i ds).

(** [end_i = start_i + d_i] *)
Definition marker_end (ds : list Z) (i : nat) : Z :=
  marker_start ds i + default 0 (ds !! i).

(** The six lines of one chapter marker. *)
Definition marker_block (start stop : Z) (title : str) : list str :=
  [ lit "[CHAPTER]"; lit "TIMEBASE=1/1000";
    lit "START=" ++ str_of_int start; lit "END=" ++ str_of_int stop;
    lit "title=" ++ _escape title; [] ].

(** The marker lines of the chapters when the clock stands at [t]. *)
Fixpoint blocks_from (t : Z) (chapter_audios : list ChapterAudio.t) : list str :=
  match chapter_audios with
  | [] => []
  | ca :: rest =>
      let stop := t + ChapterAudio.duration_ms ca in
      marker_block t stop (Chapter.title (ChapterAudio.chapter ca))
        ++ blocks_from stop rest
  end.

(** The number of lines that open a chapter marker. *)
Definition count_markers (lines : list str) : nat :=
  length (filter (fun l => l = lit "[CHAPTER]") lines).

End m4b_builder.

(* ================================================================== *)
(** * The fragment of Python's [re] used by the text cleanup *)
(* ================================================================== *)

Module Re.

(** A character class, as its membership test. *)
Abbreviation cls := (N -> bool).

(** Zero-width assertions. *)
Inductive assertion :=
| Start            (* [^] without MULTILINE: the start of the string *)
| End              (* [$] without MULTILINE: the end, or before a final newline *)
| LineStart        (* [^] with MULTILINE: the start, or after a newline *)
| LineEnd          (* [$] with MULTILINE: the end, or before a newline *)
| Behind (c : cls) (* [(?<=c)] *)
| Ahead (c : cls). (* [(?=c)] *)

(** The items a pattern of the source is a sequence of. *)
Inductive item :=
| Chr (c : cls)                 (* one character of the class *)
| AtLeast (n : nat) (c : cls)   (* [c{n,}], greedy; [c*] and [c+] are n = 0, 1 *)
| Assert (alts : list assertion). (* [(?:a1|a2|...)] of zero-width alternatives *)

Abbreviation Star c := (AtLeast 0 c).
Abbreviation Plus c := (AtLeast 1 c).

Abbreviation pattern := (list item).

(** Whether an assertion holds between [prev] (the character before the
    position, if any) and [s] (the text from the position on). *)
Definition holds (prev : option N) (s : str) (a : assertion) : bool :=
  match a with
  | Start => match prev with None => true | Some _ => false end
  | End => match s with [] => true | [c] => (c =? NL)%N | _ => false end
  | LineStart => match prev with None => true | Some c => (c =? NL)%N end
  | LineEnd => match s with [] => true | c :: _ => (c =? NL)%N end
  | Behind c => match prev with None => false | Some x => c x end
  | Ahead c => match s with [] => false | x :: _ => c x end
  end.

(** [c{need,}] followed by the continuation [k]: greedy, it takes the
    longest run first and gives characters back one at a time until
    [k] succeeds. *)
Fixpoint rep (c : cls) (k : option N -> str -> option str)
         (need : nat) (prev : option N) (s : str) {struct s} : option str :=
  let stop := match need with O => k prev s | S _ => None end in
  match s with
  | x :: s' =>
      if c x
      then match rep c k (pred need) (Some x) s' with
           | Some r => Some r
           | None => stop
           end
      else stop
  | [] => stop
  end.

(** The backtracking matcher: [match_at p prev s] is the text left after
    the first match (in backtracking order) of [p] at the head of [s];
    [prev] is the character before the position, if any. *)
Fixpoint match_at (p : pattern) (prev : option N) (s : str) : option str :=
  match p with
  | [] => Some s
  | Chr c :: p' =>
      match s with
      | x :: s' => if c x then match_at p' (Some x) s' else None
      | [] => None
      end
  | AtLeast n c :: p' => rep c (match_at p') n prev s
  | Assert alts :: p' =>
      if existsb (holds prev s) alts then match_at p' prev s else None
  end.

(** The scan of [re.sub(p, repl, s)]: leftmost matches, left to right,
    without overlap.  [repl] maps the matched text to its replacement;
    [skip] counts the characters of a match that is being dropped. *)
Fixpoint sub_scan (p : pattern) (repl : str -> str)
         (prev : option N) (skip : nat) (s : str) : str :=
  match s with
  | [] =>
      match skip, match_at p prev [] with
      | O, Some _ => repl []
      | _, _ => []
      end
  | c :: s' =>
      match skip with
      | S k => sub_scan p repl (Some c) k s'
      | O =>
          match match_at p prev s with
          | Some rest =>
              match (length s - length rest)%nat with
              | O => repl [] ++ c :: sub_scan p repl (Some c) O s'
              | S k => repl (take (S k) s) ++ sub_scan p repl (Some c) k s'
              end
          | None => c :: sub_scan p repl (Some c) O s'
          end
      end
  end.

(** [re.sub(p, repl, s)]. *)
Definition sub (p : pattern) (repl : str -> str) (s : str) : str :=
  sub_scan p repl None O s.

(** Character classes of the patterns. *)
Definition just (c : N) : cls := fun x => (x =? c)%N.
Definition one_of (l : list N) : cls := fun x => existsb (N.eqb x) l.
Definition range (lo hi : N) : cls := fun x => ((lo <=? x) && (x <=? hi))%N.
Definition union (a b : cls) : cls := fun x => a x || b x.

End Re.

(* ================================================================== *)
(** * epub_parser.py *)
(* ================================================================== *)

Module epub_parser.

Import Re.

Definition DOT : N := 46%N.
Definition HYPHEN : N := 45%N.
Definition EN_DASH : N := 8211%N.     (* U+2013 *)
Definition EM_DASH : N := 8212%N.     (* U+2014 *)
Definition ELLIPSIS_CHAR : N := 8230%N. (* U+2026 *)

(** The [replacements] dict, in insertion order. *)
Definition replacements : list (str * str) :=
  [ ([8216%N], lit "'");          (* left single quote *)
    ([8217%N], lit "'");          (* right single quote *)
    ([8220%N], [34%N]);           (* left double quote -> straight double quote *)
    ([8221%N], [34%N]);           (* right double quote *)
    ([EN_DASH], lit " ");
    ([EM_DASH], lit " ");
    ([ELLIPSIS_CHAR], lit "...");
    ([160%N], lit " ") ].         (* non-breaking space *)

(** The placeholder ["\x00ELLIPSIS\x00"]. *)
Definition ELLIPSIS_MARK : str := [NUL] ++ lit "ELLIPSIS" ++ [NUL].

(** [\s] *)
Definition ws : cls := isspace.
(** [[-–—]] *)
Definition dash : cls := one_of [HYPHEN; EN_DASH; EM_DASH].
(** [[.\-–—,;:]] *)
Definition punct : cls := one_of [DOT; HYPHEN; EN_DASH; EM_DASH; 44; 59; 58]%N.
(** [[.!?]] *)
Definition sentence_end : cls := one_of [DOT; 33; 63]%N.
(** [[A-ZÀ-Úa-zà-ú]] *)
Definition letter : cls :=
  union (range 65 90) (union (range 192 218) (union (range 97 122) (range 224 250))).

(** [r"(?:^|(?<=\s))\.(?=\s|$)"] *)
Definition re_isolated_period : pattern :=
  [Assert [Start; Behind ws]; Chr (just DOT); Assert [Ahead ws; End]].
(** [r"^\s*[.\-–—,;:]+\s*$"], MULTILINE *)
Definition re_punct_line : pattern :=
  [Assert [LineStart]; Star ws; Plus punct; Star ws; Assert [LineEnd]].
(** [r"([.!?])([A-ZÀ-Úa-zà-ú])"] *)
Definition re_missing_space : pattern := [Chr sentence_end; Chr letter].
(** [r"[-–—]\s*\.\s*"] *)
Definition re_dash_period : pattern := [Chr dash; Star ws; Chr (just DOT); Star ws].
(** [r"[-–—]\s*,\s*"] *)
Definition re_dash_comma : pattern := [Chr dash; Star ws; Chr (just 44%N); Star ws].
(** [r"\s*\.\s*[-–—]\s*"] *)
Definition re_period_dash : pattern :=
  [Star ws; Chr (just DOT); Star ws; Chr dash; Star ws].
(** [r"^\s*\.+\s*"], MULTILINE *)
Definition re_leading_period : pattern :=
  [Assert [LineStart]; Star ws; Plus (just DOT); Star ws].
(** [r" {2,}"] *)
Definition re_spaces : pattern := [AtLeast 2 (just SPACE)].
(** [r"\n{3,}"] *)
Definition re_newlines : pattern := [AtLeast 3 (just NL)].

(** The replacement template [r"\1 \2"] of a two-character match. *)
Definition repl_space_between (m : str) : str :=
  match m with
  | [a; b] => [a; SPACE; b]
  | _ => m
  end.

(** [EpubParser._clean_for_tts] *)
Definition _clean_for_tts (text : str) : str :=
  let text := fold_left (fun text '(old, new) => replace old new text)
                        replacements text in
  let text := replace (lit "...") ELLIPSIS_MARK text in
  let text := sub re_isolated_period (fun _ => []) text in
  let text := sub re_punct_line (fun _ => []) text in
  let text := sub re_missing_space repl_space_between text in
  let text := sub re_dash_period (fun _ => lit ". ") text in
  let text := sub re_dash_comma (fun _ => lit ", ") text in
  let text := sub re_period_dash (fun _ => lit ". ") text in
  let text := sub re_leading_period (fun _ => []) text in
  let text := replace ELLIPSIS_MARK (lit "...") text in
  let text := sub re_spaces (fun _ => lit " ") text in
  let text := sub re_newlines (fun _ => [NL; NL]) text in
  text.

(** A text is kept as a chapter when [text.strip()] is truthy. *)
Definition nonblank (t : str) : Prop := truthy (strip t) = true.

#[export] Instance nonblank_dec t : Decision (nonblank t).
Proof. unfold nonblank. apply _. Defined.

(** ** The book, as [ebooklib] hands it over *)

Record EpubItem := { get_body_content : option (list N) }.

Record EpubBook := {
  spine : list (str * str);         (* [(item_id, linear)] *)
  items : gmap (list N) EpubItem
}.

Definition get_item_with_id (book : EpubBook) (item_id : str) : option EpubItem :=
  items book !! item_id.

Section parser.

(** What BeautifulSoup extracts from the markup: the text gathered
    from the leaf blocks (or the whole-document fallback) after the
    non-narrative tags have been removed ([_html_to_text], before the
    cleanup), and the stripped text of the first tag with a given
    name, if there is one ([soup.find(tag_name).get_text(strip=True)]). *)
Variable soup_text : list N -> str.
Variable soup_find_text : list N -> str -> option str.

(** [EpubParser._extract_metadata], not needed in detail here. *)
Variable _extract_metadata : EpubBook -> BookMetadata.t.

(** [EpubParser._html_to_text] *)
Definition _html_to_text (html_content : list N) : str :=
  let text := soup_text html_content in
  let text := _clean_for_tts text in
  strip text.

(** The loop of [_extract_title] over the tag names. *)
Fixpoint first_title (html_content : list N) (tags : list str) : option str :=
  match tags with
  | [] => None
  | tag_name :: tags' =>
      match soup_find_text html_content tag_name with
      | Some title =>
          if truthy title then Some title else first_title html_content tags'
      | None => first_title html_content tags'
      end
  end.

(** [EpubParser._extract_title] *)
Definition _extract_title (html_content : list N) : option str :=
  first_title html_content (lit <$> ["h1"; "h2"; "h3"; "title"]%string).

(** One iteration of the loop of [_extract_chapters] over the spine;
    the loop state is [(chapters, index)]. *)
Definition extract_step (book : EpubBook) (st : list Chapter.t * Z)
           (entry : str * str) : list Chapter.t * Z :=
  let '(chapters, index) := st in
  let item_id := entry.1 in
  match get_item_with_id book item_id with
  | None => st
  | Some item =>
      match get_body_content item with
      | None => st
      | Some html_content =>
          let text := _html_to_text html_content in
          if negb (truthy (strip text)) then st
          else
            let title :=
              match _extract_title html_content with
              | Some t => if truthy t then t
                          else lit "Capitolo " ++ str_of_int (index + 1)
              | None => lit "Capitolo " ++ str_of_int (index + 1)
              end in
            (chapters ++ [Chapter.mk index title text], index + 1)
      end
  end.

(** [EpubParser._extract_chapters] *)
Definition _extract_chapters (epub_path : str) (book : EpubBook)
  : result (list Chapter.t) :=
  let chapters := (fold_left (extract_step book) (spine book) ([], 0)).1 in
  if truthy chapters then Ok chapters
  else Raise (Exception "ValueError" (lit "Nessun capitolo trovato in " ++ epub_path)).

(** [EpubParser.parse], after [epub.read_epub] has produced the book. *)
Definition parse (epub_path : str) (book : EpubBook)
  : result (BookMetadata.t * list Chapter.t) :=
  let metadata := _extract_metadata book in
  match _extract_chapters epub_path book with
  | Ok chapters => Ok (metadata, chapters)
  | Raise e => Raise e
  end.

(** The cleaned text of a spine entry that has an item with a body. *)
Definition entry_text (book : EpubBook) (entry : str * str) : option str :=
  item ← get_item_with_id book entry.1;
  html_content ← get_body_content item;
  Some (_html_to_text html_content).

(** The texts of the spine, in spine order. *)
Definition spine_texts (book : EpubBook) : list str :=
  omap (entry_text book) (spine book).

End parser.

End epub_parser.

(* ================================================================== *)
(** * converter.py *)
(* ================================================================== *)

Module converter.

Import epub_parser.

(** ** The file system *)

(** What [stat] tells about a path. *)
Record node := { is_dir : bool; st_size : N }.

(** The file system: the paths that exist. *)
Abbreviation FS := (gmap (list N) node).

(** ** Paths, as [pathlib] reads and prints them (POSIX flavour) *)

Definition SLASH : char := 47%N.

(** [s.split("/")] *)
Fixpoint split_slash (s : str) : list str :=
  match s with
  | [] => [[]]
  | c :: s' =>
      if (c =? SLASH)%N then [] :: split_slash s'
      else match split_slash s' with
           | name :: rest => (c :: name) :: rest
           | [] => [[c]]
           end
  end.

(** A parsed path: the root ([""], ["/"] or ["//"]) and the names
    after it. *)
Record parsed_path := { root : str; names : list str }.

(** The root of a path and what follows it: one leading slash, or three
    and more, give the root ["/"]; exactly two give ["//"]. *)
Definition splitroot (s : str) : str * str :=
  let rel := drop_while (N.eqb SLASH) s in
  match (length s - length rel)%nat with
  | O => ([], s)
  | 2%nat => (lit "//", rel)
  | _ => (lit "/", rel)
  end.

(** The names that count: empty ones and ["."] are dropped. *)
Definition is_name (x : str) : bool := truthy x && negb (eqb_str x (lit ".")).

Definition parse_path (s : str) : parsed_path :=
  let '(r, rel) := splitroot s in
  {| root := r; names := List.filter is_name (split_slash rel) |}.

Definition path_str (p : parsed_path) : str :=
  match root p, names p with
  | [], [] => lit "."
  | _, _ => root p ++ join (lit "/") (names p)
  end.

(** [str(Path(s))]: duplicate and trailing slashes and ["."] names are
    gone; [".."] stays. *)
Definition Path (s : str) : str := path_str (parse_path s).

(** [os.path.join(a, b)] *)
Definition posix_join (a b : str) : str :=
  if starts_with (lit "/") b then b
  else if negb (truthy a) || bool_decide (last a = Some SLASH) then a ++ b
  else a ++ lit "/" ++ b.

(** [str(Path(d) / name)] *)
Definition path_join (d name : str) : str := Path (posix_join d name).

Fixpoint is_prefix (a b : list str) : bool :=
  match a, b with
  | [], _ => true
  | x :: a', y :: b' => eqb_str x y && is_prefix a' b'
  | _ :: _, [] => false
  end.

(** Whether [q] names the directory [d] or something below it. *)
Definition inside (d q : str) : bool :=
  eqb_str (root (parse_path d)) (root (parse_path q))
  && is_prefix (names (parse_path d)) (names (parse_path q)).

(** [shutil.rmtree(d, ignore_errors=True)]: of [d] and what lies below it,
    what can be removed is gone and what cannot ([stuck]) stays; nothing
    else is touched and nothing is raised. *)
Definition rmtree (stuck : str -> bool) (d : str) (fs : FS) : FS :=
  filter (fun entry => inside d entry.1 = false \/ stuck entry.1 = true) fs.

(** [p.mkdir(parents=True, exist_ok=True)]: fine when [p] is a directory
    already, a [FileExistsError] when it is a file (the exception is
    given the file name it carries, not the text of its message).  The
    ancestors it may create are not tracked. *)
Definition mkdir (p : str) (fs : FS) : result FS :=
  match fs !! p with
  | Some n =>
      if is_dir n then Ok fs
      else Raise (Exception "FileExistsError" p)
  | None => Ok (<[p := {| is_dir := true; st_size := 0 |}]> fs)
  end.

(** ** The collaborators *)

(** [TTSEngine]: the part of the interface the converter uses.
    [synthesize] may change the file system and may raise. *)
Record TTSEngine := {
  output_format : str;
  synthesize : str -> str -> TTSConfig.t -> FS -> FS * result unit
}.

(** What the run meets outside the converter: the EPUB reader and the
    markup parser, the Open Library lookups, [tempfile.mkdtemp], the
    entries [shutil.rmtree] fails on, the duration prober and the M4B
    assembly. *)
Record World := {
  read_epub : str -> FS -> result EpubBook;
  soup_text : list N -> str;
  soup_find_text : list N -> str -> option str;
  _extract_metadata : EpubBook -> BookMetadata.t;
  (** [enrich_metadata(title, author).get("cover_image")]: the only entry
      of the returned dict that is read. *)
  enrich_metadata : str -> str -> result (option (list N));
  fetch_cover_image : str -> str -> result (option (list N));
  (** the directory [tempfile.mkdtemp(prefix="e2a_")] creates, or the
      error it raises *)
  mkdtemp : FS -> result str;
  (** what [shutil.rmtree] cannot remove *)
  rmtree_stuck : str -> FS -> str -> bool;
  probe_duration_ms : str -> FS -> result Z;
  build_m4b : list ChapterAudio.t -> BookMetadata.t -> str -> str -> str ->
              FS -> FS * result unit
}.

(** [ProgressCallback]; it may raise. *)
Abbreviation ProgressCallback := (Z -> Z -> str -> result unit).

(** What the converter does that can be observed from outside, in order. *)
Inductive event :=
| EvParse (epub_path : str)
| EvEnrichMetadata (title author : str)
| EvFetchCoverImage (title author : str)
| EvMkdtemp (p : str)
| EvMkdir (p : str)
| EvSynthesize (text audio_path : str) (config : TTSConfig.t)
| EvProbe (audio_path : str)
| EvProgress (current total : Z) (title : str)
| EvBuildM4b (chapter_audios : list ChapterAudio.t) (metadata : BookMetadata.t)
             (output_path work_path bitrate : str)
| EvRmtree (p : str).

(** ** Computations: a file system threaded through, a trace written,
    an exception possibly raised *)

Definition M (A : Type) : Type := FS -> result A * FS * list event.

Definition ret {A} (a : A) : M A := fun fs => (Ok a, fs, []).

Definition bind {A B} (m : M A) (f : A -> M B) : M B :=
  fun fs =>
    match m fs with
    | (Ok a, fs1, t1) =>
        match f a fs1 with
        | (r, fs2, t2) => (r, fs2, t1 ++ t2)
        end
    | (Raise e, fs1, t1) => (Raise e, fs1, t1)
    end.

#[export] Instance M_ret : MRet M := @ret.
#[export] Instance M_bind : MBind M := fun A B f m => bind m f.

Definition raise {A} (e : exception) : M A := fun fs => (Raise e, fs, []).
Definition emit (e : event) : M unit := fun fs => (Ok tt, fs, [e]).
Definition get_fs : M FS := fun fs => (Ok fs, fs, []).
Definition lift {A} (r : result A) : M A := fun fs => (r, fs, []).

(** A call that reads the file system. *)
Definition reading {A} (f : FS -> result A) : M A := fun fs => (f fs, fs, []).
(** A call that may change the file system. *)
Definition writing {A} (f : FS -> FS * result A) : M A :=
  fun fs => let '(fs', r) := f fs in (r, fs', []).

(** [try: body finally: final] *)
Definition try_finally {A} (body : M A) (final : M unit) : M A :=
  fun fs =>
    match body fs with
    | (r, fs1, t1) =>
        match final fs1 with
        | (Ok _, fs2, t2) => (r, fs2, t1 ++ t2)
        | (Raise e, fs2, t2) => (Raise e, fs2, t1 ++ t2)
        end
    end.

(** [try: body except Exception: handler] *)
Definition try_except {A} (body : M A) (handler : exception -> M A) : M A :=
  fun fs =>
    match body fs with
    | (Ok a, fs1, t1) => (Ok a, fs1, t1)
    | (Raise e, fs1, t1) =>
        match handler e fs1 with
        | (r, fs2, t2) => (r, fs2, t1 ++ t2)
        end
    end.

(** Truthiness of an [Optional[bytes]]. *)
Definition has_cover (cover : option (list N)) : bool :=
  match cover with Some b => truthy b | None => false end.

(** ** [Converter] *)

Record Converter := {
  engine : TTSEngine;
  config : TTSConfig.t;
  bitrate : str
}.

(** [Converter._enrich_metadata].  The first [try] either returns early
    from its handler ([None] below) or yields the cover entry of the
    lookup. *)
Definition _enrich_metadata (w : World) (metadata : BookMetadata.t)
  : M BookMetadata.t :=
  let title := BookMetadata.title metadata in
  let author := BookMetadata.author metadata in
  let with_cover cover :=
    BookMetadata.mk title author (BookMetadata.language metadata) cover in
  if has_cover (BookMetadata.cover_image metadata) then ret metadata
  else
    enriched ← try_except
                 (emit (EvEnrichMetadata title author);;
                  cover ← lift (enrich_metadata w title author);
                  ret (Some cover))
                 (fun _ => ret None);
    match enriched with
    | None => ret metadata
    | Some cover =>
        if has_cover cover then ret (with_cover cover)
        else
          try_except
            (emit (EvFetchCoverImage title author);;
             cover ← lift (fetch_cover_image w title author);
             if has_cover cover then ret (with_cover cover) else ret metadata)
            (fun _ => ret metadata)
    end.

(** [work_path / f"chapter_{chapter.index:04d}.{ext}"] *)
Definition chapter_audio_path (self : Converter) (work_path : str)
           (chapter : Chapter.t) : str :=
  let ext := output_format (engine self) in
  path_join work_path
    (lit "chapter_" ++ format_04d (Chapter.index chapter) ++ lit "." ++ ext).

(** [audio_path.exists() and audio_path.stat().st_size > 0] *)
Definition cached (fs : FS) (audio_path : str) : bool :=
  match fs !! audio_path with
  | Some n => (0 <? st_size n)%N
  | None => false
  end.

(** The body of the loop over the chapters; [chapter_audios] is the list
    built so far and [total] is [len(chapters)]. *)
Definition chapter_body (w : World) (self : Converter)
           (on_progress : option ProgressCallback) (work_path : str) (total : Z)
           (chapter_audios : list ChapterAudio.t) (chapter : Chapter.t)
  : M (list ChapterAudio.t) :=
  let audio_path := chapter_audio_path self work_path chapter in
  fs ← get_fs;
  (if cached fs audio_path then ret tt
   else
     emit (EvSynthesize (Chapter.text chapter) audio_path (config self));;
     writing (synthesize (engine self) (Chapter.text chapter) audio_path
                (config self)));;
  emit (EvProbe audio_path);;
  duration ← reading (probe_duration_ms w audio_path);
  let chapter_audios :=
    chapter_audios ++ [ChapterAudio.mk chapter audio_path duration] in
  match on_progress with
  | Some callback =>
      emit (EvProgress (Chapter.index chapter + 1) total (Chapter.title chapter));;
      lift (callback (Chapter.index chapter + 1) total (Chapter.title chapter))
  | None => ret tt
  end;;
  ret chapter_audios.

(** [for chapter in chapters: ...] *)
Fixpoint for_chapters (body : list ChapterAudio.t -> Chapter.t -> M (list ChapterAudio.t))
         (chapters : list Chapter.t) (chapter_audios : list ChapterAudio.t)
  : M (list ChapterAudio.t) :=
  match chapters with
  | [] => ret chapter_audios
  | chapter :: rest =>
      chapter_audios ← body chapter_audios chapter;
      for_chapters body rest chapter_audios
  end.

(** [parser.parse()] *)
Definition parse_epub (w : World) (epub_path : str)
  : M (BookMetadata.t * list Chapter.t) :=
  emit (EvParse epub_path);;
  book ← reading (read_epub w epub_path);
  lift (parse (soup_text w) (soup_find_text w) (_extract_metadata w) epub_path book).

(** [Path(tempfile.mkdtemp(prefix="e2a_"))]: the directory is there
    afterwards, under the name [pathlib] gives it. *)
Definition make_temp_dir (w : World) : M str :=
  fs ← get_fs;
  raw ← lift (mkdtemp w fs);
  let p := Path raw in
  emit (EvMkdtemp p);;
  writing (fun fs => (<[p := {| is_dir := true; st_size := 0 |}]> fs, Ok p)).

(** [Path(work_dir) if work_dir else Path(tempfile.mkdtemp(prefix="e2a_"))] *)
Definition choose_work_path (w : World) (work_dir : option str) : M str :=
  match work_dir with
  | Some d => if truthy d then ret (Path d) else make_temp_dir w
  | None => make_temp_dir w
  end.

(** Which events are calls of [engine.synthesize], of the prober, of
    [rmtree] and of [mkdtemp]. *)
Definition is_synthesize (e : event) : bool :=
  match e with EvSynthesize _ _ _ => true | _ => false end.
Definition is_probe (e : event) : bool :=
  match e with EvProbe _ => true | _ => false end.
Definition is_rmtree (e : event) : bool :=
  match e with EvRmtree _ => true | _ => false end.
Definition is_mkdtemp (e : event) : bool :=
  match e with EvMkdtemp _ => true | _ => false end.

(** The body of the [try] block of [convert]: the loop, then the
    assembly. *)
Definition synthesize_and_assemble (w : World) (self : Converter)
           (output_path : str) (on_progress : option ProgressCallback)
           (work_path : str) (metadata : BookMetadata.t)
           (chapters : list Chapter.t) : M unit :=
  chapter_audios ←
    for_chapters
      (chapter_body w self on_progress work_path (Z.of_nat (length chapters)))
      chapters [];
  let out := Path output_path in
  emit (EvBuildM4b chapter_audios metadata out work_path (bitrate self));;
  writing (build_m4b w chapter_audios metadata out work_path (bitrate self)).

(** [Converter.convert] *)
Definition convert (w : World) (self : Converter)
           (epub_path output_path : str)
           (on_progress : option ProgressCallback) (work_dir : option str)
  : M unit :=
  '(metadata, chapters) ← parse_epub w epub_path;
  metadata ← _enrich_metadata w metadata;
  let cleanup_work_dir := bool_decide (work_dir = None) in
  work_path ← choose_work_path w work_dir;
  emit (EvMkdir work_path);;
  writing (fun fs => match mkdir work_path fs with
                     | Ok fs' => (fs', Ok tt)
                     | Raise e => (fs, Raise e)
                     end);;
  try_finally
    (synthesize_and_assemble w self output_path on_progress work_path
       metadata chapters)
    (if cleanup_work_dir
     then emit (EvRmtree work_path);;
          writing (fun fs => (rmtree (rmtree_stuck w work_path fs) work_path fs,
                              Ok tt))
     else ret tt).

(** A collaborator that removes none of the paths in [kept]: those that
    exist before its call exist after it. *)
Definition keeps {A} (kept : str -> Prop) (f : FS -> FS * result A) : Prop :=
  forall fs q, kept q -> is_Some (fs !! q) -> is_Some ((f fs).1 !! q).

Definition engine_keeps (kept : str -> Prop) (e : TTSEngine) : Prop :=
  forall text audio_path config,
    keeps kept (synthesize e text audio_path config).

(** The same of the assembly, when it works in [work_path]. *)
Definition build_keeps (kept : str -> Prop) (w : World) (work_path : str) : Prop :=
  forall chapter_audios metadata output_path bitrate,
    keeps kept (build_m4b w chapter_audios metadata output_path work_path bitrate).

(** Which events are calls of [engine.synthesize] or of the prober. *)
Definition is_call (e : event) : bool := is_synthesize e || is_probe e.

(** Which events are calls of the progress callback. *)
Definition is_progress (e : event) : bool :=
  match e with EvProgress _ _ _ => true | _ => false end.

(** ** A stub engine and a quiet world, as in the tests *)

(** An engine that writes a file as long as the text and, like the
    Edge engine with its chunks, removes the scratch file it worked in. *)
Definition stub_engine : TTSEngine :=
  {| output_format := lit "mp3";
     synthesize := fun text audio_path _ fs =>
       (delete (audio_path ++ lit ".part")
          (<[audio_path := {| is_dir := false;
                              st_size := N.of_nat (length text) |}]> fs),
        Ok tt) |}.

(** A book of three spine entries, the second of which is blank. *)
Definition stub_book : EpubBook :=
  {| spine := [(lit "c1", lit "yes"); (lit "c2", lit "yes"); (lit "c3", lit "yes")];
     items := <[lit "c1" := {| get_body_content := Some (lit "Primo capitolo.") |}]>
             (<[lit "c2" := {| get_body_content := Some (lit "  ") |}]>
             (<[lit "c3" := {| get_body_content := Some (lit "Secondo.") |}]> ∅)) |}.

Definition stub_metadata : BookMetadata.t :=
  BookMetadata.mk (lit "Test Book") (lit "Author X") (lit "it") None.

(** No network, a prober that reports one second per byte, an assembly
    that writes the output file. *)
Definition stub_world : World :=
  {| read_epub := fun _ _ => Ok stub_book;
     soup_text := fun html => html;
     soup_find_text := fun _ _ => None;
     _extract_metadata := fun _ => stub_metadata;
     enrich_metadata := fun _ _ => Ok None;
     fetch_cover_image := fun _ _ => Ok None;
     mkdtemp := fun _ => Ok (lit "/tmp/e2a_0");
     rmtree_stuck := fun _ _ _ => false;
     probe_duration_ms := fun p fs =>
       match fs !! p with
       | Some n => Ok (1000 * Z.of_N (st_size n))
       | None => Raise (Exception "CalledProcessError" p)
       end;
     build_m4b := fun _ _ output_path _ _ fs =>
       (<[output_path := {| is_dir := false; st_size := 1 |}]> fs, Ok tt) |}.

Definition stub_converter : Converter :=
  {| engine := stub_engine;
     config := TTSConfig.mk (lit "test") 1%Q None (lit "it");
     bitrate := lit "64k" |}.

(** The chapters of [stub_book]. *)
Definition stub_chapters : list Chapter.t :=
  [ Chapter.mk 0 (lit "Capitolo 1") (lit "Primo capitolo.");
    Chapter.mk 1 (lit "Capitolo 2") (lit "Secondo.") ].

(** A working directory in which the first chapter is there already. *)
Definition resumed_fs : FS :=
  <[lit "work/chapter_0000.mp3" := {| is_dir := false; st_size := 13 |}]>
  (<[lit "work" := {| is_dir := true; st_size := 0 |}]> ∅).

End converter.

(* ================================================================== *)
(** * audio/m4b_builder.py: [build_m4b] and the files it handles *)
(* ================================================================== *)

Module assembly.

Import m4b_builder converter.

(** What [build_m4b] runs outside the package. *)
Record Tools := {
  (** [get_ffmpeg()]: the path of the executable, or the error met in
      fetching it *)
  get_ffmpeg : result str;
  (** [subprocess.run(args, check=True, capture_output=True)] *)
  subprocess_run : list str -> FS -> FS * result unit;
  (** the bytes a text takes in the encoding of the platform *)
  encoded_size : str -> N
}.

Definition file (size : N) : node := {| is_dir := false; st_size := size |}.

(** Opening [p] for writing and writing [size] bytes: an error when [p]
    is a directory.  (Permissions and missing parents are not tracked.) *)
Definition write_file (p : str) (size : N) (fs : FS) : FS * result unit :=
  match fs !! p with
  | Some n =>
      if is_dir n then (fs, Raise (Exception "IsADirectoryError" p))
      else (<[p := file size]> fs, Ok tt)
  | None => (<[p := file size]> fs, Ok tt)
  end.

(** [p.unlink(missing_ok=True)] *)
Definition unlink (p : str) (fs : FS) : FS * result unit :=
  match fs !! p with
  | Some n =>
      if is_dir n then (fs, Raise (Exception "IsADirectoryError" p))
      else (delete p fs, Ok tt)
  | None => (fs, Ok tt)
  end.

(** One line of the list handed to the concat demuxer. *)
Definition concat_line (audio_path : str) : str :=
  let safe_path := replace (lit "'") (lit "'\''") audio_path in
  lit "file '" ++ safe_path ++ lit "'" ++ [NL].

(** The reader of the concat demuxer, for one token: between single
    quotes every character stands for itself; outside them a backslash
    makes the next character literal.  (Not part of the package; the
    inverse the round trip of the quoting is stated against.) *)
Fixpoint read_token (quoted : bool) (s : str) : str :=
  match s with
  | [] => []
  | c :: s' =>
      if quoted then
        if (c =? 39)%N then read_token false s' else c :: read_token true s'
      else if (c =? 39)%N then read_token true s'
      else if (c =? BACKSLASH)%N
           then match s' with
                | [] => []
                | d :: s'' => d :: read_token false s''
                end
           else c :: read_token false s'
  end.

Definition JPEG_MAGIC : list N := [255; 216; 255]%N.
Definition PNG_MAGIC : list N := [137; 80; 78; 71; 13; 10; 26; 10]%N.

(** The extension [_save_cover] takes from the first bytes. *)
Definition cover_ext (data : list N) : str :=
  if bool_decide (take 3 data = JPEG_MAGIC) then lit ".jpg"
  else if bool_decide (take 8 data = PNG_MAGIC) then lit ".png"
  else lit ".jpg".

(** [_save_cover] *)
Definition _save_cover (metadata : BookMetadata.t) (temp_dir : str)
  : M (option str) :=
  match BookMetadata.cover_image metadata with
  | Some data =>
      if truthy data then
        let cover_path := path_join temp_dir (lit "cover" ++ cover_ext data) in
        writing (write_file cover_path (N.of_nat (length data)));;
        ret (Some cover_path)
      else ret None
  | None => ret None
  end.

(** The three command lines. *)
Definition encode_args (ffmpeg concat_path bitrate intermediate : str) : list str :=
  [ffmpeg; lit "-y"; lit "-f"; lit "concat"; lit "-safe"; lit "0";
   lit "-i"; concat_path; lit "-c:a"; lit "aac"; lit "-b:a"; bitrate;
   intermediate].

Definition mux_args (ffmpeg intermediate meta_path target : str) : list str :=
  [ffmpeg; lit "-y"; lit "-i"; intermediate; lit "-f"; lit "ffmetadata";
   lit "-i"; meta_path; lit "-map"; lit "0:a"; lit "-map_metadata"; lit "1";
   lit "-c"; lit "copy"; target].

Definition cover_args (ffmpeg with_chapters cover_path output_path : str)
  : list str :=
  [ffmpeg; lit "-y"; lit "-i"; with_chapters; lit "-i"; cover_path;
   lit "-map"; lit "0:a"; lit "-map"; lit "1:v"; lit "-c:a"; lit "copy";
   lit "-c:v"; lit "copy"; lit "-disposition:v:0"; lit "attached_pic";
   lit "-metadata:s:v"; lit "title=Cover";
   lit "-metadata:s:v"; lit "comment=Cover (front)"; output_path].

(** [build_m4b] *)
Definition build_m4b (t : Tools) (chapter_audios : list ChapterAudio.t)
           (metadata : BookMetadata.t) (output_path temp_dir bitrate : str)
  : M unit :=
  let concat_path := path_join temp_dir (lit "concat.txt") in
  let concat_text := flat_map (fun ch => concat_line (ChapterAudio.audio_path ch))
                              chapter_audios in
  writing (write_file concat_path (encoded_size t concat_text));;
  let meta_path := path_join temp_dir (lit "ffmetadata.txt") in
  let meta_content := _build_ffmetadata chapter_audios metadata in
  writing (write_file meta_path (encoded_size t meta_content));;
  ffmpeg ← lift (get_ffmpeg t);
  let intermediate := path_join temp_dir (lit "combined.m4a") in
  writing (subprocess_run t (encode_args ffmpeg concat_path bitrate intermediate));;
  cover_path ← _save_cover metadata temp_dir;
  match cover_path with
  | Some cover_path =>
      let with_chapters := path_join temp_dir (lit "with_chapters.m4b") in
      writing (subprocess_run t (mux_args ffmpeg intermediate meta_path with_chapters));;
      writing (subprocess_run t
                 (cover_args ffmpeg with_chapters cover_path output_path));;
      writing (unlink with_chapters)
  | None =>
      writing (subprocess_run t (mux_args ffmpeg intermediate meta_path output_path))
  end;;
  writing (unlink intermediate).

(** What a computation does to the file system, and its outcome. *)
Definition run_fs {A} (m : M A) (fs : FS) : FS * result A :=
  ((m fs).1.2, (m fs).1.1).

(** [build_m4b] as the converter calls it. *)
Definition run_build_m4b (t : Tools) (chapter_audios : list ChapterAudio.t)
           (metadata : BookMetadata.t) (output_path temp_dir bitrate : str)
  : FS -> FS * result unit :=
  run_fs (build_m4b t chapter_audios metadata output_path temp_dir bitrate).

(** The tools never remove a path of [kept]. *)
Definition tools_keep (kept : str -> Prop) (t : Tools) : Prop :=
  forall args, keeps kept (subprocess_run t args).

(** ** A run with stub tools *)

(** An [ffmpeg] that writes its last argument. *)
Definition stub_tools : Tools :=
  {| get_ffmpeg := Ok (lit "ffmpeg");
     subprocess_run := fun args fs =>
       match last args with
       | Some target => (<[target := file 1]> fs, Ok tt)
       | None => (fs, Raise (Exception "CalledProcessError" []))
       end;
     encoded_size := fun text => N.of_nat (length text) |}.

(** The quiet world, with the assembly of the package run on the stub
    tools. *)
Definition assembling_world : World :=
  {| read_epub := read_epub stub_world;
     soup_text := soup_text stub_world;
     soup_find_text := soup_find_text stub_world;
     _extract_metadata := _extract_metadata stub_world;
     enrich_metadata := enrich_metadata stub_world;
     fetch_cover_image := fetch_cover_image stub_world;
     mkdtemp := mkdtemp stub_world;
     rmtree_stuck := rmtree_stuck stub_world;
     probe_duration_ms := probe_duration_ms stub_world;
     converter.build_m4b := run_build_m4b stub_tools |}.

(** The working directory and the two chapter files of the stub book. *)
Definition work_files : list str :=
  [lit "work"; lit "work/chapter_0000.mp3"; lit "work/chapter_0001.mp3"].

End assembly.

(* ================================================================== *)
(** * web/jobs.py *)
(* ================================================================== *)

Module jobs.

(** The values a job dict holds; all of them are immutable. *)
Inductive pyval :=
| VNone
| VStr (s : str)
| VInt (n : Z)
| VBytes (b : list N).

#[export] Instance pyval_eq_dec : EqDecision pyval.
Proof. solve_decision. Defined.

(** A dict with string keys. *)
Abbreviation dict := (gmap string pyval).

(** A reference to a dict object. *)
Abbreviation ref := positive.

(** The object store: the dicts that exist, by reference. *)
Abbreviation heap := (gmap positive (gmap string pyval)).

(** [JobManager]: [_jobs] maps a job id to the reference of its dict.
    (The lock makes every method atomic; it is not modelled further.) *)
Record JobManager := {
  _jobs : gmap (list N) positive;
  objects : gmap positive (gmap string pyval)
}.

(** [JobManager()] *)
Definition new : JobManager := {| _jobs := ∅; objects := ∅ |}.

(** Allocation of a new dict object. *)
Definition alloc (d : dict) (h : heap) : ref * heap :=
  let r := fresh (dom h) in (r, <[r := d]> h).

(** [d[key] = v] through a reference. *)
Definition setitem (r : ref) (key : string) (v : pyval) (h : heap) : heap :=
  match h !! r with
  | Some d => <[r := <[key := v]> d]> h
  | None => h
  end.

Definition of_cover (cover_image : option (list N)) : pyval :=
  match cover_image with Some b => VBytes b | None => VNone end.

(** The dict literal built by [JobManager.create]. *)
Definition new_job (job_id epub_path title author language : str)
           (total_chapters : Z) (cover_image : option (list N)) : dict :=
  <["job_id" := VStr job_id]> (
  <["status" := VStr (lit "uploaded")]> (
  <["epub_path" := VStr epub_path]> (
  <["output_path" := VNone]> (
  <["title" := VStr title]> (
  <["author" := VStr author]> (
  <["language" := VStr language]> (
  <["total_chapters" := VInt total_chapters]> (
  <["current_chapter" := VInt 0]> (
  <["chapter_title" := VStr []]> (
  <["error" := VNone]> (
  <["cover_image" := of_cover cover_image]> ∅))))))))))).

(** [JobManager.create]: the job is stored under [job_id] (replacing what
    was there) and the reference of the copy [dict(job)] is returned. *)
Definition create (self : JobManager) (job_id epub_path title author language : str)
           (total_chapters : Z) (cover_image : option (list N))
  : ref * JobManager :=
  let job := new_job job_id epub_path title author language
               total_chapters cover_image in
  let '(r, h) := alloc job (objects self) in
  let jobs' := <[job_id := r]> (_jobs self) in
  let '(copy, h) := alloc job h in
  (copy, {| _jobs := jobs'; objects := h |}).

(** The dict stored for a job id. *)
Definition stored (self : JobManager) (job_id : str) : option dict :=
  r ← _jobs self !! job_id; objects self !! r.

(** [JobManager.get]: [dict(job) if job else None], a new object. *)
Definition get (self : JobManager) (job_id : str) : option ref * JobManager :=
  match stored self job_id with
  | Some job =>
      if bool_decide (job = ∅) then (None, self)
      else
        let '(copy, h) := alloc job (objects self) in
        (Some copy, {| _jobs := _jobs self; objects := h |})
  | None => (None, self)
  end.

(** [self._jobs[job_id][key] = v], under [if job_id in self._jobs]. *)
Definition set_field (self : JobManager) (job_id : str) (key : string) (v : pyval)
  : JobManager :=
  match _jobs self !! job_id with
  | Some r => {| _jobs := _jobs self; objects := setitem r key v (objects self) |}
  | None => self
  end.

(** [JobManager.update_status] *)
Definition update_status (self : JobManager) (job_id status : str) : JobManager :=
  set_field self job_id "status" (VStr status).

(** [JobManager.update_progress] *)
Definition update_progress (self : JobManager) (job_id : str)
           (current total : Z) (title : str) : JobManager :=
  let self := set_field self job_id "current_chapter" (VInt current) in
  let self := set_field self job_id "total_chapters" (VInt total) in
  set_field self job_id "chapter_title" (VStr title).

(** [JobManager.set_output] *)
Definition set_output (self : JobManager) (job_id path : str) : JobManager :=
  set_field self job_id "output_path" (VStr path).

(** [JobManager.set_error] *)
Definition set_error (self : JobManager) (job_id error : str) : JobManager :=
  set_field self job_id "error" (VStr error).

(** [job["status"]] of the stored job. *)
Definition status (self : JobManager) (job_id : str) : option pyval :=
  job ← stored self job_id; job !! "status".

(** The references in [_jobs] point to objects, and no two job ids share
    an object. *)
Definition wf (self : JobManager) : Prop :=
  (forall job_id r, _jobs self !! job_id = Some r -> is_Some (objects self !! r))
  /\ (forall id1 id2 r,
        _jobs self !! id1 = Some r -> _jobs self !! id2 = Some r -> id1 = id2).

(** ** The order of the states *)

Definition UPLOADED : pyval := VStr (lit "uploaded").
Definition CONVERTING : pyval := VStr (lit "converting").
Definition DONE : pyval := VStr (lit "done").
Definition ERROR : pyval := VStr (lit "error").

(** One move along uploaded -> converting -> done | error. *)
Inductive forward1 : pyval -> pyval -> Prop :=
| fw_start : forward1 UPLOADED CONVERTING
| fw_done : forward1 CONVERTING DONE
| fw_error : forward1 CONVERTING ERROR.

(** No move, or moves forward. *)
Definition forward : pyval -> pyval -> Prop := rtc forward1.

(** The status of every job present before is still there and has not
    moved backward. *)
Definition status_forward (before after : JobManager) : Prop :=
  forall job_id st, status before job_id = Some st ->
    exists st', status after job_id = Some st' /\ forward st st'.

End jobs.

(* ================================================================== *)
(** * web/app.py: the endpoints that write to the job store *)
(* ================================================================== *)

Module app.

Import jobs.

(** Where the worker thread started by [start_convert] stands.  Each
    [JobManager] call is one atomic step. *)
Inductive worker_pc :=
| Converting                (* inside [converter.convert] *)
| OutputSet                 (* after [jobs.set_output], before [update_status "done"] *)
| ErrorSet.                 (* after [jobs.set_error], before [update_status "error"] *)

(** The application: the job store, the job directories under the data
    directory, and the worker threads that are running. *)
Record App := {
  store : JobManager;
  job_dirs : gset (list N);
  workers : list (list N * worker_pc)
}.

(** [create_app] *)
Definition init : App := {| store := new; job_dirs := ∅; workers := [] |}.

(** The steps of the application that touch the job store. *)
Inductive step : App -> App -> Prop :=
(** [upload_epub]: [job_dir.mkdir(parents=True)] raises when the
    directory of that id exists; otherwise the job is created. *)
| step_upload a job_id epub_path title author language total cover :
    job_id ∉ job_dirs a ->
    step a {| store := (create (store a) job_id epub_path title author
                          language total cover).2;
              job_dirs := {[job_id]} ∪ job_dirs a;
              workers := workers a |}
(** [upload_epub] when parsing fails: the directory stays, no job. *)
| step_upload_rejected a job_id :
    job_id ∉ job_dirs a ->
    step a {| store := store a;
              job_dirs := {[job_id]} ∪ job_dirs a;
              workers := workers a |}
(** [start_convert]: only from "uploaded"; sets "converting" and starts
    the worker. *)
| step_start_convert a job_id :
    status (store a) job_id = Some UPLOADED ->
    step a {| store := update_status (get (store a) job_id).2 job_id (lit "converting");
              job_dirs := job_dirs a;
              workers := workers a ++ [(job_id, Converting)] |}
(** a read-only endpoint: [jobs.get] allocates a snapshot *)
| step_read a job_id :
    step a {| store := (get (store a) job_id).2;
              job_dirs := job_dirs a;
              workers := workers a |}
(** the progress callback of a running conversion *)
| step_progress a ws1 ws2 job_id current total title :
    workers a = ws1 ++ (job_id, Converting) :: ws2 ->
    step a {| store := update_progress (store a) job_id current total title;
              job_dirs := job_dirs a;
              workers := workers a |}
(** the conversion returned: [jobs.set_output] *)
| step_set_output a ws1 ws2 job_id output_path :
    workers a = ws1 ++ (job_id, Converting) :: ws2 ->
    step a {| store := set_output (store a) job_id output_path;
              job_dirs := job_dirs a;
              workers := ws1 ++ (job_id, OutputSet) :: ws2 |}
(** then [jobs.update_status(job_id, "done")]; the thread ends *)
| step_done a ws1 ws2 job_id :
    workers a = ws1 ++ (job_id, OutputSet) :: ws2 ->
    step a {| store := update_status (store a) job_id (lit "done");
              job_dirs := job_dirs a;
              workers := ws1 ++ ws2 |}
(** the conversion raised: [jobs.set_error] *)
| step_set_error a ws1 ws2 job_id error :
    workers a = ws1 ++ (job_id, Converting) :: ws2 ->
    step a {| store := set_error (store a) job_id error;
              job_dirs := job_dirs a;
              workers := ws1 ++ (job_id, ErrorSet) :: ws2 |}
(** then [jobs.update_status(job_id, "error")]; the thread ends *)
| step_error a ws1 ws2 job_id :
    workers a = ws1 ++ (job_id, ErrorSet) :: ws2 ->
    step a {| store := update_status (store a) job_id (lit "error");
              job_dirs := job_dirs a;
              workers := ws1 ++ ws2 |}.

(** The states the application can be in. *)
Definition reachable (a : App) : Prop := rtc step init a.

(** A store with one job that has gone through to "done", and the
    application in which that job was uploaded and then started. *)
Definition finished_store : JobManager :=
  let jm := (create new (lit "j1") (lit "data/j1/book.epub") (lit "Book")
               (lit "Author") (lit "it") 2 None).2 in
  update_status (update_status jm (lit "j1") (lit "converting")) (lit "j1") (lit "done").

Definition uploaded_app : App :=
  {| store := (create (store init) (lit "j1") (lit "data/j1/book.epub")
                 (lit "Book") (lit "Author") (lit "it") 2 None).2;
     job_dirs := {[lit "j1"]} ∪ job_dirs init;
     workers := workers init |}.

Definition started_app : App :=
  {| store := update_status (get (store uploaded_app) (lit "j1")).2 (lit "j1")
                (lit "converting");
     job_dirs := job_dirs uploaded_app;
     workers := workers uploaded_app ++ [(lit "j1", Converting)] |}.

(** What holds in every reachable state: the store is well formed, every
    job has its directory, and every running worker belongs to a job that
    is "converting", one worker per job at most. *)
Definition invariant (a : App) : Prop :=
  wf (store a)
  /\ (forall job_id, is_Some (_jobs (store a) !! job_id) -> job_id ∈ job_dirs a)
  /\ (forall job_id pc, (job_id, pc) ∈ workers a ->
        status (store a) job_id = Some CONVERTING)
  /\ NoDup (workers a).*1.

End app.

(* ================================================================== *)
(** * Notions used to reason about the matcher and the cleanup *)
(* ================================================================== *)

Module ReSpec.

Import Re epub_parser.

(** The character before the position reached after reading [m]. *)
Definition last_char (prev : option N) (m : str) : option N :=
  match last m with
  | Some c => Some c
  | None => prev
  end.

(** [Chunks p prev m rest]: the text [m], found after [prev] and followed
    by [rest], splits into one piece per item of [p]. *)
Inductive Chunks : pattern -> option N -> str -> str -> Prop :=
| Chunks_nil prev rest :
    Chunks [] prev [] rest
| Chunks_chr c p prev x m rest :
    c x = true ->
    Chunks p (Some x) m rest ->
    Chunks (Chr c :: p) prev (x :: m) rest
| Chunks_rep n c p prev run m rest :
    Forall (fun x => c x = true) run ->
    (n <= length run)%nat ->
    Chunks p (last_char prev run) m rest ->
    Chunks (AtLeast n c :: p) prev (run ++ m) rest
| Chunks_assert alts p prev m rest :
    existsb (holds prev (m ++ rest)) alts = true ->
    Chunks p prev m rest ->
    Chunks (Assert alts :: p) prev m rest.

(** A pattern that consumes at least one character. *)
Definition consuming (p : pattern) : Prop :=
  Exists (fun it => match it with
                    | Chr _ => True
                    | AtLeast n _ => (0 < n)%nat
                    | Assert _ => False
                    end) p.

(** A pattern that cannot match without a character of the class [c]. *)
Definition needs (c : cls) (p : pattern) : Prop :=
  Exists (fun it => match it with
                    | Chr c' => forall x, c' x = true -> c x = true
                    | AtLeast n c' => (0 < n)%nat /\ forall x, c' x = true -> c x = true
                    | Assert _ => False
                    end) p.

(** The pattern matches at no position of [s], read after [prev]. *)
Fixpoint nowhere (p : pattern) (prev : option N) (s : str) : Prop :=
  match_at p prev s = None /\
  match s with
  | [] => True
  | c :: s' => nowhere p (Some c) s'
  end.

(** What the scan of [re.sub] produces, for a pattern that never matches
    the empty text. *)
Inductive Scan (p : pattern) (repl : str -> str) : option N -> str -> str -> Prop :=
| Scan_nil prev :
    Scan p repl prev [] []
| Scan_skip prev c s out :
    match_at p prev (c :: s) = None ->
    Scan p repl (Some c) s out ->
    Scan p repl prev (c :: s) (c :: out)
| Scan_match prev m rest out :
    m <> [] ->
    match_at p prev (m ++ rest) = Some rest ->
    Scan p repl (last_char prev m) rest out ->
    Scan p repl prev (m ++ rest) (repl m ++ out).

(** The length of the run of [c] at the head of [s]. *)
Fixpoint run_len (c : cls) (s : str) : nat :=
  match s with
  | x :: s' => if c x then S (run_len c s') else O
  | [] => O
  end.

(** No run of [c] in [s] reaches the length [n]. *)
Fixpoint short_runs (c : cls) (n : nat) (s : str) : Prop :=
  (run_len c s < n)%nat /\
  match s with
  | [] => True
  | _ :: s' => short_runs c n s'
  end.

(** No character of [a] is directly followed by one of [b]. *)
Fixpoint adj_free (a b : cls) (s : str) : Prop :=
  match s with
  | x :: s' =>
      match s' with
      | y :: _ => ~ (a x = true /\ b y = true)
      | [] => True
      end /\ adj_free a b s'
  | [] => True
  end.

(** ** Lines that consist of punctuation only

    A reader of one line at a time: nothing but whitespace so far ([L0]),
    then punctuation ([L1]), then whitespace again ([L2]); anything else
    makes the line an ordinary one ([L3]).  A line that ends in [L1] or
    [L2] is what [re_punct_line] matches. *)
Inductive lstate := L0 | L1 | L2 | L3.

Definition line_end_ok (q : lstate) : bool :=
  match q with L1 | L2 => false | L0 | L3 => true end.

Definition line_step (q : lstate) (x : N) : option lstate :=
  if (x =? NL)%N then (if line_end_ok q then Some L0 else None)
  else if ws x then Some (match q with L0 => L0 | L1 | L2 => L2 | L3 => L3 end)
  else if punct x then Some (match q with L0 | L1 => L1 | L2 | L3 => L3 end)
  else Some L3.

(** No line of [s], read from the state [q], consists of punctuation only. *)
Fixpoint lines_ok (q : lstate) (s : str) : bool :=
  match s with
  | [] => line_end_ok q
  | x :: s' =>
      match line_step q x with
      | Some q' => lines_ok q' s'
      | None => false
      end
  end.

(** The same for the line at the head of [s] alone. *)
Fixpoint line_ok (q : lstate) (s : str) : bool :=
  match s with
  | [] => line_end_ok q
  | x :: s' =>
      if (x =? NL)%N then line_end_ok q
      else match line_step q x with
           | Some q' => line_ok q' s'
           | None => false
           end
  end.

(** A character that steps the line reader into a state it then stays
    in. *)
Definition stutters (z : N) : Prop :=
  forall q, match line_step q z with
            | Some q1 => line_step q1 z = Some q1
            | None => True
            end.

(** Whether [^] and [$] (with MULTILINE) hold at a position. *)
Definition at_line_start (prev : option N) : bool := holds prev [] LineStart.
Definition at_line_end (s : str) : bool := holds None s LineEnd.

(** ** The stages of [_clean_for_tts] *)

Definition stage_typography (text : str) : str :=
  fold_left (fun text '(old, new) => replace old new text) replacements text.
Definition stage_protect (text : str) : str :=
  replace (lit "...") ELLIPSIS_MARK text.
Definition stage_isolated_period (text : str) : str :=
  sub re_isolated_period (fun _ => []) text.
Definition stage_punct_line (text : str) : str :=
  sub re_punct_line (fun _ => []) text.
Definition stage_missing_space (text : str) : str :=
  sub re_missing_space repl_space_between text.
Definition stage_dash_period (text : str) : str :=
  sub re_dash_period (fun _ => lit ". ") text.
Definition stage_dash_comma (text : str) : str :=
  sub re_dash_comma (fun _ => lit ", ") text.
Definition stage_period_dash (text : str) : str :=
  sub re_period_dash (fun _ => lit ". ") text.
Definition stage_leading_period (text : str) : str :=
  sub re_leading_period (fun _ => []) text.
Definition stage_restore (text : str) : str :=
  replace ELLIPSIS_MARK (lit "...") text.
Definition stage_spaces (text : str) : str :=
  sub re_spaces (fun _ => lit " ") text.
Definition stage_newlines (text : str) : str :=
  sub re_newlines (fun _ => [NL; NL]) text.

(** What the typographic replacements do to one character. *)
Definition typography_char (c : N) : str :=
  if (c =? 8216)%N then lit "'"
  else if (c =? 8217)%N then lit "'"
  else if (c =? 8220)%N then [34%N]
  else if (c =? 8221)%N then [34%N]
  else if (c =? EN_DASH)%N then lit " "
  else if (c =? EM_DASH)%N then lit " "
  else if (c =? ELLIPSIS_CHAR)%N then lit "..."
  else if (c =? 160)%N then lit " "
  else [c].

(** The characters the cleanup rewrites in its first stage. *)
Definition typographic (c : N) : bool :=
  one_of [8216; 8217; 8220; 8221; EN_DASH; EM_DASH; ELLIPSIS_CHAR; 160]%N c.

(** The text after the first stage: no period, no NUL, no typographic
    character. *)
Definition tidy_char (c : N) : Prop :=
  c <> DOT /\ c <> NUL /\ typographic c = false.

(** What the cleanup leaves behind on such an input, and what makes a
    text a fixed point of it. *)
Definition settled (text : str) : Prop :=
  Forall tidy_char text
  /\ (Forall (fun c => c <> HYPHEN) text \/ Forall (fun c => c <> 44%N) text)
  /\ lines_ok L0 text = true
  /\ adj_free sentence_end letter text
  /\ short_runs (just SPACE) 2 text
  /\ short_runs (just NL) 3 text.

(** Texts with no period, no ellipsis character, no NUL, and not both a
    hyphen and a comma: inputs on which the cleanup is idempotent. *)
Definition plain (text : str) : Prop :=
  Forall (fun c => c <> DOT /\ c <> ELLIPSIS_CHAR /\ c <> NUL) text
  /\ (Forall (fun c => c <> HYPHEN) text \/ Forall (fun c => c <> 44%N) text).

End ReSpec.

(* ================================================================== *)
(** * What the job store holds while the application runs *)
(* ================================================================== *)

Module AppSpec.

Import jobs app.

(** The job holds a string under [key]. *)
Definition has_str (job : dict) (key : string) : Prop :=
  exists s, job !! key = Some (VStr s).

(** What a job dict records, given the workers that are running: the
    output path once the job is "done" (and from [set_output] on), the
    error text once it is "error" (and from [set_error] on), and neither
    of them as long as the job is "uploaded". *)
Definition job_recorded (ws : list (str * worker_pc)) (job_id : str)
           (job : dict) : Prop :=
  (job !! "status" = Some DONE -> has_str job "output_path")
  /\ (job !! "status" = Some ERROR -> has_str job "error")
  /\ (job !! "status" = Some UPLOADED ->
      job !! "output_path" = Some VNone /\ job !! "error" = Some VNone)
  /\ ((job_id, OutputSet) ∈ ws -> has_str job "output_path")
  /\ ((job_id, ErrorSet) ∈ ws -> has_str job "error").

Definition results_recorded (a : App) : Prop :=
  forall job_id job,
    stored (store a) job_id = Some job -> job_recorded (workers a) job_id job.

End AppSpec.

(* ================================================================== *)
(** * tts/__init__.py: the engine registry *)
(* ================================================================== *)

Module tts.

Section registry.

(** The engine classes, and what calling one gives: an engine, or the
    error its constructor raises. *)
Context {Cls Engine : Type}.
Variable instantiate : Cls -> result Engine.

(** [d[name] = cls] on a [dict], which keeps its keys in the order in
    which they were first set. *)
Fixpoint dict_set (name : str) (cls : Cls) (d : list (str * Cls))
  : list (str * Cls) :=
  match d with
  | [] => [(name, cls)]
  | (k, v) :: d' =>
      if decide (k = name) then (k, cls) :: d'
      else (k, v) :: dict_set name cls d'
  end.

(** [d.get(name)] *)
Fixpoint dict_get (name : str) (d : list (str * Cls)) : option Cls :=
  match d with
  | [] => None
  | (k, v) :: d' => if decide (k = name) then Some v else dict_get name d'
  end.

(** [register_engine(name)(cls)], as to [ENGINE_REGISTRY] *)
Definition register_engine (name : str) (cls : Cls)
           (ENGINE_REGISTRY : list (str * Cls)) : list (str * Cls) :=
  dict_set name cls ENGINE_REGISTRY.

(** [list_engines()] *)
Definition list_engines (ENGINE_REGISTRY : list (str * Cls)) : list str :=
  ENGINE_REGISTRY.*1.

(** [get_engine(name)] *)
Definition get_engine (name : str) (ENGINE_REGISTRY : list (str * Cls))
  : result Engine :=
  match dict_get name ENGINE_REGISTRY with
  | None =>
      let joined := join (lit ", ") (list_engines ENGINE_REGISTRY) in
      let available := if truthy joined then joined else lit "(nessuno)" in
      Raise (Exception "ValueError"
               (lit "Engine sconosciuto '" ++ name ++ lit "'. Disponibili: "
                  ++ available))
  | Some cls => instantiate cls
  end.

End registry.

End tts.

(* ================================================================== *)
(** * web/app.py: the cover endpoint *)
(* ================================================================== *)

Module covers.

Import jobs assembly.

(** What an endpoint answers. *)
Inductive response :=
| Response (content : list N) (media_type : str)
| HTTPException (status_code : Z) (detail : str).

(** The media type [get_cover] takes from the first bytes. *)
Definition cover_media_type (data : list N) : str :=
  if bool_decide (take 3 data = JPEG_MAGIC) then lit "image/jpeg"
  else if bool_decide (take 8 data = PNG_MAGIC) then lit "image/png"
  else lit "image/jpeg".

(** [get_cover], as to the job store.  The entry ["cover_image"] is only
    ever set by [create], to [None] or to [bytes]; for an entry of another
    type no answer is given here. *)
Definition get_cover (self : JobManager) (job_id : str)
  : option response * JobManager :=
  let '(job, self') := get self job_id in
  let not_available := HTTPException 404 (lit "Copertina non disponibile") in
  match job with
  | None => (Some not_available, self')
  | Some r =>
      match objects self' !! r ≫= (.!! "cover_image"%string) with
      | None | Some VNone => (Some not_available, self')
      | Some (VBytes data) =>
          if truthy data
          then (Some (Response data (cover_media_type data)), self')
          else (Some not_available, self')
      | Some _ => (None, self')
      end
  end.

End covers.

(* ================================================================== *)
(** * tts/edge_engine.py: the split of a long text *)
(* ================================================================== *)

Module edge_engine.

Import Re.

Definition MAX_CHUNK_CHARS : nat := 3000.

(** [[.!?…]] *)
Definition sentence_stop : cls := one_of [46; 33; 63; 8230]%N.

(** [r"(?<=[.!?…])\s+"] *)
Definition re_sentence_gap : pattern :=
  [Assert [Behind sentence_stop]; Plus isspace].

(** Put [c] at the head of the piece being read. *)
Definition push (c : N) (pieces : list str) : list str :=
  match pieces with
  | piece :: rest => (c :: piece) :: rest
  | [] => [[c]]
  end.

(** The scan of [re.split(p, s)] for a pattern without groups that
    matches no empty text: the pieces between the leftmost matches, left
    to right.  [skip] counts the characters of a match that is being
    dropped. *)
Fixpoint split_scan (p : pattern) (prev : option N) (skip : nat) (s : str)
  : list str :=
  match s with
  | [] => [[]]
  | c :: s' =>
      match skip with
      | S k => split_scan p (Some c) k s'
      | O =>
          match match_at p prev s with
          | Some rest =>
              match (length s - length rest)%nat with
              | O => push c (split_scan p (Some c) O s')
              | S k => [] :: split_scan p (Some c) k s'
              end
          | None => push c (split_scan p (Some c) O s')
          end
      end
  end.

(** [re.split(p, s)] *)
Definition split (p : pattern) (s : str) : list str := split_scan p None O s.

(** One iteration of the loop over the sentences; the loop state is
    [(chunks, current_chunk)]. *)
Definition pack_step (limit : nat) (st : list str * str) (sentence : str)
  : list str * str :=
  let '(chunks, current_chunk) := st in
  if (limit <? length current_chunk + length sentence + 1)%nat
     && truthy current_chunk
  then (chunks ++ [strip current_chunk], sentence)
  else (chunks,
        if truthy current_chunk then current_chunk ++ lit " " ++ sentence
        else sentence).

(** [EdgeTTSEngine._split_text], for a limit on the characters of a
    chunk. *)
Definition split_text_at (limit : nat) (text : str) : list str :=
  if (length text <=? limit)%nat then [text]
  else
    let sentences := split re_sentence_gap text in
    let '(chunks, current_chunk) :=
      fold_left (pack_step limit) sentences ([], []) in
    let chunks :=
      if truthy (strip current_chunk) then chunks ++ [strip current_chunk]
      else chunks in
    if truthy chunks then chunks else [text].

(** [EdgeTTSEngine._split_text] *)
Definition _split_text (text : str) : list str :=
  split_text_at MAX_CHUNK_CHARS text.

(** A text without its whitespace. *)
Definition unspaced (s : str) : str := filter (fun c => isspace c = false) s.

End edge_engine.

(* ================================================================== *)
(** * Theorems *)
(* ================================================================== *)

Import Re m4b_builder epub_parser ReSpec converter jobs app.

(** ** Python strings *)

Section replace_facts.

(** Replacing a one-character pattern is a character-wise map. *)
Lemma replace_single (c : N) (new s : list N) :
  replace [c] new s = flat_map (fun x => if (c =? x)%N then new else [x]) s.
Proof.
  unfold replace. induction s as [|a s IH]; simpl; [done|].
  rewrite andb_true_r. destruct (c =? a)%N; simpl; by rewrite IH.
Qed.

Lemma flat_map_flat_map {A B C} (f : A -> list B) (g : B -> list C) l :
  flat_map g (flat_map f l) = flat_map (fun x => flat_map g (f x)) l.
Proof.
  induction l as [|a l IH]; simpl; [done|].
  by rewrite flat_map_app, IH.
Qed.

End replace_facts.

(** ** m4b_builder *)

Lemma escape_flat_map (value : list N) :
  _escape value = flat_map escape_char value.
Proof.
  unfold _escape, escape_chars, fold_left.
  rewrite !replace_single, !flat_map_flat_map.
  apply flat_map_ext. intros a.
  unfold escape_char, BACKSLASH, NL.
  destruct (decide (a = 92%N)) as [->|]; [done|].
  destruct (decide (a = 61%N)) as [->|]; [done|].
  destruct (decide (a = 59%N)) as [->|]; [done|].
  destruct (decide (a = 35%N)) as [->|]; [done|].
  destruct (decide (a = 10%N)) as [->|]; [done|].
  rewrite bool_decide_eq_false_2
    by (unfold escape_chars, BACKSLASH, NL; intros H;
        repeat (apply elem_of_cons in H as [H|H]; [congruence|]);
        by apply elem_of_nil in H).
  assert (E : forall k : N, a <> k -> (k =? a)%N = false)
    by (intros k Hk; apply N.eqb_neq; congruence).
  repeat (rewrite E by done; cbn [flat_map app]). done.
Qed.

Lemma unescape_flat_map (value : list N) :
  unescape (flat_map escape_char value) = value.
Proof.
  induction value as [|a s IH]; simpl; [done|].
  unfold escape_char at 1. case_bool_decide as Hin; simpl.
  - by rewrite IH.
  - destruct (a =? BACKSLASH)%N eqn:E.
    + apply N.eqb_eq in E as ->. exfalso. apply Hin. by left.
    + by rewrite IH.
Qed.

(** C5. [_escape] replaces the backslash first and then each of [=], [;],
    [#] and newline, in that order; the net effect is that each of these
    five characters is preceded by a single backslash and every other
    character is kept; un-escaping an escaped string gives the string
    back; and [_escape "a=b"] is [a\=b] with one backslash. *)
Theorem escape_roundtrip :
  (forall value : list N,
      _escape value =
        replace [NL] [BACKSLASH; NL]
          (replace (lit "#") (lit "\#")
             (replace (lit ";") (lit "\;")
                (replace (lit "=") (lit "\=")
                   (replace (lit "\") (lit "\\") value)))))
  /\ (forall value : list N, _escape value = flat_map escape_char value)
  /\ (forall value : list N, unescape (_escape value) = value)
  /\ _escape (lit "a=b") = lit "a\=b".
Proof.
  split; [done|]. split; [apply escape_flat_map|]. split; [|done].
  intros value. rewrite escape_flat_map. apply unescape_flat_map.
Qed.

Lemma fold_chapter_step (cas : list ChapterAudio.t) (lines : list (list N)) (t : Z) :
  fold_left chapter_step cas (lines, t) =
    (lines ++ blocks_from t cas,
     t + sum_durations (ChapterAudio.duration_ms <$> cas)).
Proof.
  revert lines t. induction cas as [|ca cas IH]; intros lines t; simpl.
  - by rewrite app_nil_r, Z.add_0_r.
  - rewrite IH. f_equal.
    + by rewrite <- !app_assoc.
    + symmetry. apply Z.add_assoc.
Qed.

Lemma marker_start_cons (d : Z) (ds : list Z) (i : nat) :
  marker_start (d :: ds) (S i) = d + marker_start ds i.
Proof. done. Qed.

Lemma marker_end_cons (d : Z) (ds : list Z) (i : nat) :
  marker_end (d :: ds) (S i) = d + marker_end ds i.
Proof. unfold marker_end. rewrite marker_start_cons. simpl. lia. Qed.

Lemma marker_start_succ (ds : list Z) (i : nat) :
  marker_start ds (S i) = marker_end ds i.
Proof.
  revert i. induction ds as [|d ds IH]; intros i.
  - unfold marker_end, marker_start. by destruct i.
  - destruct i as [|i].
    + unfold marker_end, marker_start. simpl. lia.
    + by rewrite marker_start_cons, marker_end_cons, IH.
Qed.

Lemma marker_start_all (ds : list Z) :
  marker_start ds (length ds) = sum_durations ds.
Proof. unfold marker_start. by rewrite firstn_all. Qed.

Lemma blocks_from_imap (cas : list ChapterAudio.t) (t : Z) :
  blocks_from t cas =
    concat (imap (fun i ca =>
                    marker_block
                      (t + marker_start (ChapterAudio.duration_ms <$> cas) i)
                      (t + marker_end (ChapterAudio.duration_ms <$> cas) i)
                      (Chapter.title (ChapterAudio.chapter ca))) cas).
Proof.
  revert t. induction cas as [|ca cas IH]; intros t; [done|].
  cbn [blocks_from imap concat fmap list_fmap].
  f_equal.
  - replace (t + marker_start _ 0) with t
      by (unfold marker_start; simpl; lia).
    replace (t + marker_end _ 0) with (t + ChapterAudio.duration_ms ca)
      by (unfold marker_end, marker_start; simpl; lia).
    done.
  - rewrite IH. f_equal. apply imap_ext. intros i x _. simpl.
    by rewrite marker_start_cons, marker_end_cons, !Z.add_assoc.
Qed.

Lemma count_markers_app (l1 l2 : list (list N)) :
  count_markers (l1 ++ l2) = (count_markers l1 + count_markers l2)%nat.
Proof. unfold count_markers. by rewrite filter_app, length_app. Qed.

Lemma count_markers_block (start stop : Z) (title : list N) :
  count_markers (marker_block start stop title) = 1%nat.
Proof.
  unfold count_markers, marker_block.
  rewrite filter_cons_True by done.
  repeat (rewrite filter_cons_False by (simpl; discriminate)).
  done.
Qed.

Lemma count_markers_blocks (cas : list ChapterAudio.t) (t : Z) :
  count_markers (blocks_from t cas) = length cas.
Proof.
  revert t. induction cas as [|ca cas IH]; intros t; [done|].
  cbn [blocks_from]. rewrite count_markers_app, count_markers_block, IH. done.
Qed.

(** C2. The text built by [_build_ffmetadata] is the header followed, in
    list order, by one marker block per [ChapterAudio]; block [i] has
    [START] equal to the sum of the durations before [i] and [END] equal to
    that plus the duration of [i].  There are exactly [N] marker lines, the
    first marker starts at 0, each marker starts where the previous one
    ends, and the last one ends at the sum of all durations. *)
Theorem build_ffmetadata_markers
  (chapter_audios : list ChapterAudio.t) (metadata : BookMetadata.t) :
  let ds := ChapterAudio.duration_ms <$> chapter_audios in
  let n := length chapter_audios in
  _build_ffmetadata chapter_audios metadata =
    join [NL]
      (header_lines metadata ++
       concat (imap (fun i ca =>
                       marker_block (marker_start ds i) (marker_end ds i)
                         (Chapter.title (ChapterAudio.chapter ca)))
                    chapter_audios))
  /\ count_markers (ffmetadata_lines chapter_audios metadata) = n
  /\ marker_start ds 0 = 0
  /\ (forall i : nat, marker_start ds (S i) = marker_end ds i)
  /\ marker_end ds (n - 1) = sum_durations ds.
Proof.
  intros ds n.
  assert (Hlines : ffmetadata_lines chapter_audios metadata =
                   header_lines metadata ++ blocks_from 0 chapter_audios).
  { unfold ffmetadata_lines. by rewrite fold_chapter_step. }
  split; [|split; [|split; [|split]]].
  - unfold _build_ffmetadata. rewrite Hlines, blocks_from_imap.
    do 2 f_equal.
  - rewrite Hlines, count_markers_app, count_markers_blocks.
    unfold header_lines, count_markers. cbn [app].
    repeat (rewrite filter_cons_False by (simpl; discriminate)). done.
  - done.
  - apply marker_start_succ.
  - destruct chapter_audios as [|ca cas]; [done|].
    subst n. cbn [length]. replace (S (length cas) - 1)%nat with (length cas) by lia.
    rewrite <- marker_start_succ.
    replace (S (length cas)) with (length ds) by (subst ds; by rewrite length_fmap).
    apply marker_start_all.
Qed.

(** ** strip *)

Lemma drop_while_head {A} (p : A -> bool) (l : list A) (x : A) :
  head (drop_while p l) = Some x -> p x = false.
Proof.
  induction l as [|a l IH]; simpl; [done|].
  destruct (p a) eqn:E; [done|]. simpl. by intros [= <-].
Qed.

Lemma drop_while_suffix {A} (p : A -> bool) (l : list A) :
  exists k, l = k ++ drop_while p l.
Proof.
  induction l as [|a l [k IH]]; simpl; [by exists []|].
  destruct (p a); [|by exists []].
  exists (a :: k). simpl. by f_equal.
Qed.

Lemma rstrip_prefix (s : list N) : exists k, s = rstrip s ++ k.
Proof.
  unfold rstrip. destruct (drop_while_suffix isspace (reverse s)) as [k Hk].
  exists (reverse k).
  rewrite <- reverse_app, <- Hk. by rewrite reverse_involutive.
Qed.

Lemma strip_head (s : list N) (x : N) :
  head (strip s) = Some x -> isspace x = false.
Proof.
  unfold strip. intros H.
  destruct (rstrip_prefix (lstrip s)) as [k Hk].
  apply (drop_while_head isspace s). fold (lstrip s). rewrite Hk.
  destruct (rstrip (lstrip s)); [done|]. done.
Qed.

Lemma strip_last (s : list N) (x : N) :
  last (strip s) = Some x -> isspace x = false.
Proof.
  unfold strip, rstrip. rewrite last_reverse. apply drop_while_head.
Qed.

Lemma strip_nil : strip [] = [].
Proof. done. Qed.

(** ** epub_parser: the chapter loop *)

Section parser_facts.

Variable soup_text : list N -> list N.
Variable soup_find_text : list N -> list N -> option (list N).
Variable _extract_metadata : EpubBook -> BookMetadata.t.

Let html_to_text := _html_to_text soup_text.
Let step := extract_step soup_text soup_find_text.

Lemma html_to_text_head (h : list N) (x : N) :
  head (html_to_text h) = Some x -> isspace x = false.
Proof. apply strip_head. Qed.

Lemma html_to_text_last (h : list N) (x : N) :
  last (html_to_text h) = Some x -> isspace x = false.
Proof. apply strip_last. Qed.

Lemma entry_text_stripped (book : EpubBook) (entry : list N * list N) (t : list N) :
  entry_text soup_text book entry = Some t -> exists h, t = html_to_text h.
Proof.
  unfold entry_text. destruct (get_item_with_id book entry.1) as [item|]; [|done].
  cbn [mbind option_bind]. destruct (get_body_content item) as [h|]; [|done].
  cbn [mbind option_bind]. intros [= <-]. by exists h.
Qed.

(** What one iteration does, by the text of the entry. *)
Lemma extract_step_cases (book : EpubBook) (chapters : list Chapter.t)
      (index : Z) (entry : list N * list N) :
  match entry_text soup_text book entry with
  | Some t =>
      if decide (nonblank t)
      then exists title,
          step book (chapters, index) entry =
            (chapters ++ [Chapter.mk index title t], index + 1)
      else step book (chapters, index) entry = (chapters, index)
  | None => step book (chapters, index) entry = (chapters, index)
  end.
Proof.
  unfold entry_text, step, extract_step.
  destruct (get_item_with_id book entry.1) as [item|]; [|done].
  cbn [mbind option_bind].
  destruct (get_body_content item) as [h|]; [|done].
  cbn [mbind option_bind].
  destruct (decide (nonblank (_html_to_text soup_text h))) as [Hnb|Hnb];
    unfold nonblank in Hnb.
  - rewrite Hnb. cbn [negb]. eauto.
  - apply not_true_is_false in Hnb. rewrite Hnb. done.
Qed.

(** The loop invariant: the chapters appended so far are numbered
    consecutively from the counter, and their texts are the non-blank
    texts of the spine entries visited, in order. *)
Lemma extract_fold (book : EpubBook) (sp : list (list N * list N))
      (chapters : list Chapter.t) (index : Z) :
  exists new,
    fold_left (step book) sp (chapters, index) =
      (chapters ++ new, index + Z.of_nat (length new))
    /\ (forall k c, new !! k = Some c -> Chapter.index c = index + Z.of_nat k)
    /\ Chapter.text <$> new = filter nonblank (omap (entry_text soup_text book) sp)
    /\ Forall (fun c => exists h, Chapter.text c = html_to_text h) new.
Proof.
  revert chapters index.
  induction sp as [|entry sp IH]; intros chapters index.
  - exists []. simpl. rewrite app_nil_r, Z.add_0_r. by repeat split.
  - cbn [fold_left omap list_omap].
    pose proof (extract_step_cases book chapters index entry) as Hstep.
    pose proof (entry_text_stripped book entry) as Hsrc0.
    destruct (entry_text soup_text book entry) as [t|]; [|rewrite Hstep; apply IH].
    destruct (decide (nonblank t)) as [Hnb|Hnb].
    + destruct Hstep as [title ->].
      destruct (IH (chapters ++ [Chapter.mk index title t]) (index + 1))
        as (new & Hfold & Hidx & Htxt & Hsrc).
      exists (Chapter.mk index title t :: new).
      split; [|split; [|split]].
      * rewrite Hfold, <- app_assoc. cbn [app length]. f_equal. lia.
      * intros [|k] c; cbn; [intros [= <-]; simpl; lia|].
        intros Hk. rewrite (Hidx _ _ Hk). lia.
      * rewrite filter_cons_True by done. cbn. by rewrite <- Htxt.
      * constructor; [by apply Hsrc0|done].
    + rewrite Hstep, filter_cons_False by done. apply IH.
Qed.

Lemma extract_chapters_ok (epub_path : list N) (book : EpubBook)
      (chapters : list Chapter.t) :
  _extract_chapters soup_text soup_find_text epub_path book = Ok chapters ->
  chapters <> []
  /\ (forall k c, chapters !! k = Some c -> Chapter.index c = Z.of_nat k)
  /\ Chapter.text <$> chapters = filter nonblank (spine_texts soup_text book)
  /\ Forall (fun c => exists h, Chapter.text c = html_to_text h) chapters.
Proof.
  unfold _extract_chapters.
  destruct (extract_fold book (spine book) [] 0)
    as (new & Hfold & Hidx & Htxt & Hsrc).
  fold step. rewrite Hfold. cbn [fst app].
  destruct new as [|c new]; cbn [truthy]; [done|].
  intros [= <-]. split; [done|]. split; [|split; [|done]].
  - intros k c' Hk. by rewrite (Hidx _ _ Hk).
  - done.
Qed.

Lemma parse_ok (epub_path : list N) (book : EpubBook)
      (metadata : BookMetadata.t) (chapters : list Chapter.t) :
  parse soup_text soup_find_text _extract_metadata epub_path book
    = Ok (metadata, chapters) ->
  _extract_chapters soup_text soup_find_text epub_path book = Ok chapters.
Proof.
  unfold parse.
  destruct (_extract_chapters _ _ _ _); [|done]. by intros [= _ <-].
Qed.

(** C3. When parsing succeeds the chapter list is not empty, the k-th
    chapter returned carries index k (so the indices are 0, 1, ..., N-1
    without gap or duplicate), and the chapters are, in spine order, the
    spine entries whose text is not blank. *)
Theorem parse_indices_dense (epub_path : list N) (book : EpubBook)
        (metadata : BookMetadata.t) (chapters : list Chapter.t) :
  parse soup_text soup_find_text _extract_metadata epub_path book
    = Ok (metadata, chapters) ->
  chapters <> []
  /\ (forall k c, chapters !! k = Some c -> Chapter.index c = Z.of_nat k)
  /\ Chapter.index <$> chapters = Z.of_nat <$> seq 0 (length chapters)
  /\ NoDup (Chapter.index <$> chapters)
  /\ Chapter.text <$> chapters = filter nonblank (spine_texts soup_text book).
Proof.
  intros H. apply parse_ok, extract_chapters_ok in H
    as (Hne & Hidx & Htxt & _).
  assert (Hseq : Chapter.index <$> chapters = Z.of_nat <$> seq 0 (length chapters)).
  { apply list_eq. intros k. rewrite !list_lookup_fmap.
    destruct (chapters !! k) as [c|] eqn:Hk; simpl.
    - rewrite (Hidx _ _ Hk).
      rewrite lookup_seq_lt by (by apply lookup_lt_Some in Hk). done.
    - rewrite lookup_seq_ge by (by apply lookup_ge_None in Hk). done. }
  repeat split; try done.
  rewrite Hseq. apply NoDup_fmap; [intros ???; lia|apply NoDup_seq].
Qed.

(** C4. A spine entry whose cleaned text is empty or only whitespace
    produces no chapter: the texts of the chapters are exactly the
    non-blank texts of the spine; every chapter returned has a non-empty
    text that neither starts nor ends with a whitespace character. *)
Theorem parse_texts_stripped (epub_path : list N) (book : EpubBook)
        (metadata : BookMetadata.t) (chapters : list Chapter.t) :
  parse soup_text soup_find_text _extract_metadata epub_path book
    = Ok (metadata, chapters) ->
  Chapter.text <$> chapters = filter nonblank (spine_texts soup_text book)
  /\ Forall (fun c =>
               Chapter.text c <> []
               /\ strip (Chapter.text c) <> []
               /\ (forall x, head (Chapter.text c) = Some x -> isspace x = false)
               /\ (forall x, last (Chapter.text c) = Some x -> isspace x = false))
            chapters.
Proof.
  intros H. apply parse_ok, extract_chapters_ok in H
    as (_ & _ & Htxt & Hsrc).
  split; [done|].
  assert (Hnb : Forall nonblank (Chapter.text <$> chapters)).
  { rewrite Htxt. apply Forall_forall. intros t Ht.
    by apply list_elem_of_filter in Ht as [? _]. }
  rewrite Forall_fmap in Hnb.
  apply Forall_forall. intros c Hc.
  rewrite Forall_forall in Hnb, Hsrc.
  specialize (Hnb c Hc). destruct (Hsrc c Hc) as [h Hh].
  unfold nonblank in Hnb. simpl in Hnb.
  assert (Hs : strip (Chapter.text c) <> []).
  { intros E. by rewrite E in Hnb. }
  split; [|split; [done|split]].
  - intros E. by rewrite E in Hs.
  - rewrite Hh. apply html_to_text_head.
  - rewrite Hh. apply html_to_text_last.
Qed.

End parser_facts.

(** ** jobs: the store *)

Lemma fresh_not_stored (self : JobManager) (job_id : list N) (r : positive) :
  wf self -> _jobs self !! job_id = Some r -> r <> fresh (dom (objects self)).
Proof.
  intros [Hdom _] Hr ->. apply Hdom in Hr.
  apply elem_of_dom in Hr. by apply is_fresh in Hr.
Qed.

Lemma wf_new : wf new.
Proof. split; simpl; intros *; by rewrite lookup_empty. Qed.

Lemma wf_alloc (self : JobManager) (d : gmap string pyval) :
  wf self ->
  wf {| _jobs := _jobs self; objects := (alloc d (objects self)).2 |}.
Proof.
  intros [Hdom Hinj]. split; simpl; [|done].
  intros job_id r Hr. destruct (decide (fresh (dom (objects self)) = r)) as [->|Hne].
  - rewrite lookup_insert_eq. eauto.
  - rewrite lookup_insert_ne by done. eauto.
Qed.

Lemma stored_alloc (self : JobManager) (d : gmap string pyval) (job_id : list N) :
  wf self ->
  stored {| _jobs := _jobs self; objects := (alloc d (objects self)).2 |} job_id
  = stored self job_id.
Proof.
  intros Hwf. unfold stored. simpl.
  destruct (_jobs self !! job_id) as [r|] eqn:Hr; simpl; [|done].
  rewrite lookup_insert_ne; [done|].
  intros E. by apply (fresh_not_stored self job_id r).
Qed.

Lemma get_store (self : JobManager) (job_id : list N) :
  (get self job_id).2 = self
  \/ exists d, (get self job_id).2 =
       {| _jobs := _jobs self; objects := (alloc d (objects self)).2 |}.
Proof.
  unfold get. destruct (stored self job_id) as [job|]; [|by left].
  case_bool_decide; [by left|]. right. by exists job.
Qed.

Lemma wf_get (self : JobManager) (job_id : list N) :
  wf self -> wf (get self job_id).2.
Proof.
  intros Hwf. destruct (get_store self job_id) as [->|[d ->]]; [done|].
  by apply wf_alloc.
Qed.

Lemma stored_get (self : JobManager) (job_id id' : list N) :
  wf self -> stored (get self job_id).2 id' = stored self id'.
Proof.
  intros Hwf. destruct (get_store self job_id) as [->|[d ->]]; [done|].
  by apply stored_alloc.
Qed.

Lemma wf_set_field (self : JobManager) (job_id : list N) (key : string) (v : pyval) :
  wf self -> wf (set_field self job_id key v).
Proof.
  intros [Hdom Hinj]. unfold set_field.
  destruct (_jobs self !! job_id) as [r|] eqn:Hr; [|done].
  split; simpl; [|done].
  intros id' r' Hr'. unfold setitem.
  destruct (objects self !! r) as [d|] eqn:Hd; [|eauto].
  destruct (decide (r = r')) as [->|Hne].
  - rewrite lookup_insert_eq. eauto.
  - rewrite lookup_insert_ne by done. eauto.
Qed.

(** Writing a field changes the stored dict of that job and of no other. *)
Lemma stored_set_field (self : JobManager) (job_id id' : list N)
      (key : string) (v : pyval) :
  wf self ->
  stored (set_field self job_id key v) id' =
    if decide (job_id = id')
    then <[key := v]> <$> stored self id'
    else stored self id'.
Proof.
  intros [Hdom Hinj]. unfold set_field, stored.
  destruct (_jobs self !! job_id) as [r|] eqn:Hr.
  - simpl. unfold setitem.
    destruct (objects self !! r) as [d|] eqn:Hd;
      [|destruct (Hdom _ _ Hr) as [? ?]; congruence].
    case_decide as Hid.
    + subst id'. rewrite Hr. simpl. by rewrite lookup_insert_eq, Hd.
    + destruct (_jobs self !! id') as [r'|] eqn:Hr'; simpl; [|done].
      rewrite lookup_insert_ne; [done|].
      intros ->. apply Hid. by apply (Hinj _ _ _ Hr Hr').
  - case_decide as Hid; [|done]. subst id'. by rewrite Hr.
Qed.

Lemma status_set_field (self : JobManager) (job_id id' : list N)
      (key : string) (v : pyval) :
  wf self ->
  status (set_field self job_id key v) id' =
    if decide (job_id = id' /\ key = "status"%string)
    then (fun _ => v) <$> stored self id'
    else status self id'.
Proof.
  intros Hwf. unfold status. rewrite stored_set_field by done.
  case_decide as Hid.
  - subst id'. destruct (stored self job_id) as [d|]; simpl.
    + case_decide as Hk.
      * destruct Hk as [_ ->]. by rewrite lookup_insert_eq.
      * rewrite lookup_insert_ne; [done|]. intros ->. by apply Hk.
    + by case_decide.
  - rewrite decide_False; [done|]. by intros [? _].
Qed.

Lemma alloc_lookup_old (d : gmap string pyval)
      (h : gmap positive (gmap string pyval)) (r : positive) :
  is_Some (h !! r) -> (alloc d h).2 !! r = h !! r.
Proof.
  intros Hr. unfold alloc. simpl. rewrite lookup_insert_ne; [done|].
  intros <-. apply elem_of_dom in Hr. by apply is_fresh in Hr.
Qed.

Lemma alloc_lookup_new (d : gmap string pyval)
      (h : gmap positive (gmap string pyval)) :
  (alloc d h).2 !! (alloc d h).1 = Some d.
Proof. unfold alloc. simpl. apply lookup_insert_eq. Qed.

Lemma alloc_fresh (d : gmap string pyval)
      (h : gmap positive (gmap string pyval)) :
  h !! (alloc d h).1 = None.
Proof.
  unfold alloc. simpl. apply not_elem_of_dom. apply is_fresh.
Qed.

Lemma create_store (self : JobManager) (job_id epub_path title author language : list N)
      (total : Z) (cover : option (list N)) :
  let job := new_job job_id epub_path title author language total cover in
  let h1 := (alloc job (objects self)).2 in
  (create self job_id epub_path title author language total cover).2 =
    {| _jobs := <[job_id := (alloc job (objects self)).1]> (_jobs self);
       objects := (alloc job h1).2 |}.
Proof. done. Qed.

Lemma stored_create (self : JobManager) (job_id epub_path title author language : list N)
      (total : Z) (cover : option (list N)) (id' : list N) :
  wf self -> job_id <> id' ->
  stored (create self job_id epub_path title author language total cover).2 id'
  = stored self id'.
Proof.
  intros [Hdom Hinj] Hne. rewrite create_store. unfold stored. cbn [_jobs objects].
  rewrite lookup_insert_ne by done.
  destruct (_jobs self !! id') as [r|] eqn:Hr; cbn [mbind option_bind]; [|done].
  pose proof (Hdom _ _ Hr) as Hsome.
  rewrite alloc_lookup_old; [by apply alloc_lookup_old|].
  by rewrite alloc_lookup_old.
Qed.

Lemma stored_create_same (self : JobManager) (job_id epub_path title author language : list N)
      (total : Z) (cover : option (list N)) :
  stored (create self job_id epub_path title author language total cover).2 job_id
  = Some (new_job job_id epub_path title author language total cover).
Proof.
  rewrite create_store. unfold stored. cbn [_jobs objects].
  rewrite lookup_insert_eq. cbn [mbind option_bind].
  rewrite alloc_lookup_old; [apply alloc_lookup_new|].
  rewrite alloc_lookup_new. eauto.
Qed.

Lemma wf_create (self : JobManager) (job_id epub_path title author language : list N)
      (total : Z) (cover : option (list N)) :
  wf self ->
  wf (create self job_id epub_path title author language total cover).2.
Proof.
  intros [Hdom Hinj]. rewrite create_store. cbn zeta.
  set (job := new_job _ _ _ _ _ _ _).
  assert (Hold : forall id r, _jobs self !! id = Some r ->
                              r <> (alloc job (objects self)).1).
  { intros id r Hr E. apply Hdom in Hr as [x Hx].
    rewrite E, alloc_fresh in Hx. done. }
  split; cbn [_jobs objects].
  - intros id r. destruct (decide (job_id = id)) as [->|Hne].
    + rewrite lookup_insert_eq. intros [= <-].
      change (fresh (dom (objects self))) with (alloc job (objects self)).1.
      rewrite alloc_lookup_old by (rewrite alloc_lookup_new; eauto).
      rewrite alloc_lookup_new. eauto.
    + rewrite lookup_insert_ne by done. intros Hr.
      pose proof (Hdom _ _ Hr) as Hsome.
      rewrite alloc_lookup_old by (by rewrite alloc_lookup_old).
      by rewrite alloc_lookup_old.
  - intros id1 id2 r.
    destruct (decide (job_id = id1)) as [<-|Hne1];
      destruct (decide (job_id = id2)) as [<-|Hne2];
      rewrite ?lookup_insert_eq, ?lookup_insert_ne by done; try done.
    + intros [= <-] Hr. by destruct (Hold _ _ Hr).
    + intros Hr [= <-]. by destruct (Hold _ _ Hr).
    + apply Hinj.
Qed.

(** C10. For a job id that is not in the store, [get] returns [None] and
    [update_status], [update_progress], [set_output] and [set_error] leave
    the store as it is (none of them can raise).  For a job that is stored,
    [get] returns a new dict object with the same content: it is not the
    stored object, and writing any key through the returned reference
    leaves the stored job unchanged. *)
Theorem jobmanager_missing_id_and_snapshot :
  (forall (self : JobManager) (job_id : list N),
      _jobs self !! job_id = None ->
      get self job_id = (None, self)
      /\ (forall status, update_status self job_id status = self)
      /\ (forall current total title,
            update_progress self job_id current total title = self)
      /\ (forall path, set_output self job_id path = self)
      /\ (forall error, set_error self job_id error = self))
  /\ (forall (self : JobManager) (job_id : list N) (job : gmap string pyval),
        stored self job_id = Some job -> job <> ∅ ->
        exists copy self',
          get self job_id = (Some copy, self')
          /\ objects self' !! copy = Some job
          /\ _jobs self' = _jobs self
          /\ _jobs self' !! job_id <> Some copy
          /\ stored self' job_id = Some job
          /\ (forall key v,
                stored {| _jobs := _jobs self';
                          objects := setitem copy key v (objects self') |} job_id
                = Some job)).
Proof.
  split.
  - intros self job_id Hnone.
    assert (Hset : forall key v, set_field self job_id key v = self)
      by (intros key v; unfold set_field; by rewrite Hnone).
    repeat split; intros;
      unfold get, stored, update_status, update_progress, set_output, set_error;
      rewrite ?Hnone, ?Hset; done.
  - intros self job_id job Hst Hne.
    unfold get. rewrite Hst. rewrite bool_decide_eq_false_2 by done.
    unfold stored in Hst.
    destruct (_jobs self !! job_id) as [r|] eqn:Hr; [|done].
    cbn [mbind option_bind] in Hst.
    assert (Hfresh : r <> (alloc job (objects self)).1).
    { intros E. rewrite E, alloc_fresh in Hst. done. }
    eexists _, _. split; [reflexivity|].
    cbn [_jobs objects]. change (fresh (dom (objects self))) with (alloc job (objects self)).1.
    change (<[(alloc job (objects self)).1 := job]> (objects self))
      with (alloc job (objects self)).2.
    split; [apply alloc_lookup_new|]. split; [done|].
    split; [rewrite Hr; congruence|].
    assert (Hold : (alloc job (objects self)).2 !! r = Some job).
    { rewrite alloc_lookup_old; [done|]. rewrite Hst. eauto. }
    split.
    + unfold stored. cbn [_jobs objects]. rewrite Hr. done.
    + intros key v. unfold stored. cbn [_jobs objects]. rewrite Hr.
      cbn [mbind option_bind]. unfold setitem. rewrite alloc_lookup_new.
      rewrite lookup_insert_ne by done. done.
Qed.

(** ** jobs: the order of the states *)

Lemma forward_from_done (st : pyval) : forward DONE st -> st = DONE.
Proof.
  intros H. apply rtc_inv in H as [->|(y & H1 & _)]; [done|].
  inversion H1.
Qed.

Lemma forward_from_error (st : pyval) : forward ERROR st -> st = ERROR.
Proof.
  intros H. apply rtc_inv in H as [->|(y & H1 & _)]; [done|].
  inversion H1.
Qed.

Lemma status_forward_refl (self : JobManager) : status_forward self self.
Proof. intros job_id st H. exists st. split; [done|apply rtc_refl]. Qed.

Lemma status_forward_trans (a b c : JobManager) :
  status_forward a b -> status_forward b c -> status_forward a c.
Proof.
  intros Hab Hbc job_id st H.
  destruct (Hab _ _ H) as (st1 & H1 & F1).
  destruct (Hbc _ _ H1) as (st2 & H2 & F2).
  exists st2. split; [done|]. by eapply rtc_trans.
Qed.

(** Same stored statuses, hence nothing moved. *)
Lemma status_forward_same (a b : JobManager) :
  (forall job_id, status b job_id = status a job_id) -> status_forward a b.
Proof.
  intros E job_id st H. exists st. rewrite E. split; [done|apply rtc_refl].
Qed.

Lemma status_other_field (self : JobManager) (job_id id' : list N)
      (key : string) (v : pyval) :
  wf self -> key <> "status"%string ->
  status (set_field self job_id key v) id' = status self id'.
Proof.
  intros Hwf Hk. rewrite status_set_field by done.
  rewrite decide_False; [done|]. by intros [_ ?].
Qed.

Lemma status_update_status (self : JobManager) (job_id id' status' : list N) :
  wf self ->
  status (update_status self job_id status') id' =
    if decide (job_id = id')
    then (fun _ => VStr status') <$> stored self id'
    else status self id'.
Proof.
  intros Hwf. unfold update_status. rewrite status_set_field by done.
  destruct (decide (job_id = id')) as [->|Hne].
  - by rewrite decide_True.
  - rewrite decide_False; [done|]. by intros [? _].
Qed.

(** Setting the status of one job to a state that lies ahead of its
    present one moves no status backward. *)
Lemma update_status_forward (self : JobManager) (job_id new_status : list N)
      (st : pyval) :
  wf self -> status self job_id = Some st -> forward st (VStr new_status) ->
  status_forward self (update_status self job_id new_status).
Proof.
  intros Hwf Hst Hfw id' st' H'.
  rewrite status_update_status by done.
  case_decide as Hid.
  - subst id'. rewrite Hst in H'. injection H' as <-.
    unfold status in Hst. destruct (stored self job_id); [|done].
    eexists. split; [reflexivity|done].
  - exists st'. split; [done|apply rtc_refl].
Qed.

(** ** app: the invariant of the endpoints *)

Lemma jobs_set_field (self : JobManager) (job_id : list N) (key : string) (v : pyval) :
  _jobs (set_field self job_id key v) = _jobs self.
Proof. unfold set_field. by destruct (_jobs self !! job_id). Qed.

Lemma jobs_get (self : JobManager) (job_id : list N) :
  _jobs (get self job_id).2 = _jobs self.
Proof. by destruct (get_store self job_id) as [->|[d ->]]. Qed.

Lemma jobs_create (self : JobManager) (job_id epub_path title author language : list N)
      (total : Z) (cover : option (list N)) :
  exists r, _jobs (create self job_id epub_path title author language total cover).2
            = <[job_id := r]> (_jobs self).
Proof. eexists. reflexivity. Qed.

Lemma status_get (self : JobManager) (job_id id' : list N) :
  wf self -> status (get self job_id).2 id' = status self id'.
Proof. intros Hwf. unfold status. by rewrite stored_get. Qed.

Lemma status_is_stored (self : JobManager) (job_id : list N) (st : pyval) :
  status self job_id = Some st -> is_Some (_jobs self !! job_id).
Proof.
  unfold status, stored. destruct (_jobs self !! job_id); [eauto|done].
Qed.

Lemma wf_update_progress (self : JobManager) (job_id : list N)
      (current total : Z) (title : list N) :
  wf self -> wf (update_progress self job_id current total title).
Proof. intros. unfold update_progress. by do 3 apply wf_set_field. Qed.

Lemma status_update_progress (self : JobManager) (job_id id' : list N)
      (current total : Z) (title : list N) :
  wf self ->
  status (update_progress self job_id current total title) id' = status self id'.
Proof.
  intros Hwf. unfold update_progress.
  rewrite !status_other_field; try done; by repeat apply wf_set_field.
Qed.

Lemma jobs_update_progress (self : JobManager) (job_id : list N)
      (current total : Z) (title : list N) :
  _jobs (update_progress self job_id current total title) = _jobs self.
Proof. unfold update_progress. by rewrite !jobs_set_field. Qed.

Lemma workers_other (ws1 ws2 : list (list N * worker_pc))
      (job_id id' : list N) (pc pc' : worker_pc) :
  NoDup (ws1 ++ (job_id, pc) :: ws2).*1 -> (id', pc') ∈ ws1 ++ ws2 -> id' <> job_id.
Proof.
  rewrite fmap_app, fmap_cons. cbn [fst].
  intros Hnd Hin ->.
  apply NoDup_app in Hnd as (_ & Hdisj & Hnd2).
  apply NoDup_cons in Hnd2 as [Hnotin _].
  apply elem_of_app in Hin as [Hin|Hin].
  - apply (Hdisj job_id); [|by left].
    apply list_elem_of_fmap. by exists (job_id, pc').
  - apply Hnotin. apply list_elem_of_fmap. by exists (job_id, pc').
Qed.

Lemma workers_remove (ws1 ws2 : list (list N * worker_pc))
      (job_id : list N) (pc : worker_pc) :
  NoDup (ws1 ++ (job_id, pc) :: ws2).*1 -> NoDup (ws1 ++ ws2).*1.
Proof.
  rewrite !fmap_app, fmap_cons. intros Hnd.
  apply NoDup_app in Hnd as (Hnd1 & Hdisj & Hnd2).
  apply NoDup_cons in Hnd2 as [_ Hnd2].
  apply NoDup_app. split; [done|]. split; [|done].
  intros x Hx Hx2. apply (Hdisj x Hx). by right.
Qed.

Lemma workers_in_replace (ws1 ws2 : list (list N * worker_pc))
      (job_id id' : list N) (pc pc0 pc' : worker_pc) :
  (id', pc') ∈ ws1 ++ (job_id, pc) :: ws2 ->
  id' = job_id \/ (id', pc') ∈ ws1 ++ (job_id, pc0) :: ws2.
Proof.
  rewrite !elem_of_app, !elem_of_cons. intros [?|[[= -> ->]|?]]; eauto.
Qed.

(** Every step keeps the invariant and moves no status backward. *)
Lemma step_invariant (a a' : App) :
  invariant a -> step a a' ->
  invariant a' /\ status_forward (store a) (store a').
Proof.
  intros (Hwf & Hdirs & Hwork & Hnd) Hstep.
  destruct Hstep as
    [a job_id epub_path title author language total cover Hfresh
    |a job_id Hfresh
    |a job_id Hst
    |a job_id
    |a ws1 ws2 job_id current total title Hws
    |a ws1 ws2 job_id output_path Hws
    |a ws1 ws2 job_id Hws
    |a ws1 ws2 job_id error Hws
    |a ws1 ws2 job_id Hws]; unfold invariant; cbn [store job_dirs workers] in *.
  - (* upload *)
    assert (Hother : forall id' st, status (store a) id' = Some st -> job_id <> id').
    { intros id' st H' ->. apply status_is_stored, Hdirs in H'. done. }
    assert (Hsame : forall id' st, status (store a) id' = Some st ->
              status (create (store a) job_id epub_path title author language
                        total cover).2 id' = Some st).
    { intros id' st H'. unfold status. rewrite stored_create; eauto. }
    split; [split; [|split; [|split]]|].
    + by apply wf_create.
    + intros id'.
      destruct (jobs_create (store a) job_id epub_path title author language
                  total cover) as [r ->].
      destruct (decide (job_id = id')) as [->|Hne]; [set_solver|].
      rewrite lookup_insert_ne by done. intros H'. apply Hdirs in H'. set_solver.
    + intros id' pc Hin. apply Hsame. eauto.
    + done.
    + intros id' st H'. exists st. split; [eauto|apply rtc_refl].
  - (* upload rejected *)
    split; [split; [|split; [|split]]|]; try done.
    + intros id' H'. apply Hdirs in H'. set_solver.
    + apply status_forward_refl.
  - (* start_convert *)
    assert (Hwf' : wf (get (store a) job_id).2) by by apply wf_get.
    assert (Hnew : status (update_status (get (store a) job_id).2 job_id
                             (lit "converting")) job_id = Some CONVERTING).
    { rewrite status_update_status by done. rewrite decide_True by done.
      rewrite stored_get by done. unfold status in Hst.
      by destruct (stored (store a) job_id). }
    assert (Hnotin : forall pc, (job_id, pc) ∉ workers a).
    { intros pc Hin. apply Hwork in Hin. rewrite Hin in Hst. done. }
    split; [split; [|split; [|split]]|].
    + by apply wf_set_field.
    + intros id'. unfold update_status. rewrite jobs_set_field, jobs_get.
      apply Hdirs.
    + intros id' pc Hin. apply elem_of_app in Hin as [Hin|Hin].
      * rewrite status_update_status by done.
        rewrite decide_False; [rewrite status_get by done; eauto|].
        intros ->. by apply (Hnotin pc).
      * apply list_elem_of_singleton in Hin as [= -> ->]. done.
    + rewrite fmap_app. apply NoDup_app. split; [done|].
      split; [|apply NoDup_singleton].
      intros x Hx Hx'. apply list_elem_of_singleton in Hx'. subst x.
      apply list_elem_of_fmap in Hx as ([id' pc] & E & Hin). simpl in E. subst id'.
      by apply (Hnotin pc).
    + eapply status_forward_trans.
      * apply status_forward_same. intros. by apply status_get.
      * eapply update_status_forward; [done| |].
        -- rewrite status_get by done. apply Hst.
        -- apply rtc_once. constructor.
  - (* a read *)
    split; [split; [|split; [|split]]|]; try done.
    + by apply wf_get.
    + intros id'. rewrite jobs_get. apply Hdirs.
    + intros id' pc Hin. rewrite status_get by done. eauto.
    + apply status_forward_same. intros. by apply status_get.
  - (* progress *)
    split; [split; [|split; [|split]]|]; try done.
    + by apply wf_update_progress.
    + intros id'. rewrite jobs_update_progress. apply Hdirs.
    + intros id' pc Hin. rewrite status_update_progress by done. eauto.
    + apply status_forward_same. intros. by apply status_update_progress.
  - (* set_output *)
    rewrite Hws in Hwork, Hnd.
    split; [split; [|split; [|split]]|].
    + by apply wf_set_field.
    + intros id'. unfold set_output. rewrite jobs_set_field. apply Hdirs.
    + intros id' pc Hin. unfold set_output.
      rewrite status_other_field by done.
      apply (workers_in_replace _ _ _ _ _ Converting) in Hin as [->|Hin];
        [apply (Hwork job_id Converting)|eauto].
      rewrite elem_of_app, elem_of_cons. eauto.
    + by rewrite fmap_app, fmap_cons in *.
    + apply status_forward_same. intros. unfold set_output.
      by apply status_other_field.
  - (* done *)
    rewrite Hws in Hwork, Hnd.
    assert (Hst : status (store a) job_id = Some CONVERTING).
    { apply (Hwork job_id OutputSet). rewrite elem_of_app, elem_of_cons. eauto. }
    split; [split; [|split; [|split]]|].
    + by apply wf_set_field.
    + intros id'. unfold update_status. rewrite jobs_set_field. apply Hdirs.
    + intros id' pc Hin. rewrite status_update_status by done.
      rewrite decide_False.
      * apply (Hwork id' pc). apply elem_of_app in Hin as [?|?];
          rewrite elem_of_app, elem_of_cons; eauto.
      * intros E. by apply (workers_other _ _ _ _ _ _ Hnd Hin).
    + by eapply workers_remove.
    + eapply update_status_forward; [done|apply Hst|].
      apply rtc_once. constructor.
  - (* set_error *)
    rewrite Hws in Hwork, Hnd.
    split; [split; [|split; [|split]]|].
    + by apply wf_set_field.
    + intros id'. unfold set_error. rewrite jobs_set_field. apply Hdirs.
    + intros id' pc Hin. unfold set_error.
      rewrite status_other_field by done.
      apply (workers_in_replace _ _ _ _ _ Converting) in Hin as [->|Hin];
        [apply (Hwork job_id Converting)|eauto].
      rewrite elem_of_app, elem_of_cons. eauto.
    + by rewrite fmap_app, fmap_cons in *.
    + apply status_forward_same. intros. unfold set_error.
      by apply status_other_field.
  - (* error *)
    rewrite Hws in Hwork, Hnd.
    assert (Hst : status (store a) job_id = Some CONVERTING).
    { apply (Hwork job_id ErrorSet). rewrite elem_of_app, elem_of_cons. eauto. }
    split; [split; [|split; [|split]]|].
    + by apply wf_set_field.
    + intros id'. unfold update_status. rewrite jobs_set_field. apply Hdirs.
    + intros id' pc Hin. rewrite status_update_status by done.
      rewrite decide_False.
      * apply (Hwork id' pc). apply elem_of_app in Hin as [?|?];
          rewrite elem_of_app, elem_of_cons; eauto.
      * intros E. by apply (workers_other _ _ _ _ _ _ Hnd Hin).
    + by eapply workers_remove.
    + eapply update_status_forward; [done|apply Hst|].
      apply rtc_once. constructor.
Qed.

Lemma invariant_init : invariant init.
Proof.
  split; [apply wf_new|]. split; [|split].
  - simpl. intros job_id [x Hx]. by rewrite lookup_empty in Hx.
  - simpl. intros job_id pc Hin. by apply elem_of_nil in Hin.
  - constructor.
Qed.

Lemma steps_invariant (a a' : App) :
  invariant a -> rtc step a a' ->
  invariant a' /\ status_forward (store a) (store a').
Proof.
  intros Hinv Hsteps. induction Hsteps as [a|a b c Hab Hbc IH].
  - split; [done|apply status_forward_refl].
  - destruct (step_invariant a b Hinv Hab) as [Hinvb Hfw].
    destruct (IH Hinvb) as [Hinvc Hfw'].
    split; [done|]. by eapply status_forward_trans.
Qed.

Lemma reachable_invariant (a : App) : reachable a -> invariant a.
Proof. intros H. by apply (steps_invariant init a invariant_init). Qed.

(** C9, as stated, fails on [JobManager.update_status]: it overwrites the
    status without looking at the present one, so a job that is "done" can
    be set back to "uploaded". *)
Lemma update_status_moves_backward :
  status finished_store (lit "j1") = Some DONE
  /\ status (update_status finished_store (lit "j1") (lit "uploaded")) (lit "j1")
     = Some UPLOADED
  /\ ~ forward DONE UPLOADED
  /\ ~ status_forward finished_store
         (update_status finished_store (lit "j1") (lit "uploaded")).
Proof.
  assert (H1 : status finished_store (lit "j1") = Some DONE)
    by (vm_compute; reflexivity).
  assert (H2 : status (update_status finished_store (lit "j1") (lit "uploaded"))
                 (lit "j1") = Some UPLOADED) by (vm_compute; reflexivity).
  assert (H3 : ~ forward DONE UPLOADED)
    by (intros F; apply forward_from_done in F; discriminate F).
  repeat split; try done.
  intros Hfw. destruct (Hfw _ _ H1) as (st' & Hst' & F).
  rewrite H2 in Hst'. injection Hst' as <-. by apply H3.
Qed.

(** C9, amended.  Under the operations of the web layer (upload,
    start_convert with its check for "uploaded", the reads, and the worker
    thread with its progress, set_output/done and set_error/error calls)
    the status of every job only moves forward along
    uploaded -> converting -> done | error, and a job that is "done" or
    "error" keeps that status. *)
Theorem status_moves_forward (a a' : App) :
  reachable a -> rtc step a a' ->
  forall job_id st, status (store a) job_id = Some st ->
    exists st', status (store a') job_id = Some st'
                /\ forward st st'
                /\ (st = DONE \/ st = ERROR -> st' = st).
Proof.
  intros Hreach Hsteps job_id st Hst.
  apply reachable_invariant in Hreach.
  destruct (steps_invariant a a' Hreach Hsteps) as [_ Hfw].
  destruct (Hfw _ _ Hst) as (st' & Hst' & F).
  exists st'. split; [done|]. split; [done|].
  intros [->| ->]; [by apply forward_from_done|by apply forward_from_error].
Qed.

Lemma uploaded_app_reachable : reachable uploaded_app.
Proof.
  apply rtc_once. unfold uploaded_app. apply step_upload. apply not_elem_of_empty.
Qed.

Lemma uploaded_app_starts : rtc step uploaded_app started_app.
Proof.
  apply rtc_once. unfold started_app. apply step_start_convert.
  vm_compute. reflexivity.
Qed.

Lemma status_moves_forward_witness :
  exists st', status (store started_app) (lit "j1") = Some st'
              /\ forward UPLOADED st'
              /\ (UPLOADED = DONE \/ UPLOADED = ERROR -> st' = UPLOADED).
Proof.
  apply (status_moves_forward uploaded_app started_app
           uploaded_app_reachable uploaded_app_starts (lit "j1") UPLOADED).
  vm_compute. reflexivity.
Defined.

Lemma jobmanager_missing_id_and_snapshot_witness :
  get new (lit "nope") = (None, new)
  /\ exists copy self',
      get (store uploaded_app) (lit "j1") = (Some copy, self')
      /\ _jobs self' !! lit "j1" <> Some copy.
Proof.
  destruct jobmanager_missing_id_and_snapshot as [Hmissing Hsnap].
  split.
  - apply (Hmissing new (lit "nope")). reflexivity.
  - destruct (Hsnap (store uploaded_app) (lit "j1")
                (new_job (lit "j1") (lit "data/j1/book.epub") (lit "Book")
                   (lit "Author") (lit "it") 2 None))
      as (copy & self' & Hget & _ & _ & Hne & _).
    + apply stored_create_same.
    + intros E. apply (f_equal (fun m => m !! "job_id"%string)) in E.
      unfold new_job in E. rewrite lookup_insert_eq, lookup_empty in E.
      discriminate E.
    + exists copy, self'. by split.
Defined.

(** ** converter: running computations *)

Lemma run_bind {A B} (m : M A) (f : A -> M B) (fs : gmap (list N) node) :
  (m ≫= f) fs =
    match m fs with
    | (Ok a, fs1, t1) =>
        match f a fs1 with
        | (r, fs2, t2) => (r, fs2, t1 ++ t2)
        end
    | (Raise e, fs1, t1) => (Raise e, fs1, t1)
    end.
Proof. done. Qed.

Lemma run_emit_bind {B} (e : event) (k : M B) (fs : gmap (list N) node) :
  (emit e ;; k) fs = match k fs with (r, fs2, t2) => (r, fs2, e :: t2) end.
Proof. done. Qed.

Lemma run_ret_bind {A B} (a : A) (f : A -> M B) (fs : gmap (list N) node) :
  (ret a ≫= f) fs = f a fs.
Proof.
  rewrite run_bind. unfold ret. by destruct (f a fs) as [[r fs2] t2].
Qed.

(** C8. [_enrich_metadata] never raises and leaves the file system alone.
    Its result has the title, author and language of its argument, and is
    either the argument itself or the argument with a cover where it had
    none.  Metadata that has a cover is returned as it is, with no lookup
    made; a lookup is made only when there is no cover.  When
    [enrich_metadata] raises, or finds no cover and [fetch_cover_image]
    raises or finds none, the argument is returned unchanged. *)
Theorem enrich_metadata_best_effort (w : World) (metadata : BookMetadata.t)
        (fs : gmap (list N) node) :
  let title := BookMetadata.title metadata in
  let author := BookMetadata.author metadata in
  exists metadata' trace,
    _enrich_metadata w metadata fs = (Ok metadata', fs, trace)
    /\ BookMetadata.title metadata' = title
    /\ BookMetadata.author metadata' = author
    /\ BookMetadata.language metadata' = BookMetadata.language metadata
    /\ (metadata' = metadata
        \/ has_cover (BookMetadata.cover_image metadata) = false
           /\ has_cover (BookMetadata.cover_image metadata') = true)
    /\ (has_cover (BookMetadata.cover_image metadata) = true ->
        metadata' = metadata /\ trace = [])
    /\ (trace <> [] -> has_cover (BookMetadata.cover_image metadata) = false)
    /\ (trace = [] \/ trace = [EvEnrichMetadata title author]
        \/ trace = [EvEnrichMetadata title author; EvFetchCoverImage title author])
    /\ (forall e, enrich_metadata w title author = Raise e ->
        metadata' = metadata)
    /\ (forall cover, enrich_metadata w title author = Ok cover ->
        has_cover cover = false ->
        (forall e, fetch_cover_image w title author = Raise e ->
                   metadata' = metadata)
        /\ (forall cover', fetch_cover_image w title author = Ok cover' ->
                           has_cover cover' = false -> metadata' = metadata)).
Proof.
  intros title author. unfold _enrich_metadata. fold title author.
  destruct (has_cover (BookMetadata.cover_image metadata)) eqn:Hc.
  { exists metadata, []. unfold ret.
    repeat split; try done; try (by left); try (by intros; left). }
  rewrite run_bind. unfold try_except at 1. rewrite run_emit_bind, run_bind.
  unfold lift at 1.
  destruct (enrich_metadata w title author) as [cover|e] eqn:He.
  2:{ exists metadata, [EvEnrichMetadata title author]. unfold ret. cbn.
      repeat split; try done; try (by left); try (by right; left);
        try (by intros; left). }
  unfold ret at 1. cbn [app].
  destruct (has_cover cover) eqn:Hcover.
  { eexists _, _. unfold ret. cbn. split; [reflexivity|].
    repeat split; try done; try (by right); try (by right; left).
    all: intros; congruence. }
  unfold try_except. rewrite run_emit_bind, run_bind. unfold lift.
  destruct (fetch_cover_image w title author) as [cover'|e'] eqn:Hf.
  2:{ exists metadata, [EvEnrichMetadata title author; EvFetchCoverImage title author].
      unfold ret. cbn.
      repeat split; try done; try (by left); try (by right; right);
        try (by intros; left). }
  destruct (has_cover cover') eqn:Hcover'.
  - eexists _, _. unfold ret. cbn. split; [reflexivity|].
    repeat split; try done; try (by right); try (by right; right).
    all: intros; congruence.
  - exists metadata, [EvEnrichMetadata title author; EvFetchCoverImage title author].
    unfold ret. cbn.
    repeat split; try done; try (by left); try (by right; right);
      try (by intros; left).
Qed.

(** ** converter: the loop over the chapters *)

Section chapter_loop.

Variable w : World.
Variable self : Converter.
Variable on_progress : option (Z -> Z -> list N -> result unit).
Variable work_path : list N.
Variable total : Z.

Let body := chapter_body w self on_progress work_path total.
Let path := chapter_audio_path self work_path.
Let synth (c : Chapter.t) := EvSynthesize (Chapter.text c) (path c) (config self).

(** The calls an iteration makes when it goes through: [synthesize]
    unless the file is cached, then the prober. *)
Let calls (fs : gmap (list N) node) (c : Chapter.t) : list event :=
  (if cached fs (path c) then [] else [synth c]) ++ [EvProbe (path c)].

(** One iteration.  The file system is left as it is when the file is
    cached and as [synthesize] leaves it otherwise; the calls made are
    an initial part of [calls]; and when the iteration goes through, all
    of [calls] have been made, [synthesize] (if called) has returned, and
    the record appended carries what the prober said of the file in the
    state reached. *)
Lemma chapter_body_run (chapter_audios : list ChapterAudio.t)
      (c : Chapter.t) (fs : gmap (list N) node) :
  exists r fs' t,
    body chapter_audios c fs = (r, fs', t)
    /\ (if cached fs (path c) then fs' = fs
        else fs' = (synthesize (engine self) (Chapter.text c) (path c)
                      (config self) fs).1)
    /\ List.filter is_call t `prefix_of` calls fs c
    /\ (forall audios', r = Ok audios' ->
        List.filter is_call t = calls fs c
        /\ (cached fs (path c) = false ->
            (synthesize (engine self) (Chapter.text c) (path c)
               (config self) fs).2 = Ok tt)
        /\ exists d,
            probe_duration_ms w (path c) fs' = Ok d
            /\ audios' = chapter_audios ++ [ChapterAudio.mk c (path c) d]).
Proof.
  unfold body, chapter_body, calls. fold (path c). fold (synth c).
  cbv [mbind M_bind bind get_fs emit writing reading lift ret].
  destruct (cached fs (path c)) eqn:Hc.
  - destruct (probe_duration_ms w (path c) fs) as [d|e] eqn:Hp;
      [destruct on_progress as [callback|];
       [destruct (callback _ _ _) as [[]|e]|]|];
      eexists _, _, _; (split; [reflexivity|]); cbn;
      (split; [done|]); (split; [done|]);
      first [done | intros audios' [= <-]; repeat split; eauto; done].
  - destruct (synthesize _ _ _ _ fs) as [fs1 [[]|e]] eqn:Hs; cbn [fst snd].
    2:{ eexists _, _, _. split; [reflexivity|]. cbn.
        split; [done|]. split; [|done]. by exists [EvProbe (path c)]. }
    destruct (probe_duration_ms w (path c) fs1) as [d|e] eqn:Hp;
      [destruct on_progress as [callback|];
       [destruct (callback _ _ _) as [[]|e]|]|];
      eexists _, _, _; (split; [reflexivity|]); cbn;
      (split; [done|]); (split; [done|]);
      first [done | intros audios' [= <-]; repeat split; eauto; done].
Qed.

(** The whole loop.  [states] are the file systems in which the
    iterations start (and the one the last to go through leaves),
    [segs] the events of the iterations that went through, [recs] the
    records they appended, [t_fail] the events of the iteration that
    raised, if one did. *)
Lemma for_chapters_run (chapters : list Chapter.t)
      (chapter_audios : list ChapterAudio.t) (fs0 : gmap (list N) node) :
  exists r fs' states segs recs t_fail,
    for_chapters body chapters chapter_audios fs0
      = (r, fs', concat segs ++ t_fail)
    /\ length segs = length recs
    /\ length states = S (length recs)
    /\ (length recs <= length chapters)%nat
    /\ states !! O = Some fs0
    /\ (forall k c, chapters !! k = Some c -> (k < length recs)%nat ->
        exists fs_k fs_k' d seg,
          states !! k = Some fs_k /\ states !! S k = Some fs_k'
          /\ segs !! k = Some seg
          /\ List.filter is_call seg = calls fs_k c
          /\ (if cached fs_k (path c) then fs_k' = fs_k
              else synthesize (engine self) (Chapter.text c) (path c)
                     (config self) fs_k = (fs_k', Ok tt))
          /\ probe_duration_ms w (path c) fs_k' = Ok d
          /\ recs !! k = Some (ChapterAudio.mk c (path c) d))
    /\ (forall audios, r = Ok audios ->
        audios = chapter_audios ++ recs
        /\ length recs = length chapters /\ t_fail = []
        /\ states !! length recs = Some fs')
    /\ (forall e, r = Raise e ->
        exists c fs_n,
          chapters !! length recs = Some c
          /\ states !! length recs = Some fs_n
          /\ List.filter is_call t_fail `prefix_of` calls fs_n c
          /\ (if cached fs_n (path c) then fs' = fs_n
              else fs' = (synthesize (engine self) (Chapter.text c) (path c)
                            (config self) fs_n).1)).
Proof.
  revert chapter_audios fs0.
  induction chapters as [|c rest IH]; intros chapter_audios fs0.
  - exists (Ok chapter_audios), fs0, [fs0], [], [], []. cbn.
    split; [done|]. do 4 (split; [done|]).
    split; [intros k c; by rewrite lookup_nil|].
    split; [|done]. intros audios [= <-]. by rewrite app_nil_r.
  - cbn [for_chapters]. rewrite run_bind.
    destruct (chapter_body_run chapter_audios c fs0)
      as (r1 & fs1 & t1 & Hrun & Hfs & Hpre & Hok).
    fold body. rewrite Hrun. destruct r1 as [audios1|e].
    + destruct (Hok _ eq_refl) as (Hcalls & Hsyn & d & Hprobe & ->).
      destruct (IH (chapter_audios ++ [ChapterAudio.mk c (path c) d]) fs1)
        as (r & fs' & states & segs & recs & t_fail & -> & Hls & Hlst & Hle
            & H0 & Hk & HOk & HRaise).
      exists r, fs', (fs0 :: states), (t1 :: segs),
        (ChapterAudio.mk c (path c) d :: recs), t_fail.
      split; [cbn [concat]; by rewrite <- app_assoc|]. cbn [length].
      split; [by rewrite Hls|]. split; [by rewrite Hlst|]. split; [lia|].
      split; [done|]. split; [|split].
      * intros [|k] c' Hc' Hlt; cbn [lookup list_lookup] in *.
        -- injection Hc' as <-. exists fs0, fs1, d, t1.
           repeat split; try done.
           destruct (cached fs0 (path c)); [done|].
           specialize (Hsyn eq_refl). subst fs1.
           by destruct (synthesize _ _ _ _ fs0) as [? ?]; simplify_eq/=.
        -- apply Hk; [done|lia].
      * intros audios Hr. destruct (HOk _ Hr) as (-> & Hlen & -> & Hlast).
        rewrite <- app_assoc. repeat split; try done. by rewrite Hlen.
      * intros e Hr. destruct (HRaise _ Hr) as (c' & fs_n & Hc' & Hn & Hp' & Hfs').
        by exists c', fs_n.
    + exists (Raise e), fs1, [fs0], [], [], t1. cbn.
      split; [done|]. do 2 (split; [done|]). split; [lia|]. split; [done|].
      split; [intros k c' _ Hlt; lia|]. split; [done|].
      intros e' _. exists c, fs0. repeat split; try done.
Qed.

End chapter_loop.

(** ** converter: the run of [convert], step by step *)

Lemma parse_epub_run (w : World) (epub_path : list N) (fs : gmap (list N) node) :
  exists r, parse_epub w epub_path fs = (r, fs, [EvParse epub_path]).
Proof.
  unfold parse_epub. cbv [mbind M_bind bind emit reading lift].
  destruct (read_epub w epub_path fs) as [book|e]; [|by eexists].
  destruct (parse _ _ _ _ _); by eexists.
Qed.

Lemma enrich_metadata_run (w : World) (metadata : BookMetadata.t)
      (fs : gmap (list N) node) :
  exists metadata' t,
    _enrich_metadata w metadata fs = (Ok metadata', fs, t)
    /\ List.filter is_rmtree t = [] /\ List.filter is_mkdtemp t = []
    /\ List.filter is_call t = [].
Proof.
  unfold _enrich_metadata.
  cbv [mbind M_bind bind emit lift ret try_except].
  destruct (has_cover (BookMetadata.cover_image metadata)); [by eexists _, _|].
  destruct (enrich_metadata w _ _) as [cover|e]; [|by eexists _, _].
  destruct (has_cover cover); [by eexists _, _|].
  destruct (fetch_cover_image w _ _) as [cover'|e]; [|by eexists _, _].
  destruct (has_cover cover'); by eexists _, _.
Qed.

(** The working directory: the one given, as [pathlib] names it, or a
    temporary one when none is given (or an empty name). *)
Lemma choose_work_path_run (w : World) (work_dir : option (list N))
      (fs : gmap (list N) node) :
  match work_dir with
  | Some (c :: d) => choose_work_path w work_dir fs = (Ok (Path (c :: d)), fs, [])
  | _ =>
      match mkdtemp w fs with
      | Ok raw =>
          choose_work_path w work_dir fs =
            (Ok (Path raw),
             <[Path raw := {| is_dir := true; st_size := 0 |}]> fs,
             [EvMkdtemp (Path raw)])
      | Raise e => choose_work_path w work_dir fs = (Raise e, fs, [])
      end
  end.
Proof.
  destruct work_dir as [[|c d]|]; [|done|];
    unfold choose_work_path, make_temp_dir; cbn [truthy];
    cbv [mbind M_bind bind get_fs lift emit writing];
    by destruct (mkdtemp w fs).
Qed.

Section convert_run.

Variable w : World.
Variable self : Converter.
Variable epub_path output_path : list N.
Variable on_progress : option (Z -> Z -> list N -> result unit).

(** The [try] block: the loop, then the assembly when the loop went
    through. *)
Lemma synthesize_and_assemble_run (work_path : list N)
      (metadata : BookMetadata.t) (chapters : list Chapter.t)
      (fs : gmap (list N) node) :
  synthesize_and_assemble w self output_path on_progress work_path
    metadata chapters fs =
  match for_chapters
          (chapter_body w self on_progress work_path (Z.of_nat (length chapters)))
          chapters [] fs with
  | (Ok audios, fs1, t) =>
      let call := build_m4b w audios metadata (Path output_path) work_path
                    (bitrate self) fs1 in
      (call.2, call.1,
       t ++ [EvBuildM4b audios metadata (Path output_path) work_path
               (bitrate self)])
  | (Raise e, fs1, t) => (Raise e, fs1, t)
  end.
Proof.
  unfold synthesize_and_assemble. rewrite run_bind.
  destruct (for_chapters _ _ _ _) as [[[audios|e] fs1] t]; [|done].
  cbv [mbind M_bind bind emit writing].
  by destruct (build_m4b w _ _ _ _ _ _).
Qed.

(** [convert] after a parse that went through. *)
Lemma convert_run (work_dir : option (list N)) (fs : gmap (list N) node)
      (metadata : BookMetadata.t) (chapters : list Chapter.t) :
  parse_epub w epub_path fs = (Ok (metadata, chapters), fs, [EvParse epub_path]) ->
  exists metadata' t_en,
    _enrich_metadata w metadata fs = (Ok metadata', fs, t_en)
    /\ List.filter is_rmtree t_en = [] /\ List.filter is_mkdtemp t_en = []
    /\ List.filter is_call t_en = []
    /\ convert w self epub_path output_path on_progress work_dir fs =
       match choose_work_path w work_dir fs with
       | (Raise e, fs1, t_cw) => (Raise e, fs1, EvParse epub_path :: t_en ++ t_cw)
       | (Ok p, fs1, t_cw) =>
           match mkdir p fs1 with
           | Raise e =>
               (Raise e, fs1, EvParse epub_path :: t_en ++ t_cw ++ [EvMkdir p])
           | Ok fs2 =>
               match synthesize_and_assemble w self output_path on_progress p
                       metadata' chapters fs2 with
               | (r, fs3, t_body) =>
                   if bool_decide (work_dir = None)
                   then (r, rmtree (rmtree_stuck w p fs3) p fs3,
                         EvParse epub_path :: t_en ++ t_cw ++ [EvMkdir p]
                           ++ t_body ++ [EvRmtree p])
                   else (r, fs3,
                         EvParse epub_path :: t_en ++ t_cw ++ [EvMkdir p]
                           ++ t_body)
               end
           end
       end.
Proof.
  intros Hparse.
  destruct (enrich_metadata_run w metadata fs)
    as (metadata' & t_en & Hen & Hrm & Hmk & Hcall).
  exists metadata', t_en. do 4 (split; [done|]).
  unfold convert. rewrite run_bind, Hparse, run_bind, Hen, run_bind.
  destruct (choose_work_path w work_dir fs) as [[[p|e] fs1] t_cw]; [|done].
  rewrite run_emit_bind, run_bind. unfold writing at 1.
  destruct (mkdir p fs1) as [fs2|e]; [|done].
  unfold try_finally.
  destruct (synthesize_and_assemble _ _ _ _ _ _ _ _) as [[r fs3] t_body].
  case_bool_decide.
  - rewrite run_emit_bind. unfold writing. cbn.
    destruct r; cbn; by rewrite <- ?app_assoc.
  - unfold ret. destruct r; rewrite ?app_nil_r; cbn; by rewrite <- ?app_assoc.
Qed.

End convert_run.

Lemma choose_work_path_cases (w : World) (work_dir : option (list N))
      (fs : gmap (list N) node) :
  (exists e, choose_work_path w work_dir fs = (Raise e, fs, [])
             /\ mkdtemp w fs = Raise e
             /\ (work_dir = None \/ work_dir = Some []))
  \/ (exists p fs1 t_cw,
        choose_work_path w work_dir fs = (Ok p, fs1, t_cw)
        /\ (t_cw = [] /\ fs1 = fs /\ (exists d, work_dir = Some d /\ truthy d = true)
            \/ t_cw = [EvMkdtemp p]
               /\ fs1 = <[p := {| is_dir := true; st_size := 0 |}]> fs
               /\ (work_dir = None \/ work_dir = Some []))
        /\ (forall d, work_dir = Some d -> truthy d = true -> p = Path d)
        /\ (forall raw, work_dir = None \/ work_dir = Some [] ->
              mkdtemp w fs = Ok raw -> p = Path raw)).
Proof.
  pose proof (choose_work_path_run w work_dir fs) as H.
  destruct work_dir as [[|c d]|].
  - destruct (mkdtemp w fs) as [raw|e] eqn:Hm; [right|left; eauto].
    eexists _, _, _. split; [exact H|]. split; [right; eauto|].
    split; [by intros d [= <-]|]. by intros raw' _ [= <-].
  - right. eexists _, _, _. split; [exact H|]. split; [left; eauto 6|].
    split; [by intros d' [= <-]|]. by intros raw [|].
  - destruct (mkdtemp w fs) as [raw|e] eqn:Hm; [right|left; eauto].
    eexists _, _, _. split; [exact H|]. split; [right; eauto|].
    split; [done|]. by intros raw' _ [= <-].
Qed.

Lemma mkdir_frame (p : list N) (fs fs' : gmap (list N) node) :
  mkdir p fs = Ok fs' ->
  is_Some (fs' !! p) /\ forall q, q <> p -> fs' !! q = fs !! q.
Proof.
  unfold mkdir. destruct (fs !! p) as [n|] eqn:Hp.
  - destruct (is_dir n); [|done]. intros [= <-]. split; [by rewrite Hp|done].
  - intros [= <-]. split; [rewrite lookup_insert_eq; eauto|].
    intros q Hq. by rewrite lookup_insert_ne.
Qed.

(** C1. In [Converter.convert], once parsing has given the chapters, the
    run goes through them in list order in the working directory
    [work_path] (the directory given, as [pathlib] names it, or the
    temporary one).  [states] are the file systems in which the
    iterations start, [audios] the records appended.  For every chapter
    the loop gets through: when the file
    [work_path / chapter_{index:04d}.{ext}] exists with a size above zero
    in the state in which the chapter is reached, [engine.synthesize] is
    not called and the state stays as it is; otherwise [synthesize] is
    called once, with the chapter's text, that file and the
    configuration, in that state, it returns, and the state it leaves is
    the next one.  In both cases the prober is then called on that file,
    in the state reached, and its answer is the duration of the record
    appended for the chapter.  No other call of [synthesize] or of the
    prober is made in the whole run, but for those of an iteration that
    raises, which are an initial part of the same calls (once the loop
    is through, none).  A run that returns has got through every chapter
    and hands the records, in order, to the assembly. *)
Theorem convert_cache_check (w : World) (self : Converter)
        (epub_path output_path : list N)
        (on_progress : option (Z -> Z -> list N -> result unit))
        (work_dir : option (list N)) (fs : gmap (list N) node)
        (metadata : BookMetadata.t) (chapters : list Chapter.t) :
  parse_epub w epub_path fs = (Ok (metadata, chapters), fs, [EvParse epub_path]) ->
  let file_of (work_path : list N) (c : Chapter.t) : list N :=
    path_join work_path
      (lit "chapter_" ++ format_04d (Chapter.index c) ++ lit "."
         ++ output_format (engine self)) in
  let calls (work_path : list N) (fs_k : gmap (list N) node) (c : Chapter.t) :=
    (if cached fs_k (file_of work_path c) then []
     else [EvSynthesize (Chapter.text c) (file_of work_path c) (config self)])
      ++ [EvProbe (file_of work_path c)] in
  exists r fs' t_before t_after work_path states segs audios t_fail,
    convert w self epub_path output_path on_progress work_dir fs
      = (r, fs', t_before ++ (concat segs ++ t_fail) ++ t_after)
    /\ List.filter is_call (t_before ++ t_after) = []
    /\ (forall d, work_dir = Some d -> truthy d = true -> work_path = Path d)
    /\ (forall raw, work_dir = None \/ work_dir = Some [] ->
          mkdtemp w fs = Ok raw -> work_path = Path raw)
    /\ length segs = length audios
    /\ length states = S (length audios)
    /\ (length audios <= length chapters)%nat
    /\ (exists fs0, states !! O = Some fs0
                    /\ forall q, q <> work_path -> fs0 !! q = fs !! q)
    /\ (forall k c, chapters !! k = Some c -> (k < length audios)%nat ->
        exists fs_k fs_k' d seg,
          states !! k = Some fs_k /\ states !! S k = Some fs_k'
          /\ segs !! k = Some seg
          /\ List.filter is_call seg = calls work_path fs_k c
          /\ (if cached fs_k (file_of work_path c) then fs_k' = fs_k
              else synthesize (engine self) (Chapter.text c)
                     (file_of work_path c) (config self) fs_k = (fs_k', Ok tt))
          /\ probe_duration_ms w (file_of work_path c) fs_k' = Ok d
          /\ audios !! k = Some (ChapterAudio.mk c (file_of work_path c) d))
    /\ (r = Ok tt ->
        length audios = length chapters /\ t_fail = []
        /\ exists metadata' t_end,
            t_after = EvBuildM4b audios metadata' (Path output_path) work_path
                        (bitrate self) :: t_end)
    /\ (length audios = length chapters -> t_fail = [])
    /\ (forall c, chapters !! length audios = Some c ->
        exists fs_n, states !! length audios = Some fs_n
                     /\ List.filter is_call t_fail `prefix_of` calls work_path fs_n c).
Proof.
  intros Hparse file_of calls.
  destruct (convert_run w self epub_path output_path on_progress work_dir fs
              metadata chapters Hparse)
    as (metadata' & t_en & _ & _ & _ & Hen & ->).
  destruct (choose_work_path_cases w work_dir fs)
    as [(e & -> & Hmk & Hwd)
       |(p & fs1 & t_cw & -> & Hcw & Hgiven & Htemp)].
  { (* no temporary directory could be made *)
    exists (Raise e), fs, (EvParse epub_path :: t_en), [], [], [fs], [], [], [].
    cbn [concat app length]. rewrite !app_nil_r.
    split; [done|]. split; [by cbn; rewrite Hen|].
    split; [intros d -> Ht; by destruct Hwd as [?|[= ->]]|].
    split; [intros raw _ E; congruence|].
    do 3 (split; [done || lia|]).
    split; [by exists fs|]. split; [intros k c _ Hk; cbn in Hk; lia|].
    split; [done|]. split; [done|].
    intros c _. exists fs. split; [done|]. apply prefix_nil. }
  assert (Hcall_cw : List.filter is_call t_cw = [])
    by (by destruct Hcw as [(-> & _)|(-> & _)]).
  assert (Hfs1 : forall q, q <> p -> fs1 !! q = fs !! q).
  { destruct Hcw as [(_ & -> & _)|(_ & -> & _)]; [done|].
    intros q Hq. by rewrite lookup_insert_ne. }
  destruct (mkdir p fs1) as [fs2|e] eqn:Hmkdir.
  2:{ (* the working directory is a file *)
    exists (Raise e), fs1, (EvParse epub_path :: t_en ++ t_cw ++ [EvMkdir p]),
      [], p, [fs1], [], [], [].
    cbn [concat app length]. rewrite !app_nil_r.
    split; [done|].
    split; [cbn; by rewrite !List.filter_app, Hen, Hcall_cw|].
    do 2 (split; [done|]). do 3 (split; [done || lia|]).
    split; [by exists fs1|]. split; [intros k c _ Hk; cbn in Hk; lia|].
    split; [done|]. split; [done|].
    intros c _. exists fs1. split; [done|]. apply prefix_nil. }
  apply mkdir_frame in Hmkdir as [_ Hfs2].
  rewrite synthesize_and_assemble_run.
  destruct (for_chapters_run w self on_progress p (Z.of_nat (length chapters))
              chapters [] fs2)
    as (r & fs3 & states & segs & recs & t_fail & -> & Hls & Hlst & Hle & H0
        & Hk & HOk & HRaise).
  assert (Hstart : exists fs0, states !! O = Some fs0
                               /\ forall q, q <> p -> fs0 !! q = fs !! q).
  { exists fs2. split; [done|]. intros q Hq. by rewrite Hfs2, Hfs1. }
  destruct r as [audios|e].
  - (* the loop went through *)
    destruct (HOk _ eq_refl) as (-> & Hlen & -> & Hlast). cbn [app] in *.
    set (call := build_m4b w recs metadata' (Path output_path) p (bitrate self) fs3).
    set (ev := EvBuildM4b recs metadata' (Path output_path) p (bitrate self)).
    assert (Hnone : chapters !! length recs = None)
      by (apply lookup_ge_None; lia).
    case_bool_decide.
    + exists call.2, (rmtree (rmtree_stuck w p call.1) p call.1),
        (EvParse epub_path :: t_en ++ t_cw ++ [EvMkdir p]), [ev; EvRmtree p],
        p, states, segs, recs, [].
      split; [cbn; by rewrite <- !app_assoc|].
      split; [cbn; by rewrite !List.filter_app, Hen, Hcall_cw|].
      do 2 (split; [done|]). do 3 (split; [done|]). split; [done|].
      split; [apply Hk|]. split; [intros _; eauto 6|]. split; [done|].
      intros c Hc. congruence.
    + exists call.2, call.1,
        (EvParse epub_path :: t_en ++ t_cw ++ [EvMkdir p]), [ev],
        p, states, segs, recs, [].
      split; [cbn; by rewrite <- !app_assoc|].
      split; [cbn; by rewrite !List.filter_app, Hen, Hcall_cw|].
      do 2 (split; [done|]). do 3 (split; [done|]). split; [done|].
      split; [apply Hk|]. split; [intros _; eauto 6|]. split; [done|].
      intros c Hc. congruence.
  - (* an iteration raised *)
    destruct (HRaise _ eq_refl) as (c & fs_n & Hc & Hn & Hpre & _).
    assert (Hstop : forall c', chapters !! length recs = Some c' ->
              exists fs_n', states !! length recs = Some fs_n'
                /\ List.filter is_call t_fail `prefix_of` calls p fs_n' c').
    { intros c' Hc'. rewrite Hc in Hc'. injection Hc' as <-. by exists fs_n. }
    case_bool_decide.
    + exists (Raise e), (rmtree (rmtree_stuck w p fs3) p fs3),
        (EvParse epub_path :: t_en ++ t_cw ++ [EvMkdir p]), [EvRmtree p],
        p, states, segs, recs, t_fail.
      split; [cbn; by rewrite <- !app_assoc|].
      split; [cbn; by rewrite !List.filter_app, Hen, Hcall_cw|].
      do 2 (split; [done|]). do 3 (split; [done|]). split; [done|].
      split; [apply Hk|]. split; [done|].
      split; [intros E; apply lookup_lt_Some in Hc; lia|]. exact Hstop.
    + exists (Raise e), fs3,
        (EvParse epub_path :: t_en ++ t_cw ++ [EvMkdir p]), [],
        p, states, segs, recs, t_fail.
      split; [cbn; by rewrite <- !app_assoc, ?app_nil_r|].
      split; [cbn; by rewrite !List.filter_app, Hen, Hcall_cw|].
      do 2 (split; [done|]). do 3 (split; [done|]). split; [done|].
      split; [apply Hk|]. split; [done|].
      split; [intros E; apply lookup_lt_Some in Hc; lia|]. exact Hstop.
Qed.

(** ** converter: the working directory *)

Lemma eqb_str_refl (a : list N) : eqb_str a a = true.
Proof. unfold eqb_str. by apply bool_decide_eq_true. Qed.

Lemma is_prefix_refl (a : list (list N)) : is_prefix a a = true.
Proof. induction a as [|x a IH]; [done|]. cbn. by rewrite eqb_str_refl. Qed.

Lemma inside_refl (d : list N) : inside d d = true.
Proof. unfold inside. by rewrite eqb_str_refl, is_prefix_refl. Qed.

(** What [rmtree] can remove of the directory is gone. *)
Lemma rmtree_removed (stuck : list N -> bool) (d q : list N)
      (fs : gmap (list N) node) :
  inside d q = true -> stuck q = false -> rmtree stuck d fs !! q = None.
Proof.
  intros Hin Hst. unfold rmtree. apply map_lookup_filter_None. right.
  intros x _ [Hf|Hf]; simpl in Hf; congruence.
Qed.

(** What lies outside the directory is left alone. *)
Lemma rmtree_outside (stuck : list N -> bool) (d q : list N)
      (fs : gmap (list N) node) :
  inside d q = false -> rmtree stuck d fs !! q = fs !! q.
Proof.
  intros Hout. unfold rmtree. destruct (fs !! q) as [n|] eqn:Hq.
  - apply map_lookup_filter_Some. split; [done|]. by left.
  - apply map_lookup_filter_None. by left.
Qed.

Section work_dir.

Variable w : World.
Variable self : Converter.
Variable epub_path output_path : list N.
Variable on_progress : option (Z -> Z -> list N -> result unit).

(** An iteration calls neither [rmtree] nor [mkdtemp], and removes
    nothing that the engine does not remove. *)
Lemma chapter_body_frame (work_path : list N) (total : Z)
      (chapter_audios : list ChapterAudio.t) (chapter : Chapter.t)
      (fs : gmap (list N) node) :
  exists r fs' t,
    chapter_body w self on_progress work_path total chapter_audios chapter fs
      = (r, fs', t)
    /\ List.filter is_rmtree t = [] /\ List.filter is_mkdtemp t = []
    /\ (forall kept, engine_keeps kept (engine self) ->
        forall q, kept q -> is_Some (fs !! q) -> is_Some (fs' !! q)).
Proof.
  unfold chapter_body.
  cbv [mbind M_bind bind get_fs emit writing reading lift ret].
  destruct (cached fs _).
  - destruct (probe_duration_ms w _ fs) as [d|e]; [|by eexists _, _, _].
    destruct on_progress as [callback|]; [|by eexists _, _, _].
    destruct (callback _ _ _) as [[]|e]; by eexists _, _, _.
  - destruct (synthesize _ _ _ _ fs) as [fs1 r] eqn:Hs.
    assert (Hkeep : forall kept, engine_keeps kept (engine self) ->
                    forall q, kept q -> is_Some (fs !! q) -> is_Some (fs1 !! q)).
    { intros kept Hk q Hkq Hq.
      apply (Hk (Chapter.text chapter)
               (chapter_audio_path self work_path chapter) (config self) fs q Hkq)
        in Hq.
      by rewrite Hs in Hq. }
    destruct r as [[]|e]; [|by eexists _, _, _].
    destruct (probe_duration_ms w _ fs1) as [d|e]; [|by eexists _, _, _].
    destruct on_progress as [callback|]; [|by eexists _, _, _].
    destruct (callback _ _ _) as [[]|e]; by eexists _, _, _.
Qed.

Lemma for_chapters_frame (work_path : list N) (total : Z)
      (chapters : list Chapter.t) (chapter_audios : list ChapterAudio.t)
      (fs : gmap (list N) node) :
  exists r fs' t,
    for_chapters (chapter_body w self on_progress work_path total)
      chapters chapter_audios fs = (r, fs', t)
    /\ List.filter is_rmtree t = [] /\ List.filter is_mkdtemp t = []
    /\ (forall kept, engine_keeps kept (engine self) ->
        forall q, kept q -> is_Some (fs !! q) -> is_Some (fs' !! q)).
Proof.
  revert chapter_audios fs.
  induction chapters as [|c rest IH]; intros chapter_audios fs.
  - by exists (Ok chapter_audios), fs, [].
  - cbn [for_chapters]. rewrite run_bind.
    destruct (chapter_body_frame work_path total chapter_audios c fs)
      as (r1 & fs1 & t1 & -> & Hrm1 & Hmk1 & Hk1).
    destruct r1 as [audios1|e]; [|by eexists _, _, _].
    destruct (IH audios1 fs1) as (r2 & fs2 & t2 & -> & Hrm2 & Hmk2 & Hk2).
    eexists _, _, _. split; [reflexivity|].
    rewrite !List.filter_app, Hrm1, Hrm2, Hmk1, Hmk2.
    repeat split; try done. intros kept Hk q Hkq Hq.
    eapply Hk2; [done..|]. by eapply Hk1.
Qed.

Lemma synthesize_and_assemble_frame (work_path : list N)
      (metadata : BookMetadata.t) (chapters : list Chapter.t)
      (fs : gmap (list N) node) :
  exists r fs' t,
    synthesize_and_assemble w self output_path on_progress work_path
      metadata chapters fs = (r, fs', t)
    /\ List.filter is_rmtree t = [] /\ List.filter is_mkdtemp t = []
    /\ (forall kept, engine_keeps kept (engine self) ->
        build_keeps kept w work_path ->
        forall q, kept q -> is_Some (fs !! q) -> is_Some (fs' !! q)).
Proof.
  rewrite synthesize_and_assemble_run.
  destruct (for_chapters_frame work_path (Z.of_nat (length chapters)) chapters [] fs)
    as (r1 & fs1 & t1 & -> & Hrm1 & Hmk1 & Hk1).
  destruct r1 as [audios|e].
  2:{ eexists _, _, _. split; [reflexivity|]. repeat split; try done.
      intros kept Hk _. by apply Hk1. }
  eexists _, _, _. split; [reflexivity|].
  rewrite !List.filter_app, Hrm1, Hmk1. repeat split; try done.
  intros kept Hk Hkb q Hkq Hq. cbn [fst].
  apply (Hkb audios metadata (Path output_path) (bitrate self) fs1 q Hkq).
  by eapply Hk1.
Qed.

(** C7. When parsing raises, [convert] raises the same and has made and
    removed nothing.  After a parse that went through:
    without a [work_dir], the temporary directory that [mkdtemp] made is
    the working directory of the run, and the last thing done, whatever
    the outcome of the loop and of the assembly, is the [rmtree] of that
    directory, once: what [rmtree] can remove of the directory and below
    it is gone afterwards, and nothing outside it is touched by the
    cleanup (when [mkdtemp] itself raises there is nothing to remove);
    with a [work_dir], [rmtree] is never called, no temporary directory is
    made for a name that is not empty, and whatever path the engine and
    the assembly do not remove -- the working directory and the chapter
    files, for one -- is still there after the run if it was there
    before or is the working directory itself. *)
Theorem convert_work_dir_cleanup (fs : gmap (list N) node) :
  (forall work_dir e,
      (parse_epub w epub_path fs).1.1 = Raise e ->
      convert w self epub_path output_path on_progress work_dir fs
        = (Raise e, fs, [EvParse epub_path]))
  /\ (forall metadata chapters,
        parse_epub w epub_path fs
          = (Ok (metadata, chapters), fs, [EvParse epub_path]) ->
        (forall e, mkdtemp w fs = Raise e ->
           exists t,
             convert w self epub_path output_path on_progress None fs
               = (Raise e, fs, t)
             /\ List.filter is_mkdtemp t = [] /\ List.filter is_rmtree t = [])
        /\ (forall raw, mkdtemp w fs = Ok raw ->
            let p := Path raw in
            exists metadata' r fs_run t0 t1,
              let fs' := rmtree (rmtree_stuck w p fs_run) p fs_run in
              convert w self epub_path output_path on_progress None fs
                = (r, fs', t0 ++ [EvMkdtemp p; EvMkdir p] ++ t1 ++ [EvRmtree p])
              /\ synthesize_and_assemble w self output_path on_progress p
                   metadata' chapters
                   (<[p := {| is_dir := true; st_size := 0 |}]> fs)
                 = (r, fs_run, t1)
              /\ List.filter is_mkdtemp (t0 ++ t1) = []
              /\ List.filter is_rmtree (t0 ++ t1) = []
              /\ (forall q, inside p q = true ->
                            rmtree_stuck w p fs_run q = false -> fs' !! q = None)
              /\ (rmtree_stuck w p fs_run p = false -> fs' !! p = None)
              /\ (forall q, inside p q = false -> fs' !! q = fs_run !! q))
        /\ (forall d, truthy d = true ->
            let p := Path d in
            exists r fs' t0 t1,
              convert w self epub_path output_path on_progress (Some d) fs
                = (r, fs', t0 ++ [EvMkdir p] ++ t1)
              /\ List.filter is_mkdtemp (t0 ++ t1) = []
              /\ List.filter is_rmtree (t0 ++ t1) = []
              /\ (forall kept : list N -> Prop,
                    engine_keeps kept (engine self) -> build_keeps kept w p ->
                    forall q, kept q -> is_Some (fs !! q) \/ q = p ->
                              is_Some (fs' !! q))))
  /\ (forall d, exists r fs' t,
        convert w self epub_path output_path on_progress (Some d) fs = (r, fs', t)
        /\ List.filter is_rmtree t = []).
Proof.
  split; [|split].
  - intros work_dir e He. unfold convert. rewrite run_bind.
    destruct (parse_epub_run w epub_path fs) as [r0 Hr0].
    rewrite Hr0 in *. cbn in He. by subst r0.
  - intros metadata chapters Hparse. split; [|split].
    + intros e He.
      destruct (convert_run w self epub_path output_path on_progress None fs
                  metadata chapters Hparse)
        as (metadata' & t_en & _ & Hrm & Hmk & _ & ->).
      pose proof (choose_work_path_run w None fs) as Hcw. rewrite He in Hcw.
      rewrite Hcw. eexists. split; [reflexivity|].
      cbn. by rewrite !List.filter_app, Hrm, Hmk.
    + intros raw Hraw p.
      destruct (convert_run w self epub_path output_path on_progress None fs
                  metadata chapters Hparse)
        as (metadata' & t_en & _ & Hrm & Hmk & _ & ->).
      pose proof (choose_work_path_run w None fs) as Hcw. rewrite Hraw in Hcw.
      fold p in Hcw. rewrite Hcw.
      set (fs1 := <[p := {| is_dir := true; st_size := 0 |}]> fs).
      assert (Hmkdir : mkdir p fs1 = Ok fs1).
      { unfold mkdir, fs1. by rewrite lookup_insert_eq. }
      rewrite Hmkdir.
      destruct (synthesize_and_assemble_frame p metadata' chapters fs1)
        as (r & fs_run & t1 & Hbody & Hrm1 & Hmk1 & _).
      rewrite Hbody. rewrite bool_decide_eq_true_2 by done.
      exists metadata', r, fs_run, (EvParse epub_path :: t_en), t1.
      split; [cbn; by rewrite <- ?app_assoc|]. split; [done|].
      split; [cbn; by rewrite !List.filter_app, Hmk, Hmk1|].
      split; [cbn; by rewrite !List.filter_app, Hrm, Hrm1|].
      split; [intros q; apply rmtree_removed|].
      split; [apply rmtree_removed, inside_refl|].
      intros q. apply rmtree_outside.
    + intros [|c d] Hd p; [done|].
      destruct (convert_run w self epub_path output_path on_progress
                  (Some (c :: d)) fs metadata chapters Hparse)
        as (metadata' & t_en & _ & Hrm & Hmk & _ & ->).
      pose proof (choose_work_path_run w (Some (c :: d)) fs) as Hcw.
      cbn beta iota in Hcw. fold p in Hcw. rewrite Hcw.
      destruct (mkdir p fs) as [fs2|e] eqn:Hmkdir.
      * apply mkdir_frame in Hmkdir as [Hp Hfs2].
        destruct (synthesize_and_assemble_frame p metadata' chapters fs2)
          as (r & fs' & t1 & Hbody & Hrm1 & Hmk1 & Hkeep).
        rewrite Hbody. rewrite bool_decide_eq_false_2 by done.
        exists r, fs', (EvParse epub_path :: t_en), t1.
        split; [cbn; by rewrite <- ?app_assoc|].
        split; [cbn; by rewrite !List.filter_app, Hmk, Hmk1|].
        split; [cbn; by rewrite !List.filter_app, Hrm, Hrm1|].
        intros kept Hke Hkb q Hkq Hq. apply (Hkeep kept Hke Hkb q Hkq).
        destruct (decide (q = p)) as [->|Hne]; [done|].
        rewrite Hfs2 by done. by destruct Hq.
      * exists (Raise e), fs, (EvParse epub_path :: t_en), [].
        split; [cbn; by rewrite <- ?app_assoc, ?app_nil_r|].
        rewrite app_nil_r.
        split; [cbn; by rewrite Hmk|]. split; [cbn; by rewrite Hrm|].
        intros kept _ _ q _ [Hq| ->]; [done|].
        unfold mkdir in Hmkdir. by destruct (fs !! p).
  - intros d. destruct (parse_epub_run w epub_path fs) as [r0 Hr0].
    destruct r0 as [[metadata chapters]|e].
    2:{ unfold convert. rewrite run_bind, Hr0. by eexists _, _, _. }
    destruct (convert_run w self epub_path output_path on_progress (Some d) fs
                metadata chapters Hr0)
      as (metadata' & t_en & _ & Hrm & _ & _ & ->).
    destruct (choose_work_path_cases w (Some d) fs)
      as [(e & -> & _)|(p & fs1 & t_cw & -> & Hcw & _)].
    { eexists _, _, _. split; [reflexivity|]. rewrite app_nil_r.
      cbn [List.filter is_rmtree]. exact Hrm. }
    assert (Hrm_cw : List.filter is_rmtree t_cw = [])
      by (by destruct Hcw as [(-> & _)|(-> & _)]).
    destruct (mkdir p fs1) as [fs2|e].
    2:{ eexists _, _, _. split; [reflexivity|].
        cbn [List.filter is_rmtree]. by rewrite !List.filter_app, Hrm, Hrm_cw. }
    destruct (synthesize_and_assemble_frame p metadata' chapters fs2)
      as (r & fs' & t1 & -> & Hrm1 & _).
    rewrite bool_decide_eq_false_2 by done.
    eexists _, _, _. split; [reflexivity|].
    cbn [List.filter is_rmtree]. by rewrite !List.filter_app, Hrm, Hrm_cw, Hrm1.
Qed.

End work_dir.

(** ** The assembly: what [build_m4b] leaves in place *)

Lemma keeps_bind {A B} (kept : list N -> Prop) (m : M A) (f : A -> M B) :
  keeps kept (assembly.run_fs m) ->
  (forall a, keeps kept (assembly.run_fs (f a))) ->
  keeps kept (assembly.run_fs (m ≫= f)).
Proof.
  intros Hm Hf fs q Hkq Hq. unfold assembly.run_fs. rewrite run_bind.
  specialize (Hm fs q Hkq Hq). unfold assembly.run_fs in Hm. cbn [fst snd] in Hm.
  destruct (m fs) as [[[a|e] fs1] t1]; cbn [fst snd] in *; [|done].
  specialize (Hf a fs1 q Hkq Hm). unfold assembly.run_fs in Hf.
  by destruct (f a fs1) as [[r fs2] t2].
Qed.

Lemma keeps_writing {A} (kept : list N -> Prop)
      (f : gmap (list N) node -> gmap (list N) node * result A) :
  keeps kept f -> keeps kept (assembly.run_fs (writing f)).
Proof.
  intros Hf fs q Hkq Hq. specialize (Hf fs q Hkq Hq).
  unfold assembly.run_fs, writing. by destruct (f fs).
Qed.

Lemma keeps_pure {A} (kept : list N -> Prop) (r : result A) :
  keeps kept (assembly.run_fs (lift r)).
Proof. by intros fs q _ Hq. Qed.

Lemma write_file_keeps (kept : list N -> Prop) (p : list N) (size : N) :
  keeps kept (assembly.write_file p size).
Proof.
  intros fs q _ Hq. unfold assembly.write_file.
  assert (is_Some (<[p := assembly.file size]> fs !! q)).
  { destruct (decide (p = q)) as [->|Hne].
    - rewrite lookup_insert_eq. eauto.
    - by rewrite lookup_insert_ne. }
  destruct (fs !! p) as [n|]; [destruct (is_dir n)|]; done.
Qed.

Lemma unlink_keeps (kept : list N -> Prop) (p : list N) :
  (forall q, kept q -> q <> p) -> keeps kept (assembly.unlink p).
Proof.
  intros Hne fs q Hkq Hq. unfold assembly.unlink.
  assert (is_Some (delete p fs !! q)).
  { rewrite lookup_delete_ne; [done|]. intros ->. by apply (Hne q). }
  destruct (fs !! p) as [n|]; [destruct (is_dir n)|]; done.
Qed.

Lemma save_cover_keeps (kept : list N -> Prop) (metadata : BookMetadata.t)
      (temp_dir : list N) :
  keeps kept (assembly.run_fs (assembly._save_cover metadata temp_dir)).
Proof.
  unfold assembly._save_cover.
  destruct (BookMetadata.cover_image metadata) as [data|];
    [destruct (truthy data)|]; try (by intros fs q _ Hq).
  apply keeps_bind; [apply keeps_writing, write_file_keeps|].
  by intros _ fs q _ Hq.
Qed.

(** [build_m4b] removes two files, [combined.m4a] and [with_chapters.m4b]
    in the directory it works in, and nothing else that its tools do not
    remove. *)
Lemma build_m4b_keeps (kept : list N -> Prop) (t : assembly.Tools)
      (chapter_audios : list ChapterAudio.t) (metadata : BookMetadata.t)
      (output_path temp_dir bitrate : list N) :
  assembly.tools_keep kept t ->
  (forall q, kept q -> q <> path_join temp_dir (lit "combined.m4a")
                       /\ q <> path_join temp_dir (lit "with_chapters.m4b")) ->
  keeps kept (assembly.run_build_m4b t chapter_audios metadata output_path
                temp_dir bitrate).
Proof.
  intros Ht Hne. unfold assembly.run_build_m4b, assembly.build_m4b.
  apply keeps_bind; [apply keeps_writing, write_file_keeps|intros _].
  apply keeps_bind; [apply keeps_writing, write_file_keeps|intros _].
  apply keeps_bind; [apply keeps_pure|intros ffmpeg].
  apply keeps_bind; [apply keeps_writing, Ht|intros _].
  apply keeps_bind; [apply save_cover_keeps|intros cover_path].
  apply keeps_bind.
  - destruct cover_path as [cover_path|]; [|apply keeps_writing, Ht].
    apply keeps_bind; [apply keeps_writing, Ht|intros _].
    apply keeps_bind; [apply keeps_writing, Ht|intros _].
    apply keeps_writing, unlink_keeps. intros q Hq. by apply Hne.
  - intros _. apply keeps_writing, unlink_keeps. intros q Hq. by apply Hne.
Qed.

(** ** The theorems at work on the stub *)

Lemma stub_book_parses :
  parse (soup_text stub_world) (soup_find_text stub_world)
    (_extract_metadata stub_world) (lit "book.epub") stub_book
  = Ok (stub_metadata, stub_chapters).
Proof. vm_compute. reflexivity. Qed.

Lemma stub_parse_epub (fs : gmap (list N) node) :
  parse_epub stub_world (lit "book.epub") fs
  = (Ok (stub_metadata, stub_chapters), fs, [EvParse (lit "book.epub")]).
Proof.
  unfold parse_epub. cbv [mbind M_bind bind emit reading lift].
  cbn [read_epub stub_world soup_text soup_find_text _extract_metadata].
  pose proof stub_book_parses as H.
  cbn [read_epub stub_world soup_text soup_find_text _extract_metadata] in H.
  by rewrite H.
Qed.

Lemma parse_indices_dense_witness :
  stub_chapters <> []
  /\ (forall k c, stub_chapters !! k = Some c -> Chapter.index c = Z.of_nat k)
  /\ Chapter.index <$> stub_chapters = Z.of_nat <$> seq 0 (length stub_chapters)
  /\ NoDup (Chapter.index <$> stub_chapters)
  /\ Chapter.text <$> stub_chapters
     = filter nonblank (spine_texts (soup_text stub_world) stub_book).
Proof.
  apply (parse_indices_dense (soup_text stub_world) (soup_find_text stub_world)
           (_extract_metadata stub_world) (lit "book.epub") stub_book
           stub_metadata stub_chapters).
  vm_compute. reflexivity.
Defined.

Lemma parse_texts_stripped_witness :
  Chapter.text <$> stub_chapters
  = filter nonblank (spine_texts (soup_text stub_world) stub_book)
  /\ Forall (fun c =>
               Chapter.text c <> []
               /\ strip (Chapter.text c) <> []
               /\ (forall x, head (Chapter.text c) = Some x -> isspace x = false)
               /\ (forall x, last (Chapter.text c) = Some x -> isspace x = false))
            stub_chapters.
Proof.
  apply (parse_texts_stripped (soup_text stub_world) (soup_find_text stub_world)
           (_extract_metadata stub_world) (lit "book.epub") stub_book
           stub_metadata stub_chapters).
  vm_compute. reflexivity.
Defined.

Lemma enrich_metadata_best_effort_witness :
  exists metadata' trace,
    _enrich_metadata stub_world stub_metadata ∅ = (Ok metadata', ∅, trace)
    /\ BookMetadata.title metadata' = lit "Test Book".
Proof.
  destruct (enrich_metadata_best_effort stub_world stub_metadata ∅)
    as (metadata' & trace & Hrun & Htitle & _).
  exists metadata', trace. split; [exact Hrun|exact Htitle].
Defined.

Lemma stub_engine_keeps : engine_keeps (.∈ assembly.work_files) stub_engine.
Proof.
  intros text audio_path config fs q Hkq Hq. cbn.
  assert (Hne : audio_path ++ lit ".part" <> q).
  { intros <-. unfold assembly.work_files in Hkq.
    repeat (apply elem_of_cons in Hkq as [Hkq|Hkq]);
      try (apply (f_equal last) in Hkq; rewrite last_app in Hkq; by cbn in Hkq).
    by apply elem_of_nil in Hkq. }
  rewrite lookup_delete_ne by done.
  destruct (decide (audio_path = q)) as [->|Hne'].
  - rewrite lookup_insert_eq. eauto.
  - by rewrite lookup_insert_ne.
Qed.

Lemma stub_tools_keep (kept : list N -> Prop) :
  assembly.tools_keep kept assembly.stub_tools.
Proof.
  intros args fs q _ Hq. cbn. destruct (last args) as [target|]; [|done].
  cbn. destruct (decide (target = q)) as [->|Hne].
  - rewrite lookup_insert_eq. eauto.
  - by rewrite lookup_insert_ne.
Qed.

Lemma assembling_world_keeps :
  build_keeps (.∈ assembly.work_files) assembly.assembling_world
    (Path (lit "work")).
Proof.
  intros chapter_audios metadata output_path bitrate.
  apply (build_m4b_keeps _ assembly.stub_tools); [apply stub_tools_keep|].
  intros q Hkq. unfold assembly.work_files in Hkq.
  repeat (apply elem_of_cons in Hkq as [->|Hkq]);
    [split; vm_compute; discriminate..|by apply elem_of_nil in Hkq].
Qed.

Lemma convert_work_dir_cleanup_witness :
  exists r fs' t0 t1,
    convert assembly.assembling_world stub_converter (lit "book.epub")
      (lit "out.m4b") None (Some (lit "work")) resumed_fs
    = (r, fs', t0 ++ [EvMkdir (lit "work")] ++ t1)
    /\ List.filter is_rmtree (t0 ++ t1) = []
    /\ is_Some (fs' !! lit "work")
    /\ is_Some (fs' !! lit "work/chapter_0000.mp3").
Proof.
  destruct (convert_work_dir_cleanup assembly.assembling_world stub_converter
              (lit "book.epub") (lit "out.m4b") None resumed_fs)
    as (_ & Hparsed & _).
  destruct (Hparsed stub_metadata stub_chapters (stub_parse_epub resumed_fs))
    as (_ & _ & Hgiven).
  destruct (Hgiven (lit "work") eq_refl) as (r & fs' & t0 & t1 & Hrun & _ & Hrm & Hkeep).
  exists r, fs', t0, t1. split; [exact Hrun|]. split; [exact Hrm|].
  split; apply (Hkeep _ stub_engine_keeps assembling_world_keeps).
  - by left.
  - by right.
  - by right; left.
  - left. vm_compute. eauto.
Defined.

Lemma convert_cache_check_witness :
  exists fs_0 fs_1 seg d,
    cached fs_0 (lit "work/chapter_0000.mp3") = true
    /\ fs_1 = fs_0
    /\ List.filter is_call seg = [EvProbe (lit "work/chapter_0000.mp3")]
    /\ probe_duration_ms stub_world (lit "work/chapter_0000.mp3") fs_1 = Ok d.
Proof.
  destruct (convert_cache_check stub_world stub_converter (lit "book.epub")
              (lit "out.m4b") None (Some (lit "work/")) resumed_fs
              stub_metadata stub_chapters (stub_parse_epub resumed_fs))
    as (r & fs' & t_before & t_after & work_path & states & segs & audios & t_fail
        & Hrun & _ & Hwork & _ & _ & _ & _ & (fs0 & H0 & Hfs0) & Hk & HOk & _).
  rewrite (Hwork (lit "work/") eq_refl eq_refl) in *.
  assert (Hr : r = Ok tt).
  { apply (f_equal (fun x => x.1.1)) in Hrun. cbn [fst] in Hrun. rewrite <- Hrun.
    vm_compute. reflexivity. }
  destruct (HOk Hr) as (Hlen & _).
  destruct (Hk O (Chapter.mk 0 (lit "Capitolo 1") (lit "Primo capitolo.")) eq_refl)
    as (fs_k & fs_k' & d & seg & Hs0 & _ & _ & Hcalls & Hstate & Hprobe & _).
  { rewrite Hlen. cbn. lia. }
  rewrite H0 in Hs0. injection Hs0 as <-.
  change (path_join (Path (lit "work/"))
            (lit "chapter_" ++ format_04d 0 ++ lit "." ++ lit "mp3"))
    with (lit "work/chapter_0000.mp3") in *.
  assert (Hc : cached fs0 (lit "work/chapter_0000.mp3") = true).
  { unfold cached. rewrite Hfs0 by (vm_compute; discriminate).
    vm_compute. reflexivity. }
  cbn [Chapter.index Chapter.text stub_converter engine output_format stub_engine]
    in Hcalls, Hstate, Hprobe.
  change (path_join (Path (lit "work/"))
            (lit "chapter_" ++ format_04d 0 ++ lit "." ++ lit "mp3"))
    with (lit "work/chapter_0000.mp3") in *.
  rewrite Hc in Hcalls, Hstate.
  exists fs0, fs_k', seg, d. by repeat split.
Defined.

(** ** The matcher *)

Lemma last_char_nil (prev : option N) : last_char prev [] = prev.
Proof. done. Qed.

Lemma last_char_cons (prev : option N) (x : N) (m : list N) :
  last_char prev (x :: m) = last_char (Some x) m.
Proof.
  unfold last_char. destruct m as [|y m]; [done|].
  rewrite last_cons. by destruct (last (y :: m)).
Qed.

Lemma last_char_app (prev : option N) (m1 m2 : list N) :
  last_char prev (m1 ++ m2) = last_char (last_char prev m1) m2.
Proof.
  revert prev. induction m1 as [|x m1 IH]; intros prev; [done|].
  cbn [app]. by rewrite !last_char_cons, IH.
Qed.

(** What a repetition has consumed when it succeeds. *)
Lemma rep_sound (c : N -> bool) (k : option N -> list N -> option (list N))
      (s : list N) :
  forall need prev r,
    rep c k need prev s = Some r ->
    exists run s',
      s = run ++ s' /\ Forall (fun x => c x = true) run
      /\ (need <= length run)%nat /\ k (last_char prev run) s' = Some r.
Proof.
  induction s as [|x s IH]; intros need prev r H; cbn [rep] in H.
  - destruct need; [|done]. exists [], []. by repeat split.
  - destruct (c x) eqn:Hc.
    + destruct (rep c k (pred need) (Some x) s) as [r'|] eqn:Hin.
      * injection H as <-. destruct (IH _ _ _ Hin) as (run & s' & -> & Hrun & Hlen & Hk).
        exists (x :: run), s'. rewrite last_char_cons.
        repeat split; try done; [by constructor|cbn; lia].
      * destruct need; [|done]. exists [], (x :: s). by repeat split.
    + destruct need; [|done]. exists [], (x :: s). by repeat split.
Qed.

(** A repetition succeeds as soon as some split lets the rest succeed. *)
Lemma rep_complete (c : N -> bool) (k : option N -> list N -> option (list N))
      (run s' : list N) :
  forall need prev,
    Forall (fun x => c x = true) run -> (need <= length run)%nat ->
    is_Some (k (last_char prev run) s') ->
    is_Some (rep c k need prev (run ++ s')).
Proof.
  induction run as [|x run IH]; intros need prev Hrun Hlen Hk.
  - cbn in Hlen. assert (need = O) as -> by lia. cbn [app].
    rewrite last_char_nil in Hk.
    destruct s' as [|y s']; cbn [rep]; [done|].
    destruct (c y); [|done].
    by destruct (rep c k (pred 0) (Some y) s').
  - apply Forall_cons in Hrun as [Hx Hrun]. cbn [app rep]. rewrite Hx.
    rewrite last_char_cons in Hk.
    destruct (IH (pred need) (Some x) Hrun) as [r Hr]; [cbn in Hlen; lia|done|].
    rewrite Hr. eauto.
Qed.

Lemma match_at_sound (p : list item) :
  forall prev s rest,
    match_at p prev s = Some rest ->
    exists m, s = m ++ rest /\ Chunks p prev m rest.
Proof.
  induction p as [|it p IH]; intros prev s rest H; cbn [match_at] in H.
  - injection H as <-. exists []. split; [done|constructor].
  - destruct it as [c|n c|alts].
    + destruct s as [|x s]; [done|]. destruct (c x) eqn:Hc; [|done].
      destruct (IH _ _ _ H) as (m & -> & Hm).
      exists (x :: m). split; [done|by constructor].
    + apply rep_sound in H as (run & s' & -> & Hrun & Hlen & Hk).
      destruct (IH _ _ _ Hk) as (m & -> & Hm).
      exists (run ++ m). split; [by rewrite app_assoc|by constructor].
    + destruct (existsb (holds prev s) alts) eqn:Ha; [|done].
      destruct (IH _ _ _ H) as (m & -> & Hm).
      exists m. split; [done|by constructor].
Qed.

Lemma match_at_complete (p : list item) (prev : option N) (m rest : list N) :
  Chunks p prev m rest -> is_Some (match_at p prev (m ++ rest)).
Proof.
  induction 1 as [prev rest|c p prev x m rest Hc _ IH
                 |n c p prev run m rest Hrun Hlen _ IH
                 |alts p prev m rest Ha _ IH]; cbn [match_at app].
  - eauto.
  - by rewrite Hc.
  - rewrite <- app_assoc. by apply rep_complete.
  - by rewrite Ha.
Qed.

(** A consuming pattern never matches the empty text. *)
Lemma Chunks_consuming (p : list item) (prev : option N) (m rest : list N) :
  consuming p -> Chunks p prev m rest -> m <> [].
Proof.
  intros Hp H. induction H as [prev rest|c p prev x m rest Hc _ IH
                 |n c p prev run m rest Hrun Hlen _ IH
                 |alts p prev m rest Ha _ IH].
  - by apply Exists_nil in Hp.
  - done.
  - apply Exists_cons in Hp as [Hn|Hp].
    + destruct run; [cbn in Hlen; lia|done].
    + intros E. apply app_eq_nil in E as [_ E]. by apply IH.
  - apply Exists_cons in Hp as [[]|Hp]. by apply IH.
Qed.

Lemma match_at_consuming (p : list item) (prev : option N) (s rest : list N) :
  consuming p -> match_at p prev s = Some rest ->
  exists m, m <> [] /\ s = m ++ rest /\ Chunks p prev m rest.
Proof.
  intros Hp H. apply match_at_sound in H as (m & -> & Hm).
  exists m. split; [by eapply Chunks_consuming|done].
Qed.

(** A match holds a character of any class the pattern needs. *)
Lemma Chunks_needs (c : N -> bool) (p : list item) (prev : option N)
      (m rest : list N) :
  needs c p -> Chunks p prev m rest -> exists x, x ∈ m /\ c x = true.
Proof.
  intros Hp H. induction H as [prev rest|c' p prev x m rest Hc _ IH
                 |n c' p prev run m rest Hrun Hlen _ IH
                 |alts p prev m rest Ha _ IH].
  - by apply Exists_nil in Hp.
  - apply Exists_cons in Hp as [Hn|Hp].
    + exists x. split; [by left|by apply Hn].
    + destruct (IH Hp) as (y & Hy & Hcy). exists y. split; [by right|done].
  - apply Exists_cons in Hp as [[Hn Himp]|Hp].
    + destruct run as [|x run]; [cbn in Hlen; lia|].
      apply Forall_cons in Hrun as [Hx _].
      exists x. split; [by left|by apply Himp].
    + destruct (IH Hp) as (y & Hy & Hcy). exists y.
      split; [apply elem_of_app; by right|done].
  - apply Exists_cons in Hp as [[]|Hp]. by apply IH.
Qed.

Lemma nowhere_needs (c : N -> bool) (p : list item) (s : list N) :
  needs c p -> Forall (fun x => c x = false) s ->
  forall prev, nowhere p prev s.
Proof.
  intros Hp. induction s as [|x s IH]; intros Hs prev.
  - split; [|done]. destruct (match_at p prev []) as [rest|] eqn:H; [|done].
    apply match_at_sound in H as (m & E & Hm).
    destruct (Chunks_needs c p prev m rest Hp Hm) as (y & Hy & _).
    symmetry in E. apply app_eq_nil in E as [-> _]. by apply elem_of_nil in Hy.
  - split.
    + destruct (match_at p prev (x :: s)) as [rest|] eqn:H; [|done].
      apply match_at_sound in H as (m & E & Hm).
      destruct (Chunks_needs c p prev m rest Hp Hm) as (y & Hy & Hcy).
      rewrite Forall_forall in Hs. rewrite (Hs y) in Hcy; [done|].
      rewrite E. apply elem_of_app. by left.
    + apply Forall_cons in Hs as [_ Hs]. by apply IH.
Qed.

(** ** The scan of [re.sub] *)

Lemma sub_scan_nowhere (p : list item) (repl : list N -> list N) (s : list N) :
  forall prev, nowhere p prev s -> sub_scan p repl prev 0 s = s.
Proof.
  induction s as [|c s IH]; intros prev [Hm Hrest]; cbn [sub_scan].
  - by rewrite Hm.
  - rewrite Hm. f_equal. by apply IH.
Qed.

Lemma sub_nowhere (p : list item) (repl : list N -> list N) (s : list N) :
  nowhere p None s -> sub p repl s = s.
Proof. apply sub_scan_nowhere. Qed.

Lemma sub_scan_skip (p : list item) (repl : list N -> list N) (m rest : list N) :
  forall prev,
    sub_scan p repl prev (length m) (m ++ rest)
    = sub_scan p repl (last_char prev m) 0 rest.
Proof.
  induction m as [|x m IH]; intros prev; [done|].
  cbn [length app sub_scan]. by rewrite IH, last_char_cons.
Qed.

Lemma sub_scan_Scan (p : list item) (repl : list N -> list N) :
  consuming p ->
  forall s prev, Scan p repl prev s (sub_scan p repl prev 0 s).
Proof.
  intros Hp s. remember (length s) as n eqn:Hn. revert s Hn.
  induction n as [n IH] using lt_wf_ind. intros s -> prev.
  destruct s as [|c s].
  - cbn [sub_scan]. destruct (match_at p prev []) as [rest|] eqn:H; [|constructor].
    apply match_at_consuming in H as (m & Hne & E & _); [|done].
    symmetry in E. by apply app_eq_nil in E as [-> _].
  - cbn [sub_scan]. destruct (match_at p prev (c :: s)) as [rest|] eqn:H.
    + pose proof H as H'.
      apply match_at_consuming in H' as (m & Hne & E & _); [|done].
      destruct m as [|x m]; [done|]. cbn [app] in E. injection E as <- ->.
      replace (length (c :: m ++ rest) - length rest)%nat with (S (length m))
        by (cbn [length]; rewrite length_app; lia).
      change (c :: m ++ rest) with ((c :: m) ++ rest).
      rewrite take_app_length'
        by (cbn [length]; lia).
      rewrite sub_scan_skip. rewrite <- (last_char_cons prev c m).
      apply Scan_match; [done|done|].
      eapply IH; [|reflexivity]. cbn [length]. rewrite length_app. lia.
    + apply Scan_skip; [done|]. eapply IH; [|reflexivity]. cbn [length]. lia.
Qed.

Lemma sub_Scan (p : list item) (repl : list N -> list N) (s : list N) :
  consuming p -> Scan p repl None s (sub p repl s).
Proof. intros Hp. by apply sub_scan_Scan. Qed.

(** What holds of every character of the text and of every replacement
    holds of every character of the result. *)
Lemma Scan_Forall (P : N -> Prop) (p : list item) (repl : list N -> list N)
      (prev : option N) (s out : list N) :
  (forall m, Forall P m -> Forall P (repl m)) ->
  Scan p repl prev s out -> Forall P s -> Forall P out.
Proof.
  intros Hrepl H. induction H as [prev|prev c s out Hm _ IH|prev m rest out Hne Hm _ IH];
    intros Hs.
  - done.
  - apply Forall_cons in Hs as [Hc Hs]. constructor; [done|by apply IH].
  - apply Forall_app in Hs as [Hm' Hs]. apply Forall_app. split; [by apply Hrepl|by apply IH].
Qed.

(** ** Character classes *)

Lemma one_of_true (l : list N) (x : N) : one_of l x = true -> x ∈ l.
Proof.
  unfold one_of. intros H. apply existsb_exists in H as (y & Hy & E).
  apply N.eqb_eq in E as ->. by apply list_elem_of_In.
Qed.

Lemma one_of_false (l : list N) (x : N) : x ∉ l -> one_of l x = false.
Proof.
  intros H. destruct (one_of l x) eqn:E; [|done].
  by apply one_of_true in E.
Qed.

Lemma just_true (c x : N) : just c x = true -> x = c.
Proof. unfold just. apply N.eqb_eq. Qed.

Lemma just_false (c x : N) : x <> c -> just c x = false.
Proof. unfold just. by apply N.eqb_neq. Qed.

Ltac class_cases H :=
  repeat (apply elem_of_cons in H as [->|H]); [..|by apply elem_of_nil in H].

Lemma punct_not_ws (x : N) : punct x = true -> ws x = false /\ x <> NL.
Proof.
  intros H. apply one_of_true in H. unfold punct in H. class_cases H; by split.
Qed.

Lemma sentence_end_facts (x : N) :
  sentence_end x = true -> x <> NL /\ ws x = false /\ letter x = false.
Proof.
  intros H. apply one_of_true in H. class_cases H; by repeat split.
Qed.

Lemma letter_ranges (y : N) :
  letter y = true ->
  (65 <= y <= 90 \/ 192 <= y <= 218 \/ 97 <= y <= 122 \/ 224 <= y <= 250)%N.
Proof.
  unfold letter, union, range.
  rewrite !orb_true_iff, !andb_true_iff, !N.leb_le. tauto.
Qed.

Lemma letter_facts (y : N) :
  letter y = true ->
  y <> NL /\ y <> SPACE /\ ws y = false /\ punct y = false
  /\ sentence_end y = false.
Proof.
  intros H. apply letter_ranges in H.
  split; [unfold NL; lia|]. split; [unfold SPACE; lia|].
  split; [|split].
  - destruct (ws y) eqn:E; [|done]. exfalso. unfold ws, isspace in E.
    rewrite !orb_true_iff, !andb_true_iff, !N.leb_le, !N.eqb_eq in E. lia.
  - apply one_of_false. intros Hin.
    class_cases Hin; unfold DOT, HYPHEN, EN_DASH, EM_DASH in H; lia.
  - apply one_of_false. intros Hin. class_cases Hin; unfold DOT in H; lia.
Qed.

(** ** The stages that do nothing on a text without their trigger *)

Lemma replace_absent (c : N) (old new s : list N) :
  c ∉ s -> replace (c :: old) new s = s.
Proof.
  unfold replace. induction s as [|x s IH]; intros Hc; [done|].
  apply not_elem_of_cons in Hc as [Hne Hs].
  cbn [replace_scan starts_with].
  rewrite (proj2 (N.eqb_neq c x)) by done. cbn [andb]. f_equal. by apply IH.
Qed.

Lemma consuming_isolated_period : consuming re_isolated_period.
Proof. apply Exists_cons_tl, Exists_cons_hd. exact I. Qed.
Lemma consuming_punct_line : consuming re_punct_line.
Proof. do 2 apply Exists_cons_tl. apply Exists_cons_hd. cbn. lia. Qed.
Lemma consuming_missing_space : consuming re_missing_space.
Proof. apply Exists_cons_hd. exact I. Qed.
Lemma consuming_spaces : consuming re_spaces.
Proof. apply Exists_cons_hd. cbn. lia. Qed.
Lemma consuming_newlines : consuming re_newlines.
Proof. apply Exists_cons_hd. cbn. lia. Qed.

Lemma needs_dot_isolated_period : needs (just DOT) re_isolated_period.
Proof. apply Exists_cons_tl, Exists_cons_hd. by cbn. Qed.
Lemma needs_dot_dash_period : needs (just DOT) re_dash_period.
Proof. do 2 apply Exists_cons_tl. apply Exists_cons_hd. by cbn. Qed.
Lemma needs_dot_period_dash : needs (just DOT) re_period_dash.
Proof. apply Exists_cons_tl, Exists_cons_hd. by cbn. Qed.
Lemma needs_dot_leading_period : needs (just DOT) re_leading_period.
Proof. do 2 apply Exists_cons_tl. apply Exists_cons_hd. cbn. split; [lia|done]. Qed.
Lemma needs_dash_dash_comma : needs dash re_dash_comma.
Proof. apply Exists_cons_hd. by cbn. Qed.
Lemma needs_comma_dash_comma : needs (just 44%N) re_dash_comma.
Proof. do 2 apply Exists_cons_tl. apply Exists_cons_hd. by cbn. Qed.

Lemma tidy_no_dot (s : list N) :
  Forall tidy_char s -> Forall (fun x => just DOT x = false) s.
Proof.
  intros H. eapply Forall_impl; [exact H|].
  intros x (Hd & _ & _). by apply just_false.
Qed.

Lemma tidy_dot_absent (s : list N) : Forall tidy_char s -> DOT ∉ s.
Proof.
  rewrite Forall_forall. intros H Hin. by destruct (H _ Hin) as (Hd & _ & _).
Qed.

Lemma tidy_nul_absent (s : list N) : Forall tidy_char s -> NUL ∉ s.
Proof.
  rewrite Forall_forall. intros H Hin. by destruct (H _ Hin) as (_ & Hn & _).
Qed.

Lemma tidy_no_dash (s : list N) :
  Forall tidy_char s -> Forall (fun c => c <> HYPHEN) s ->
  Forall (fun x => dash x = false) s.
Proof.
  rewrite !Forall_forall. intros Ht Hh x Hx.
  destruct (Ht _ Hx) as (_ & _ & Hty). specialize (Hh _ Hx).
  apply one_of_false. intros Hin. class_cases Hin; [done|by vm_compute in Hty..].
Qed.

Lemma stage_protect_id (s : list N) :
  Forall tidy_char s -> stage_protect s = s.
Proof. intros H. apply replace_absent. by apply tidy_dot_absent. Qed.

Lemma stage_restore_id (s : list N) :
  Forall tidy_char s -> stage_restore s = s.
Proof. intros H. apply replace_absent. by apply tidy_nul_absent. Qed.

Lemma stage_isolated_period_id (s : list N) :
  Forall tidy_char s -> stage_isolated_period s = s.
Proof.
  intros H. apply sub_nowhere.
  apply (nowhere_needs (just DOT)); [apply needs_dot_isolated_period|by apply tidy_no_dot].
Qed.

Lemma stage_dash_period_id (s : list N) :
  Forall tidy_char s -> stage_dash_period s = s.
Proof.
  intros H. apply sub_nowhere.
  apply (nowhere_needs (just DOT)); [apply needs_dot_dash_period|by apply tidy_no_dot].
Qed.

Lemma stage_period_dash_id (s : list N) :
  Forall tidy_char s -> stage_period_dash s = s.
Proof.
  intros H. apply sub_nowhere.
  apply (nowhere_needs (just DOT)); [apply needs_dot_period_dash|by apply tidy_no_dot].
Qed.

Lemma stage_leading_period_id (s : list N) :
  Forall tidy_char s -> stage_leading_period s = s.
Proof.
  intros H. apply sub_nowhere.
  apply (nowhere_needs (just DOT)); [apply needs_dot_leading_period|by apply tidy_no_dot].
Qed.

Lemma stage_dash_comma_id (s : list N) :
  Forall tidy_char s ->
  Forall (fun c => c <> HYPHEN) s \/ Forall (fun c => c <> 44%N) s ->
  stage_dash_comma s = s.
Proof.
  intros H [Hh|Hc]; apply sub_nowhere.
  - apply (nowhere_needs dash); [apply needs_dash_dash_comma|by apply tidy_no_dash].
  - apply (nowhere_needs (just 44%N)); [apply needs_comma_dash_comma|].
    eapply Forall_impl; [exact Hc|]. intros x Hx. by apply just_false.
Qed.

(** ** Lines of punctuation: [re_punct_line] *)

Lemma Chunks_inv_nil (prev : option N) (m rest : list N) :
  Chunks [] prev m rest -> m = [].
Proof. by inversion 1. Qed.

Lemma Chunks_inv_chr (c : N -> bool) (p : list item) (prev : option N)
      (m rest : list N) :
  Chunks (Chr c :: p) prev m rest ->
  exists x m', m = x :: m' /\ c x = true /\ Chunks p (Some x) m' rest.
Proof. inversion 1; subst. eauto. Qed.

Lemma Chunks_inv_rep (n : nat) (c : N -> bool) (p : list item) (prev : option N)
      (m rest : list N) :
  Chunks (AtLeast n c :: p) prev m rest ->
  exists run m', m = run ++ m' /\ Forall (fun x => c x = true) run
                 /\ (n <= length run)%nat
                 /\ Chunks p (last_char prev run) m' rest.
Proof. inversion 1; subst. eauto 10. Qed.

Lemma Chunks_inv_assert (alts : list assertion) (p : list item) (prev : option N)
      (m rest : list N) :
  Chunks (Assert alts :: p) prev m rest ->
  existsb (holds prev (m ++ rest)) alts = true /\ Chunks p prev m rest.
Proof. inversion 1; subst. eauto. Qed.

Lemma Chunks_punct_line (prev : option N) (m rest : list N) :
  Chunks re_punct_line prev m rest ->
  exists w1 pp w2,
    m = w1 ++ pp ++ w2
    /\ Forall (fun x => ws x = true) w1
    /\ Forall (fun x => punct x = true) pp /\ pp <> []
    /\ Forall (fun x => ws x = true) w2
    /\ at_line_start prev = true /\ at_line_end rest = true.
Proof.
  unfold re_punct_line. intros H.
  apply Chunks_inv_assert in H as [Hs H].
  apply Chunks_inv_rep in H as (w1 & m1 & -> & Hw1 & _ & H).
  apply Chunks_inv_rep in H as (pp & m2 & -> & Hpp & Hlen & H).
  apply Chunks_inv_rep in H as (w2 & m3 & -> & Hw2 & _ & H).
  apply Chunks_inv_assert in H as [He H].
  apply Chunks_inv_nil in H as ->.
  exists w1, pp, w2. rewrite app_nil_r. split; [done|].
  split; [done|]. split; [done|]. split; [destruct pp; [cbn in Hlen; lia|done]|].
  split; [done|]. split.
  - cbn in Hs. rewrite orb_false_r in Hs. unfold at_line_start. cbn.
    by destruct prev.
  - cbn [existsb app] in He. rewrite orb_false_r in He.
    unfold at_line_end. cbn in *. by destruct rest.
Qed.

Lemma punct_line_Chunks (prev : option N) (a pp b rest : list N) :
  Forall (fun x => ws x = true) a ->
  Forall (fun x => punct x = true) pp -> pp <> [] ->
  Forall (fun x => ws x = true) b ->
  at_line_start prev = true -> at_line_end rest = true ->
  Chunks re_punct_line prev (a ++ pp ++ b) rest.
Proof.
  intros Ha Hpp Hne Hb Hs He. unfold re_punct_line.
  constructor.
  { cbn. rewrite orb_false_r. unfold at_line_start in Hs. cbn in Hs. by destruct prev. }
  constructor; [done|cbn; lia|].
  constructor; [done|destruct pp; [done|cbn; lia]|].
  rewrite <- (app_nil_r b). constructor; [done|cbn; lia|].
  constructor; [|constructor].
  cbn [existsb app]. rewrite orb_false_r. unfold at_line_end in He. cbn in *.
  by destruct rest.
Qed.

Lemma line_step_other (q : lstate) (x : N) :
  x <> NL -> exists q', line_step q x = Some q'.
Proof.
  intros Hx. unfold line_step. rewrite (proj2 (N.eqb_neq x NL)) by done.
  destruct (ws x); [eauto|]. destruct (punct x); eauto.
Qed.

Lemma line_step_ws (q : lstate) (x : N) :
  ws x = true -> x <> NL ->
  line_step q x = Some (match q with L0 => L0 | L1 | L2 => L2 | L3 => L3 end).
Proof.
  intros Hw Hx. unfold line_step. rewrite (proj2 (N.eqb_neq x NL)) by done.
  by rewrite Hw.
Qed.

Lemma line_step_punct (q : lstate) (x : N) :
  punct x = true ->
  line_step q x = Some (match q with L0 | L1 => L1 | L2 | L3 => L3 end).
Proof.
  intros Hp. destruct (punct_not_ws x Hp) as [Hw Hx].
  unfold line_step. rewrite (proj2 (N.eqb_neq x NL)) by done.
  by rewrite Hw, Hp.
Qed.

Lemma line_step_NL (q : lstate) :
  line_step q NL = if line_end_ok q then Some L0 else None.
Proof. done. Qed.

Lemma lines_ok_ws_L0 (w t : list N) :
  Forall (fun x => ws x = true) w -> lines_ok L0 (w ++ t) = lines_ok L0 t.
Proof.
  induction 1 as [|x w Hx _ IH]; [done|]. cbn [app lines_ok].
  destruct (decide (x = NL)) as [->|Hne].
  - by rewrite line_step_NL.
  - by rewrite line_step_ws.
Qed.

Lemma lines_ok_punct_L1 (pp t : list N) :
  Forall (fun x => punct x = true) pp -> lines_ok L1 (pp ++ t) = lines_ok L1 t.
Proof.
  induction 1 as [|x pp Hx _ IH]; [done|]. cbn [app lines_ok].
  by rewrite line_step_punct.
Qed.

Lemma lines_ok_punct_L0 (pp t : list N) :
  Forall (fun x => punct x = true) pp -> pp <> [] ->
  lines_ok L0 (pp ++ t) = lines_ok L1 t.
Proof.
  intros Hpp Hne. destruct pp as [|x pp]; [done|].
  apply Forall_cons in Hpp as [Hx Hpp]. cbn [app lines_ok].
  rewrite line_step_punct by done. by apply lines_ok_punct_L1.
Qed.

Lemma lines_ok_tail_bad (q : lstate) (w rest : list N) :
  line_end_ok q = false ->
  Forall (fun x => ws x = true) w -> at_line_end rest = true ->
  lines_ok q (w ++ rest) = false.
Proof.
  intros Hq Hw He. revert q Hq. induction Hw as [|x w Hx _ IH]; intros q Hq.
  - cbn [app]. destruct rest as [|y rest]; [done|].
    unfold at_line_end in He. cbn in He. apply N.eqb_eq in He as ->.
    cbn [lines_ok]. by rewrite line_step_NL, Hq.
  - cbn [app lines_ok]. destruct (decide (x = NL)) as [->|Hne].
    + by rewrite line_step_NL, Hq.
    + rewrite line_step_ws by done. apply IH. by destruct q.
Qed.

(** A text without a punctuation-only line has no match at a line start. *)
Lemma lines_ok_no_match (prev : option N) (s : list N) :
  lines_ok L0 s = true -> match_at re_punct_line prev s = None.
Proof.
  intros Hok. destruct (match_at re_punct_line prev s) as [rest|] eqn:H; [|done].
  apply match_at_sound in H as (m & -> & Hm).
  apply Chunks_punct_line in Hm as (w1 & pp & w2 & -> & H1 & Hpp & Hne & H2 & _ & He).
  rewrite <- !app_assoc in Hok.
  rewrite lines_ok_ws_L0, lines_ok_punct_L0 in Hok by done.
  rewrite lines_ok_tail_bad in Hok by done. done.
Qed.

Lemma line_ok_L3 (s : list N) : line_ok L3 s = true.
Proof.
  induction s as [|x s IH]; [done|]. cbn [line_ok].
  destruct (x =? NL)%N eqn:E; [done|]. apply N.eqb_neq in E.
  unfold line_step. rewrite (proj2 (N.eqb_neq x NL)) by done.
  destruct (ws x); [done|]. by destruct (punct x).
Qed.

Lemma line_ok_L2_false (s : list N) :
  line_ok L2 s = false ->
  exists b rest, s = b ++ rest /\ Forall (fun x => ws x = true) b
                 /\ at_line_end rest = true.
Proof.
  induction s as [|x s IH]; cbn [line_ok]; intros H.
  - by exists [], [].
  - destruct (x =? NL)%N eqn:E.
    + exists [], (x :: s). repeat split; [constructor|].
      unfold at_line_end. by cbn.
    + apply N.eqb_neq in E. unfold line_step in H.
      rewrite (proj2 (N.eqb_neq x NL)) in H by done.
      destruct (ws x) eqn:Hw.
      * destruct (IH H) as (b & rest & -> & Hb & He).
        exists (x :: b), rest. repeat split; [by constructor|done].
      * destruct (punct x); by rewrite line_ok_L3 in H.
Qed.

Lemma line_ok_L1_false (s : list N) :
  line_ok L1 s = false ->
  exists pp b rest, s = pp ++ b ++ rest
                    /\ Forall (fun x => punct x = true) pp
                    /\ Forall (fun x => ws x = true) b
                    /\ at_line_end rest = true.
Proof.
  induction s as [|x s IH]; cbn [line_ok]; intros H.
  - by exists [], [], [].
  - destruct (x =? NL)%N eqn:E.
    + exists [], [], (x :: s). repeat split; [constructor..|].
      unfold at_line_end. by cbn.
    + apply N.eqb_neq in E. unfold line_step in H.
      rewrite (proj2 (N.eqb_neq x NL)) in H by done.
      destruct (ws x) eqn:Hw.
      * apply line_ok_L2_false in H as (b & rest & -> & Hb & He).
        exists [], (x :: b), rest. repeat split; [constructor|by constructor|done].
      * destruct (punct x) eqn:Hp; [|by rewrite line_ok_L3 in H].
        destruct (IH H) as (pp & b & rest & -> & Hpp & Hb & He).
        exists (x :: pp), b, rest. repeat split; [by constructor|done..].
Qed.

Lemma line_ok_L0_false (s : list N) :
  line_ok L0 s = false ->
  exists a pp b rest, s = a ++ pp ++ b ++ rest
                      /\ Forall (fun x => ws x = true) a
                      /\ Forall (fun x => punct x = true) pp /\ pp <> []
                      /\ Forall (fun x => ws x = true) b
                      /\ at_line_end rest = true.
Proof.
  induction s as [|x s IH]; cbn [line_ok]; intros H; [done|].
  destruct (x =? NL)%N eqn:E; [done|].
  apply N.eqb_neq in E. unfold line_step in H.
  rewrite (proj2 (N.eqb_neq x NL)) in H by done.
  destruct (ws x) eqn:Hw.
  - destruct (IH H) as (a & pp & b & rest & -> & Ha & Hpp & Hne & Hb & He).
    exists (x :: a), pp, b, rest. repeat split; [by constructor|done..].
  - destruct (punct x) eqn:Hp; [|by rewrite line_ok_L3 in H].
    apply line_ok_L1_false in H as (pp & b & rest & -> & Hpp & Hb & He).
    exists [], (x :: pp), b, rest. repeat split; [constructor|by constructor|done..].
Qed.

(** At a line start, a punctuation-only line is matched. *)
Lemma line_ok_match (prev : option N) (s : list N) :
  at_line_start prev = true -> match_at re_punct_line prev s = None ->
  line_ok L0 s = true.
Proof.
  intros Hs Hnone. destruct (line_ok L0 s) eqn:H; [done|].
  apply line_ok_L0_false in H as (a & pp & b & rest & -> & Ha & Hpp & Hne & Hb & He).
  pose proof (punct_line_Chunks prev a pp b rest Ha Hpp Hne Hb Hs He) as Hc.
  apply match_at_complete in Hc as [r Hr].
  rewrite <- !app_assoc in Hr. rewrite Hr in Hnone. done.
Qed.

Lemma match_punct_line_start (prev : option N) (s rest : list N) :
  match_at re_punct_line prev s = Some rest -> at_line_start prev = true.
Proof.
  intros H. apply match_at_sound in H as (m & -> & Hm).
  by apply Chunks_punct_line in Hm as (w1 & pp & w2 & _ & _ & _ & _ & _ & ? & _).
Qed.

Lemma no_match_off_line_start (prev : option N) (s : list N) :
  at_line_start prev = false -> match_at re_punct_line prev s = None.
Proof.
  intros Hs. destruct (match_at re_punct_line prev s) eqn:H; [|done].
  apply match_punct_line_start in H. congruence.
Qed.

(** After the punctuation-only lines have been removed there is none left. *)
Lemma Scan_punct_line_ok (prev : option N) (s out : list N) :
  Scan re_punct_line (fun _ => []) prev s out ->
  forall q,
    (if at_line_start prev then q = L0 else line_ok q s = true) ->
    lines_ok q out = true.
Proof.
  induction 1 as [prev|prev c s out Hm _ IH|prev m rest out Hne Hm _ IH];
    intros q Hq.
  - destruct (at_line_start prev); [by subst|done].
  - assert (Hline : line_ok q (c :: s) = true).
    { destruct (at_line_start prev) eqn:Hs; [|done]. subst q.
      by apply (line_ok_match prev). }
    cbn [line_ok] in Hline. cbn [lines_ok].
    destruct (decide (c = NL)) as [->|Hc].
    + rewrite N.eqb_refl in Hline. rewrite line_step_NL, Hline.
      by apply IH.
    + rewrite (proj2 (N.eqb_neq c NL)) in Hline by done.
      destruct (line_step q c) as [q'|]; [|done]. apply IH.
      unfold at_line_start. cbn. by rewrite (proj2 (N.eqb_neq c NL)).
  - pose proof (match_punct_line_start _ _ _ Hm) as Hs. rewrite Hs in Hq. subst q.
    apply match_at_sound in Hm as (m' & E & Hc). apply app_inv_tail in E as <-.
    apply Chunks_punct_line in Hc as (w1 & pp & w2 & _ & _ & _ & _ & _ & _ & He).
    cbn [app]. apply IH.
    destruct (at_line_start (last_char prev m)); [done|].
    unfold at_line_end in He. cbn in He. destruct rest as [|y rest]; [done|].
    cbn [line_ok]. by rewrite He.
Qed.

(** Without a punctuation-only line, [re_punct_line] matches nowhere. *)
Lemma lines_ok_nowhere (s : list N) :
  forall q prev,
    lines_ok q s = true -> (at_line_start prev = true -> q = L0) ->
    nowhere re_punct_line prev s.
Proof.
  induction s as [|c s IH]; intros q prev Hok Hq.
  - split; [|done]. destruct (at_line_start prev) eqn:Hs.
    + rewrite (Hq eq_refl) in Hok. by apply lines_ok_no_match.
    + by apply no_match_off_line_start.
  - split.
    + destruct (at_line_start prev) eqn:Hs.
      * rewrite (Hq eq_refl) in Hok. by apply lines_ok_no_match.
      * by apply no_match_off_line_start.
    + cbn [lines_ok] in Hok. destruct (line_step q c) as [q'|] eqn:Hstep; [|done].
      apply (IH q'); [done|]. unfold at_line_start. cbn. intros E.
      apply N.eqb_eq in E as ->. rewrite line_step_NL in Hstep.
      destruct (line_end_ok q); congruence.
Qed.

(** ** Runs of one character: [re_spaces] and [re_newlines] *)

Lemma match_rep1 (c : N -> bool) (s : list N) :
  forall n prev,
    match_at [AtLeast n c] prev s =
      if decide (n <= run_len c s)%nat then Some (drop_while c s) else None.
Proof.
  cbn [match_at]. induction s as [|x s IH]; intros n prev; cbn [rep run_len drop_while].
  - destruct n; [by rewrite decide_True by lia|by rewrite decide_False by lia].
  - destruct (c x) eqn:Hc.
    + rewrite IH. destruct (decide (pred n <= run_len c s)%nat).
      * by rewrite decide_True by lia.
      * rewrite decide_False by lia. destruct n; [lia|done].
    + destruct n; [by rewrite decide_True by lia|by rewrite decide_False by lia].
Qed.

Lemma run_split (c : N -> bool) (s : list N) :
  exists run, s = run ++ drop_while c s
              /\ Forall (fun x => c x = true) run /\ length run = run_len c s.
Proof.
  induction s as [|x s (run & E & Hrun & Hlen)]; cbn [drop_while run_len].
  - by exists [].
  - destruct (c x) eqn:Hc.
    + exists (x :: run). cbn [app length]. rewrite <- E, Hlen.
      repeat split; try done. by constructor.
    + by exists [].
Qed.

Lemma run_len_drop (c : N -> bool) (s : list N) : run_len c (drop_while c s) = O.
Proof.
  induction s as [|x s IH]; [done|]. cbn [drop_while].
  destruct (c x) eqn:Hc; [done|]. cbn [run_len]. by rewrite Hc.
Qed.

Lemma run_len_app (c : N -> bool) (run t : list N) :
  Forall (fun x => c x = true) run ->
  run_len c (run ++ t) = (length run + run_len c t)%nat.
Proof.
  induction 1 as [|x run Hx _ IH]; [done|]. cbn [app run_len length].
  rewrite Hx, IH. done.
Qed.

Lemma match_collapse (c : N -> bool) (n : nat) (prev : option N) (m rest : list N) :
  match_at [AtLeast n c] prev (m ++ rest) = Some rest ->
  Forall (fun x => c x = true) m /\ (n <= length m)%nat /\ run_len c rest = O.
Proof.
  rewrite match_rep1. case_decide as Hn; [|done]. intros [= E].
  destruct (run_split c (m ++ rest)) as (run & Hs & Hrun & Hlen).
  rewrite E in Hs. apply app_inv_tail in Hs as ->.
  split; [done|]. split; [lia|]. rewrite <- E. apply run_len_drop.
Qed.

Lemma short_runs_nowhere (c : N -> bool) (n : nat) (s : list N) :
  forall prev, short_runs c n s -> nowhere [AtLeast n c] prev s.
Proof.
  induction s as [|x s IH]; intros prev [Hlen Hrest].
  - split; [|done]. rewrite match_rep1. by rewrite decide_False by lia.
  - split; [|by apply IH]. rewrite match_rep1. by rewrite decide_False by lia.
Qed.

Lemma short_runs_app_r (c : N -> bool) (n : nat) (m s : list N) :
  short_runs c n (m ++ s) -> short_runs c n s.
Proof.
  induction m as [|x m IH]; [done|]. cbn [app]. intros [_ H]. by apply IH.
Qed.

Lemma adj_free_app_r (a b : N -> bool) (m s : list N) :
  adj_free a b (m ++ s) -> adj_free a b s.
Proof.
  induction m as [|x m IH]; [done|]. cbn [app]. intros [_ H]. by apply IH.
Qed.

Lemma adj_free_cons (a b : N -> bool) (x : N) (s : list N) :
  adj_free a b (x :: s) <->
  (forall y, head s = Some y -> ~ (a x = true /\ b y = true)) /\ adj_free a b s.
Proof.
  cbn [adj_free]. destruct s as [|y s]; cbn [head].
  - split; [intros [_ H]; split; [done|done]|intros [_ H]; by split].
  - split; intros [H1 H2]; (split; [|done]).
    + by intros ? [= <-].
    + by apply H1.
Qed.

Lemma replicate_of_run (z : N) (run : list N) :
  Forall (fun x => just z x = true) run -> run = replicate (length run) z.
Proof.
  induction 1 as [|x run Hx _ IH]; [done|]. cbn [length replicate].
  apply just_true in Hx as ->. by f_equal.
Qed.

Section collapse.

(** The runs of [z] of length [n] or more are replaced by [k] of them. *)
Variable z : N.
Variables n k : nat.
Hypothesis k_pos : (0 < k)%nat.
Hypothesis k_lt_n : (k < n)%nat.

Let p : list item := [AtLeast n (just z)].
Let repl : list N -> list N := fun _ => replicate k z.

Lemma run_len_replicate (j : nat) (t : list N) :
  run_len (just z) (replicate j z ++ t) = (j + run_len (just z) t)%nat.
Proof.
  rewrite run_len_app; [by rewrite length_replicate|].
  apply Forall_replicate. unfold just. apply N.eqb_refl.
Qed.

Lemma short_runs_replicate (j : nat) (t : list N) :
  (j < n)%nat -> run_len (just z) t = O -> short_runs (just z) n t ->
  short_runs (just z) n (replicate j z ++ t).
Proof.
  intros Hj Ht Hs. induction j as [|j IH]; [done|].
  cbn [replicate app]. split; [|apply IH; lia].
  change (z :: replicate j z ++ t) with (replicate (S j) z ++ t).
  rewrite run_len_replicate. lia.
Qed.

Lemma collapse_short_runs (prev : option N) (s out : list N) :
  Scan p repl prev s out ->
  short_runs (just z) n out /\ (run_len (just z) out <= run_len (just z) s)%nat.
Proof.
  induction 1 as [prev|prev c s out Hm _ [IH1 IH2]|prev m rest out Hne Hm _ [IH1 IH2]].
  - split; [|done]. split; [cbn; lia|done].
  - unfold p in Hm. rewrite match_rep1 in Hm. case_decide as Hn; [done|].
    assert (run_len (just z) (c :: out) <= run_len (just z) (c :: s))%nat
      by (cbn [run_len]; destruct (just z c); lia).
    split; [|done]. split; [lia|done].
  - apply match_collapse in Hm as (Hrun & Hlen & Hrest).
    assert (Hout : run_len (just z) out = O) by lia.
    unfold repl. split.
    + apply short_runs_replicate; [lia|done..].
    + rewrite run_len_replicate, run_len_app, Hrest, Hout by done. lia.
Qed.

(** A class that [z] is not in keeps its short runs. *)
Lemma collapse_short_runs_other (c : N -> bool) (bound : nat)
      (prev : option N) (s out : list N) :
  c z = false -> (0 < bound)%nat ->
  Scan p repl prev s out -> short_runs c bound s ->
  short_runs c bound out /\ (run_len c out <= run_len c s)%nat.
Proof.
  intros Hz Hb.
  induction 1 as [prev|prev x s out Hm _ IH|prev m rest out Hne Hm _ IH]; intros Hs.
  - done.
  - destruct Hs as [Hlen Hs]. destruct (IH Hs) as [IH1 IH2].
    assert (run_len c (x :: out) <= run_len c (x :: s))%nat
      by (cbn [run_len]; destruct (c x); lia).
    split; [|done]. split; [lia|done].
  - destruct (IH (short_runs_app_r _ _ _ _ Hs)) as [IH1 IH2].
    assert (Hzero : forall j t, (0 < j)%nat -> run_len c (replicate j z ++ t) = O).
    { intros [|j] t Hj; [lia|]. cbn [replicate app run_len]. by rewrite Hz. }
    unfold repl. split; [|rewrite Hzero by done; lia].
    clear -Hzero Hb IH1 k_pos. induction k as [|j IHj]; [done|].
    cbn [replicate app]. split; [|destruct j; [done|apply IHj; lia]].
    change (z :: replicate j z ++ out) with (replicate (S j) z ++ out).
    rewrite Hzero; lia.
Qed.

Lemma collapse_adj_free (a b : N -> bool) (prev : option N) (s out : list N) :
  a z = false ->
  Scan p repl prev s out -> adj_free a b s ->
  adj_free a b out /\ head out = head s.
Proof.
  intros Hz.
  induction 1 as [prev|prev x s out Hm _ IH|prev m rest out Hne Hm _ IH]; intros Hs.
  - done.
  - apply adj_free_cons in Hs as [Hx Hs]. destruct (IH Hs) as [IH1 IH2].
    split; [|done]. apply adj_free_cons. split; [|done]. by rewrite IH2.
  - destruct (IH (adj_free_app_r _ _ _ _ Hs)) as [IH1 IH2].
    apply match_collapse in Hm as (Hrun & Hlen & Hrest).
    unfold repl. split.
    + clear -Hz IH1. induction k as [|j IHj]; [done|].
      cbn [replicate app]. apply adj_free_cons. split; [|done].
      intros y _ [Ha _]. congruence.
    + destruct m as [|x m]; [done|]. apply Forall_cons in Hrun as [Hx _].
      apply just_true in Hx as ->. destruct k; [lia|done].
Qed.

Lemma lines_ok_replicate (j : nat) (q : lstate) (t : list N) :
  stutters z -> (0 < j)%nat ->
  lines_ok q (replicate j z ++ t) =
    match line_step q z with Some q1 => lines_ok q1 t | None => false end.
Proof.
  intros Hst Hj. destruct j as [|j]; [lia|]. cbn [replicate app lines_ok].
  pose proof (Hst q) as Hq. destruct (line_step q z) as [q1|]; [|done].
  clear Hj. induction j as [|j IHj]; [done|].
  cbn [replicate app lines_ok]. by rewrite Hq.
Qed.

Lemma collapse_lines_ok (prev : option N) (s out : list N) :
  stutters z ->
  Scan p repl prev s out -> forall q, lines_ok q out = lines_ok q s.
Proof.
  intros Hst.
  induction 1 as [prev|prev x s out Hm _ IH|prev m rest out Hne Hm _ IH]; intros q.
  - done.
  - cbn [lines_ok]. destruct (line_step q x); [apply IH|done].
  - apply match_collapse in Hm as (Hrun & Hlen & Hrest).
    rewrite (replicate_of_run z m Hrun). unfold repl.
    rewrite !lines_ok_replicate by (done || lia).
    destruct (line_step q z); [apply IH|done].
Qed.

Lemma collapse_Forall (P : N -> Prop) (prev : option N) (s out : list N) :
  P z -> Scan p repl prev s out -> Forall P s -> Forall P out.
Proof.
  intros Hz. apply Scan_Forall. intros m _. by apply Forall_replicate.
Qed.

End collapse.

(** ** A missing space after a sentence: [re_missing_space] *)

Lemma match_missing_space (prev : option N) (m rest : list N) :
  match_at re_missing_space prev (m ++ rest) = Some rest ->
  exists x y, m = [x; y] /\ sentence_end x = true /\ letter y = true.
Proof.
  intros H. apply match_at_sound in H as (m' & E & Hc).
  apply app_inv_tail in E as <-. unfold re_missing_space in Hc.
  apply Chunks_inv_chr in Hc as (x & m1 & -> & Hx & Hc).
  apply Chunks_inv_chr in Hc as (y & m2 & -> & Hy & Hc).
  apply Chunks_inv_nil in Hc as ->. eauto.
Qed.

Lemma no_match_missing_space (prev : option N) (x y : N) (s : list N) :
  match_at re_missing_space prev (x :: y :: s) = None ->
  ~ (sentence_end x = true /\ letter y = true).
Proof.
  unfold re_missing_space. cbn [match_at]. intros H [Hx Hy].
  by rewrite Hx, Hy in H.
Qed.

Lemma adj_free_nowhere (s : list N) :
  forall prev, adj_free sentence_end letter s -> nowhere re_missing_space prev s.
Proof.
  induction s as [|x s IH]; intros prev Hs; [done|].
  apply adj_free_cons in Hs as [Hx Hs]. split; [|by apply IH].
  unfold re_missing_space.
  destruct s as [|y s]; cbn [match_at]; [by destruct (sentence_end x)|].
  destruct (sentence_end x) eqn:Ex; [|done].
  destruct (letter y) eqn:Ey; [|done].
  by destruct (Hx y eq_refl).
Qed.

Lemma line_step_letter (q : lstate) (y : N) :
  letter y = true -> line_step q y = Some L3.
Proof.
  intros H. destruct (letter_facts y H) as (Hnl & _ & Hw & Hp & _).
  unfold line_step. rewrite (proj2 (N.eqb_neq y NL)) by done.
  by rewrite Hw, Hp.
Qed.

Lemma missing_space_adj_free (prev : option N) (s out : list N) :
  Scan re_missing_space repl_space_between prev s out ->
  adj_free sentence_end letter out /\ head out = head s.
Proof.
  induction 1 as [prev|prev c s out Hm _ [IH1 IH2]|prev m rest out Hne Hm _ [IH1 IH2]].
  - done.
  - split; [|done]. apply adj_free_cons. split; [|done].
    intros y Hy. rewrite IH2 in Hy. destruct s as [|y2 s]; [done|].
    injection Hy as ->. by apply (no_match_missing_space prev c y s).
  - apply match_missing_space in Hm as (x & y & -> & Hx & Hy).
    destruct (sentence_end_facts x Hx) as (_ & _ & Hlx).
    destruct (letter_facts y Hy) as (_ & _ & _ & _ & Hsy).
    cbn [repl_space_between app]. split; [|done].
    apply adj_free_cons. split; [by intros ? [= <-] [_ ?]|].
    apply adj_free_cons. split; [by intros ? [= <-] [? _]|].
    apply adj_free_cons. split; [|done].
    intros y2 _ [Hsy2 _]. congruence.
Qed.

Lemma missing_space_lines_ok (prev : option N) (s out : list N) :
  Scan re_missing_space repl_space_between prev s out ->
  forall q, lines_ok q out = lines_ok q s.
Proof.
  induction 1 as [prev|prev c s out Hm _ IH|prev m rest out Hne Hm _ IH]; intros q.
  - done.
  - cbn [lines_ok]. destruct (line_step q c); [apply IH|done].
  - apply match_missing_space in Hm as (x & y & -> & Hx & Hy).
    destruct (sentence_end_facts x Hx) as (Hnl & _ & _).
    cbn [repl_space_between app lines_ok].
    destruct (line_step_other q x Hnl) as [qx ->].
    destruct (line_step_other qx SPACE) as [qs ->]; [done|].
    rewrite !line_step_letter by done. apply IH.
Qed.

Lemma missing_space_Forall (P : N -> Prop) (prev : option N) (s out : list N) :
  P SPACE ->
  Scan re_missing_space repl_space_between prev s out ->
  Forall P s -> Forall P out.
Proof.
  intros Hsp. apply Scan_Forall. intros m Hm.
  destruct m as [|a [|b [|c m]]]; cbn [repl_space_between]; try done.
  apply Forall_cons in Hm as [Ha Hm]. apply Forall_cons in Hm as [Hb _].
  by repeat constructor.
Qed.

(** ** The typographic replacements *)

Lemma typography_char_plain (c : N) :
  typographic c = false -> typography_char c = [c].
Proof.
  unfold typographic, one_of. cbn [existsb]. rewrite !orb_false_iff.
  intros (H1 & H2 & H3 & H4 & H5 & H6 & H7 & H8 & _).
  unfold typography_char. by rewrite H1, H2, H3, H4, H5, H6, H7, H8.
Qed.

Lemma stage_typography_flat_map (s : list N) :
  stage_typography s = flat_map typography_char s.
Proof.
  unfold stage_typography, replacements, fold_left.
  rewrite !replace_single, !flat_map_flat_map.
  apply flat_map_ext. intros a.
  destruct (typographic a) eqn:Ht.
  - apply one_of_true in Ht. class_cases Ht; reflexivity.
  - rewrite typography_char_plain by done.
    unfold typographic, one_of in Ht. cbn [existsb] in Ht.
    rewrite !orb_false_iff in Ht.
    destruct Ht as (H1 & H2 & H3 & H4 & H5 & H6 & H7 & H8 & _).
    rewrite N.eqb_sym in H1, H2, H3, H4, H5, H6, H7, H8.
    rewrite H1. cbn [flat_map app]. rewrite H2. cbn [flat_map app].
    rewrite H3. cbn [flat_map app]. rewrite H4. cbn [flat_map app].
    rewrite H5. cbn [flat_map app]. rewrite H6. cbn [flat_map app].
    rewrite H7. cbn [flat_map app]. rewrite H8. reflexivity.
Qed.

Lemma typography_char_cases (c : N) :
  typography_char c = [c] /\ typographic c = false
  \/ (typography_char c = [39%N] \/ typography_char c = [34%N]
      \/ typography_char c = [SPACE])
  \/ c = ELLIPSIS_CHAR.
Proof.
  destruct (typographic c) eqn:Ht.
  - apply one_of_true in Ht.
    class_cases Ht; try (by right; right);
      right; left; vm_compute; tauto.
  - left. split; [by apply typography_char_plain|done].
Qed.

Lemma stage_typography_Forall (P : N -> Prop) (s : list N) :
  P 39%N -> P 34%N -> P SPACE -> ELLIPSIS_CHAR ∉ s ->
  (forall c, c ∈ s -> typographic c = false -> P c) ->
  Forall P (stage_typography s).
Proof.
  intros H39 H34 Hsp Hell HP. rewrite stage_typography_flat_map.
  induction s as [|c s IH]; [done|]. cbn [flat_map].
  apply not_elem_of_cons in Hell as [Hc Hell].
  apply Forall_app. split.
  - destruct (typography_char_cases c) as [[-> Ht]|[[-> | [-> | ->]]|E]];
      try by repeat constructor.
    repeat constructor. apply HP; [by left|done].
  - apply IH; [done|]. intros c2 Hc2. apply HP. by right.
Qed.

Lemma stage_typography_id (s : list N) :
  Forall tidy_char s -> stage_typography s = s.
Proof.
  intros H. rewrite stage_typography_flat_map.
  induction H as [|c s (_ & _ & Ht) _ IH]; [done|]. cbn [flat_map].
  by rewrite typography_char_plain, IH.
Qed.

(** ** The cleanup as a whole *)

Lemma clean_stages (text : list N) :
  _clean_for_tts text =
    stage_newlines (stage_spaces (stage_restore (stage_leading_period
      (stage_period_dash (stage_dash_comma (stage_dash_period
        (stage_missing_space (stage_punct_line (stage_isolated_period
          (stage_protect (stage_typography text))))))))))).
Proof. reflexivity. Qed.

Lemma Scan_punct_line_stage (s : list N) :
  Scan re_punct_line (fun _ => []) None s (stage_punct_line s).
Proof. apply sub_Scan, consuming_punct_line. Qed.

Lemma Scan_missing_space_stage (s : list N) :
  Scan re_missing_space repl_space_between None s (stage_missing_space s).
Proof. apply sub_Scan, consuming_missing_space. Qed.

Lemma Scan_spaces_stage (s : list N) :
  Scan [AtLeast 2 (just SPACE)] (fun _ => replicate 1 SPACE) None s (stage_spaces s).
Proof. exact (sub_Scan re_spaces (fun _ => lit " ") s consuming_spaces). Qed.

Lemma Scan_newlines_stage (s : list N) :
  Scan [AtLeast 3 (just NL)] (fun _ => replicate 2 NL) None s (stage_newlines s).
Proof. exact (sub_Scan re_newlines (fun _ => [NL; NL]) s consuming_newlines). Qed.

Lemma stutters_space : stutters SPACE.
Proof. intros q. by destruct q. Qed.

Lemma stutters_newline : stutters NL.
Proof. intros q. by destruct q. Qed.

(** What holds of every character of the input, of the quotes that replace
    the curly ones, of the space and of the newline, holds of every
    character of the result of the four stages that rewrite a text without
    periods. *)
Lemma active_stages_Forall (P : N -> Prop) (s : list N) :
  P SPACE -> P NL -> Forall P s ->
  Forall P (stage_newlines (stage_spaces (stage_missing_space (stage_punct_line s)))).
Proof.
  intros Hsp Hnl Hs.
  apply (collapse_Forall NL 3 2 P None _ _ Hnl (Scan_newlines_stage _)).
  apply (collapse_Forall SPACE 2 1 P None _ _ Hsp (Scan_spaces_stage _)).
  apply (missing_space_Forall P None _ _ Hsp (Scan_missing_space_stage _)).
  apply (Scan_Forall P _ _ None _ _ (fun _ _ => Forall_nil_2 P)
           (Scan_punct_line_stage _)).
  done.
Qed.

Lemma tidy_space : tidy_char SPACE.
Proof. by repeat split. Qed.

Lemma tidy_newline : tidy_char NL.
Proof. by repeat split. Qed.

(** A settled text is a fixed point of the cleanup. *)
Lemma settled_fixed (text : list N) :
  settled text -> _clean_for_tts text = text.
Proof.
  intros (Htidy & Hhc & Hlines & Hadj & Hsp & Hnl).
  rewrite clean_stages.
  rewrite stage_typography_id, stage_protect_id, stage_isolated_period_id by done.
  assert (E4 : stage_punct_line text = text).
  { apply sub_nowhere. by apply (lines_ok_nowhere text L0 None). }
  rewrite E4.
  assert (E5 : stage_missing_space text = text).
  { apply sub_nowhere. by apply adj_free_nowhere. }
  rewrite E5.
  rewrite stage_dash_period_id, stage_dash_comma_id, stage_period_dash_id,
    stage_leading_period_id, stage_restore_id by done.
  assert (E11 : stage_spaces text = text).
  { apply sub_nowhere. by apply (short_runs_nowhere (just SPACE) 2). }
  rewrite E11.
  apply sub_nowhere. by apply (short_runs_nowhere (just NL) 3).
Qed.

(** On a plain text the cleanup comes down to four of its stages. *)
Lemma plain_clean (text : list N) :
  plain text ->
  Forall tidy_char (stage_typography text)
  /\ (Forall (fun c => c <> HYPHEN) (stage_typography text)
      \/ Forall (fun c => c <> 44%N) (stage_typography text))
  /\ _clean_for_tts text =
       stage_newlines (stage_spaces (stage_missing_space
         (stage_punct_line (stage_typography text)))).
Proof.
  intros [Hplain Hhc]. rewrite Forall_forall in Hplain.
  assert (Hell : ELLIPSIS_CHAR ∉ text).
  { intros Hin. by destruct (Hplain _ Hin) as (_ & ? & _). }
  assert (Htidy : Forall tidy_char (stage_typography text)).
  { apply stage_typography_Forall; try done.
    intros c Hc Ht. destruct (Hplain _ Hc) as (? & _ & ?). by repeat split. }
  assert (Hhc1 : Forall (fun c => c <> HYPHEN) (stage_typography text)
                 \/ Forall (fun c => c <> 44%N) (stage_typography text)).
  { destruct Hhc as [Hh|Hc]; [left|right];
      (apply stage_typography_Forall; try done);
      rewrite Forall_forall in *; eauto. }
  split; [done|]. split; [done|].
  set (y1 := stage_typography text) in *.
  assert (Htidy5 : Forall tidy_char (stage_missing_space (stage_punct_line y1))).
  { apply (missing_space_Forall _ None _ _ tidy_space (Scan_missing_space_stage _)).
    by apply (Scan_Forall _ _ _ None _ _ (fun _ _ => Forall_nil_2 _)
                (Scan_punct_line_stage _)). }
  assert (Hhc5 : Forall (fun c => c <> HYPHEN) (stage_missing_space (stage_punct_line y1))
                 \/ Forall (fun c => c <> 44%N) (stage_missing_space (stage_punct_line y1))).
  { destruct Hhc1 as [Hh|Hc]; [left|right].
    - apply (missing_space_Forall _ None _ _ (ltac:(done) : SPACE <> HYPHEN)
               (Scan_missing_space_stage _)).
      by apply (Scan_Forall _ _ _ None _ _ (fun _ _ => Forall_nil_2 _)
                  (Scan_punct_line_stage _)).
    - apply (missing_space_Forall _ None _ _ (ltac:(done) : SPACE <> 44%N)
               (Scan_missing_space_stage _)).
      by apply (Scan_Forall _ _ _ None _ _ (fun _ _ => Forall_nil_2 _)
                  (Scan_punct_line_stage _)). }
  rewrite clean_stages. fold y1.
  rewrite stage_protect_id, stage_isolated_period_id by done.
  rewrite stage_dash_period_id, stage_dash_comma_id, stage_period_dash_id,
    stage_leading_period_id, stage_restore_id by done.
  done.
Qed.

(** What the four stages leave behind. *)
Lemma active_stages_settle (s : list N) :
  lines_ok L0 (stage_newlines (stage_spaces (stage_missing_space (stage_punct_line s))))
    = true
  /\ adj_free sentence_end letter
       (stage_newlines (stage_spaces (stage_missing_space (stage_punct_line s))))
  /\ short_runs (just SPACE) 2
       (stage_newlines (stage_spaces (stage_missing_space (stage_punct_line s))))
  /\ short_runs (just NL) 3
       (stage_newlines (stage_spaces (stage_missing_space (stage_punct_line s)))).
Proof.
  set (y4 := stage_punct_line s).
  set (y5 := stage_missing_space y4).
  set (y11 := stage_spaces y5).
  assert (H4 : lines_ok L0 y4 = true)
    by (by apply (Scan_punct_line_ok None s y4 (Scan_punct_line_stage s) L0)).
  assert (H5 : adj_free sentence_end letter y5)
    by apply (missing_space_adj_free None y4 y5 (Scan_missing_space_stage y4)).
  assert (H11 : short_runs (just SPACE) 2 y11)
    by (apply (collapse_short_runs SPACE 2 1 ltac:(lia) ltac:(lia) None y5 y11
                 (Scan_spaces_stage y5))).
  split; [|split; [|split]].
  - rewrite (collapse_lines_ok NL 3 2 ltac:(lia) ltac:(lia) None y11 _ stutters_newline
               (Scan_newlines_stage y11)).
    rewrite (collapse_lines_ok SPACE 2 1 ltac:(lia) ltac:(lia) None y5 _ stutters_space
               (Scan_spaces_stage y5)).
    by rewrite (missing_space_lines_ok None y4 y5 (Scan_missing_space_stage y4)).
  - apply (collapse_adj_free NL 3 2 ltac:(lia) ltac:(lia) sentence_end letter None y11 _
             eq_refl (Scan_newlines_stage y11)).
    by apply (collapse_adj_free SPACE 2 1 ltac:(lia) ltac:(lia) sentence_end letter None y5 _
                eq_refl (Scan_spaces_stage y5)).
  - by apply (collapse_short_runs_other NL 3 2 ltac:(lia) ltac:(lia) (just SPACE) 2 None y11 _
                eq_refl ltac:(lia) (Scan_newlines_stage y11)).
  - apply (collapse_short_runs NL 3 2 ltac:(lia) ltac:(lia) None y11 _ (Scan_newlines_stage y11)).
Qed.

Lemma plain_settled (text : list N) :
  plain text -> settled (_clean_for_tts text).
Proof.
  intros Hp. destruct (plain_clean text Hp) as (Htidy & Hhc & ->).
  destruct (active_stages_settle (stage_typography text)) as (H1 & H2 & H3 & H4).
  split; [|split; [|done]].
  - by apply active_stages_Forall; [apply tidy_space|apply tidy_newline|].
  - destruct Hhc as [Hh|Hc]; [left|right]; by apply active_stages_Forall.
Qed.

(** C6.  The cleanup is not stable under a second application: on
    ["a -."] the rewrite of a dash and period to a period, which runs
    after the removal of the isolated periods, leaves an isolated period
    behind, and a second pass removes it. *)
Lemma clean_for_tts_not_idempotent :
  _clean_for_tts (lit "a -.") = lit "a . "
  /\ _clean_for_tts (_clean_for_tts (lit "a -.")) = lit "a "
  /\ _clean_for_tts (_clean_for_tts (lit "a -.")) <> _clean_for_tts (lit "a -.").
Proof. vm_compute. repeat split. discriminate. Qed.



(* ================================================================== *)
(** * Further properties *)
(* ================================================================== *)

(** ** The cleanup, on every input *)

Lemma consuming_dash_period : consuming re_dash_period.
Proof. apply Exists_cons_hd. exact I. Qed.
Lemma consuming_dash_comma : consuming re_dash_comma.
Proof. apply Exists_cons_hd. exact I. Qed.
Lemma consuming_period_dash : consuming re_period_dash.
Proof. apply Exists_cons_tl, Exists_cons_hd. exact I. Qed.
Lemma consuming_leading_period : consuming re_leading_period.
Proof. do 2 apply Exists_cons_tl. apply Exists_cons_hd. cbn. lia. Qed.

(** [re.sub] with a fixed replacement keeps what holds of every character
    of the text and of the replacement. *)
Lemma sub_Forall (P : N -> Prop) (p : list item) (new s : list N) :
  consuming p -> Forall P new -> Forall P s ->
  Forall P (sub p (fun _ => new) s).
Proof.
  intros Hp Hnew Hs.
  by apply (Scan_Forall P p (fun _ => new) None s _ (fun _ _ => Hnew)
              (sub_Scan p _ s Hp)).
Qed.

Lemma replace_scan_Forall (P : N -> Prop) (old new s : list N) :
  Forall P new -> Forall P s ->
  forall skip, Forall P (replace_scan old new skip s).
Proof.
  intros Hnew Hs. induction Hs as [|x s Hx Hs IH]; intros skip; [done|].
  cbn [replace_scan]. destruct skip as [|k]; [|apply IH].
  destruct (starts_with old (x :: s)).
  - apply Forall_app. split; [done|apply IH].
  - constructor; [done|apply IH].
Qed.

Lemma replace_Forall (P : N -> Prop) (c : N) (old new s : list N) :
  Forall P new -> Forall P s -> Forall P (replace (c :: old) new s).
Proof. intros Hnew Hs. by apply replace_scan_Forall. Qed.

Lemma typography_char_clean (c : N) :
  Forall (fun x => typographic x = false) (typography_char c).
Proof.
  destruct (typographic c) eqn:Ht.
  - apply one_of_true in Ht. class_cases Ht; vm_compute; by repeat constructor.
  - rewrite typography_char_plain by done. by constructor.
Qed.

Lemma stage_typography_clean (s : list N) :
  Forall (fun x => typographic x = false) (stage_typography s).
Proof.
  rewrite stage_typography_flat_map. induction s as [|c s IH]; [done|].
  cbn [flat_map]. apply Forall_app. split; [apply typography_char_clean|done].
Qed.

Lemma short_runs_no_run (c : N -> bool) (n : nat) (l1 run l2 : list N) :
  short_runs c n (l1 ++ run ++ l2) ->
  Forall (fun x => c x = true) run -> (length run < n)%nat.
Proof.
  intros Hs Hrun. apply short_runs_app_r in Hs.
  assert (Hlen : (run_len c (run ++ l2) < n)%nat).
  { destruct (run ++ l2); by destruct Hs as [Hs _]. }
  rewrite run_len_app in Hlen by done. lia.
Qed.


(** ** The parser: chapter titles *)

Section parser_titles.

Variable soup_text : list N -> list N.
Variable soup_find_text : list N -> list N -> option (list N).
Variable _extract_metadata : EpubBook -> BookMetadata.t.

Let html_to_text := _html_to_text soup_text.
Let step := extract_step soup_text soup_find_text.
Let extract_title := _extract_title soup_find_text.

(** The title the [k]-th chapter gets when its markup has no heading. *)
Let fallback (k : Z) : list N := lit "Capitolo " ++ str_of_int (k + 1).

Lemma first_title_found (h : list N) (tags : list (list N)) (t : list N) :
  first_title soup_find_text h tags = Some t ->
  t <> [] /\ exists tag, tag ∈ tags /\ soup_find_text h tag = Some t.
Proof.
  induction tags as [|tag tags IH]; [done|]. cbn [first_title].
  destruct (soup_find_text h tag) as [title|] eqn:Hf.
  - destruct title as [|c title]; cbn [truthy].
    + intros H. destruct (IH H) as (Hne & tag' & Hin & Ht).
      split; [done|]. exists tag'. split; [by right|done].
    + intros [= <-]. split; [done|]. exists tag. split; [by left|done].
  - intros H. destruct (IH H) as (Hne & tag' & Hin & Ht).
    split; [done|]. exists tag'. split; [by right|done].
Qed.

(** One iteration, with the title it gives. *)
Lemma extract_step_title (book : EpubBook) (chapters : list Chapter.t)
      (index : Z) (entry : list N * list N) :
  step book (chapters, index) entry = (chapters, index)
  \/ exists h,
      step book (chapters, index) entry =
        (chapters ++ [Chapter.mk index
                        (default (fallback index) (extract_title h))
                        (html_to_text h)], index + 1).
Proof.
  unfold step, extract_step.
  destruct (get_item_with_id book entry.1) as [item|]; [|by left].
  destruct (get_body_content item) as [h|]; [|by left].
  destruct (negb _); [by left|]. right. exists h.
  fold extract_title. destruct (extract_title h) as [t|] eqn:Ht; [|done].
  apply first_title_found in Ht as [Hne _]. by destruct t.
Qed.

Lemma extract_fold_titles (book : EpubBook) (sp : list (list N * list N))
      (chapters : list Chapter.t) (index : Z) :
  exists new,
    fold_left (step book) sp (chapters, index) =
      (chapters ++ new, index + Z.of_nat (length new))
    /\ forall k c, new !! k = Some c ->
         exists h, Chapter.text c = html_to_text h
                   /\ Chapter.title c =
                        default (fallback (index + Z.of_nat k)) (extract_title h).
Proof.
  revert chapters index.
  induction sp as [|entry sp IH]; intros chapters index.
  - exists []. cbn. rewrite app_nil_r, Z.add_0_r. split; [done|].
    intros k c. by rewrite lookup_nil.
  - cbn [fold_left].
    destruct (extract_step_title book chapters index entry) as [->|[h ->]];
      [apply IH|].
    destruct (IH (chapters ++ [Chapter.mk index
                                 (default (fallback index) (extract_title h))
                                 (html_to_text h)]) (index + 1))
      as (new & -> & Hnew).
    eexists (_ :: new). split.
    + rewrite <- app_assoc. cbn [app length]. f_equal. lia.
    + intros [|k] c; cbn [lookup list_lookup].
      * intros [= <-]. exists h. cbn. by rewrite Z.add_0_r.
      * intros Hk. destruct (Hnew _ _ Hk) as (h' & Ht & Hti).
        exists h'. split; [done|]. rewrite Hti.
        by replace (index + Z.of_nat (S k)) with (index + 1 + Z.of_nat k) by lia.
Qed.


End parser_titles.


(** ** The job store: what the operations write *)

Lemma new_job_nonempty (job_id epub_path title author language : list N)
      (total : Z) (cover : option (list N)) :
  new_job job_id epub_path title author language total cover <> ∅.
Proof. unfold new_job. apply insert_non_empty. Qed.

Lemma get_snapshot (self : JobManager) (job_id : list N)
      (job : gmap string pyval) :
  stored self job_id = Some job -> job <> ∅ ->
  exists copy, (get self job_id).1 = Some copy
               /\ objects (get self job_id).2 !! copy = Some job
               /\ _jobs self !! job_id <> Some copy.
Proof.
  intros Hst Hne. unfold get. rewrite Hst, bool_decide_eq_false_2 by done.
  exists (alloc job (objects self)).1. split; [done|].
  split; [apply alloc_lookup_new|].
  intros Hr. unfold stored in Hst. rewrite Hr in Hst.
  cbn [mbind option_bind] in Hst. by rewrite alloc_fresh in Hst.
Qed.


(** ** The application: what a job records *)

Import AppSpec.

Lemma has_str_insert_ne (job : gmap string pyval) (key k : string) (v : pyval) :
  key <> k -> has_str job k -> has_str (<[key := v]> job) k.
Proof. intros Hne [s Hs]. exists s. by rewrite lookup_insert_ne. Qed.

Lemma status_of_stored (self : JobManager) (job_id : list N)
      (job : gmap string pyval) :
  stored self job_id = Some job -> status self job_id = job !! "status".
Proof. intros H. unfold status. by rewrite H. Qed.

(** A job dict as [create] builds it. *)
Lemma new_job_recorded (ws : list (list N * worker_pc))
      (job_id epub_path title author language : list N) (total : Z)
      (cover : option (list N)) :
  (forall pc, (job_id, pc) ∉ ws) ->
  job_recorded ws job_id
    (new_job job_id epub_path title author language total cover).
Proof.
  intros Hws. repeat split; try done.
  - intros Hin. by apply Hws in Hin.
  - intros Hin. by apply Hws in Hin.
Qed.

(** Writing a key other than the three the record is about. *)
Lemma recorded_other_key (ws : list (list N * worker_pc)) (job_id : list N)
      (job : gmap string pyval) (key : string) (v : pyval) :
  key <> "status"%string -> key <> "output_path"%string ->
  key <> "error"%string ->
  job_recorded ws job_id job -> job_recorded ws job_id (<[key := v]> job).
Proof.
  intros H1 H2 H3 (Hd & He & Hu & Ho & Hs). unfold job_recorded.
  rewrite !lookup_insert_ne by done.
  split; [intros H; apply has_str_insert_ne; [done|by apply Hd]|].
  split; [intros H; apply has_str_insert_ne; [done|by apply He]|].
  split; [done|].
  split; intros H; apply has_str_insert_ne; try done; [by apply Ho|by apply Hs].
Qed.

(** Fewer workers at the points after [set_output] and [set_error]. *)
Lemma recorded_workers (ws ws' : list (list N * worker_pc)) (job_id : list N)
      (job : gmap string pyval) :
  (forall pc, pc <> Converting -> (job_id, pc) ∈ ws' -> (job_id, pc) ∈ ws) ->
  job_recorded ws job_id job -> job_recorded ws' job_id job.
Proof.
  intros Hsub (Hd & He & Hu & Ho & Hs). do 3 (split; [done|]).
  split; intros Hin; [apply Ho|apply Hs]; by apply Hsub.
Qed.

Ltac absurd_status :=
  let H := fresh in intros H; vm_compute in H; discriminate H.

Lemma step_recorded (a a' : App) :
  invariant a -> results_recorded a -> step a a' -> results_recorded a'.
Proof.
  intros (Hwf & Hdirs & Hwork & Hnd) Hrec Hstep.
  destruct Hstep as
    [a job_id epub_path title author language total cover Hfresh
    |a job_id Hfresh
    |a job_id Hst
    |a job_id
    |a ws1 ws2 job_id current total title Hws
    |a ws1 ws2 job_id output_path Hws
    |a ws1 ws2 job_id Hws
    |a ws1 ws2 job_id error Hws
    |a ws1 ws2 job_id Hws];
    intros id' job'; cbn [store job_dirs workers].
  - (* upload *)
    destruct (decide (job_id = id')) as [<-|Hne].
    + rewrite stored_create_same. intros [= <-]. apply new_job_recorded.
      intros pc Hin. apply Hwork, status_is_stored, Hdirs in Hin. done.
    + rewrite stored_create by done. apply Hrec.
  - apply Hrec.
  - (* start_convert *)
    unfold update_status. rewrite stored_set_field by (by apply wf_get).
    rewrite stored_get by done.
    assert (Hnotin : forall pc, (job_id, pc) ∉ workers a).
    { intros pc Hin. apply Hwork in Hin. rewrite Hin in Hst. done. }
    case_decide as Hid.
    + subst id'. destruct (stored (store a) job_id) as [job|] eqn:Hj; [|done].
      intros [= <-]. unfold job_recorded. rewrite lookup_insert_eq.
      do 3 (split; [absurd_status|]).
      split; intros Hin; (apply elem_of_app in Hin as [Hin|Hin];
        [by apply Hnotin in Hin|by apply list_elem_of_singleton in Hin]).
    + intros Hj. eapply recorded_workers; [|by apply Hrec].
      intros pc _ Hin. apply elem_of_app in Hin as [Hin|Hin]; [done|].
      apply list_elem_of_singleton in Hin. congruence.
  - rewrite stored_get by done. apply Hrec.
  - (* progress *)
    unfold update_progress.
    rewrite !stored_set_field by (by repeat apply wf_set_field).
    case_decide as Hid; [|apply Hrec]. subst id'.
    destruct (stored (store a) job_id) as [job|] eqn:Hj; [|done].
    intros [= <-]. do 3 (apply recorded_other_key; [done..|]). by apply Hrec.
  - (* set_output *)
    rewrite Hws in Hwork, Hnd.
    unfold set_output. rewrite stored_set_field by done.
    case_decide as Hid.
    + subst id'. destruct (stored (store a) job_id) as [job|] eqn:Hj; [|done].
      intros [= <-].
      assert (Hconv : job !! "status" = Some CONVERTING).
      { rewrite <- (status_of_stored _ _ _ Hj). apply (Hwork job_id Converting).
        apply elem_of_app. right. by left. }
      destruct (Hrec _ _ Hj) as (Hd & He & Hu & Ho & Hs).
      assert (Hset : has_str (<["output_path" := VStr output_path]> job) "output_path")
        by (exists output_path; by rewrite lookup_insert_eq).
      unfold job_recorded. rewrite !lookup_insert_ne by done.
      rewrite Hconv. do 3 (split; [absurd_status|]).
      split; [done|]. intros Hin. apply elem_of_app in Hin as [Hin|Hin].
      * exfalso. eapply (workers_other ws1 ws2 job_id job_id Converting ErrorSet);
          [done| |done]. apply elem_of_app. by left.
      * apply elem_of_cons in Hin as [[=]|Hin].
        exfalso. eapply (workers_other ws1 ws2 job_id job_id Converting ErrorSet);
          [done| |done]. apply elem_of_app. by right.
    + intros Hj. eapply recorded_workers; [|by apply Hrec]. rewrite Hws.
      intros pc _ Hin.
      destruct (workers_in_replace ws1 ws2 job_id id' OutputSet Converting pc Hin)
        as [?|?]; [congruence|done].
  - (* done *)
    rewrite Hws in Hwork, Hnd.
    unfold update_status. rewrite stored_set_field by done.
    case_decide as Hid.
    + subst id'. destruct (stored (store a) job_id) as [job|] eqn:Hj; [|done].
      intros [= <-].
      destruct (Hrec _ _ Hj) as (Hd & He & Hu & Ho & Hs).
      assert (Hout : has_str job "output_path").
      { apply Ho. rewrite Hws. apply elem_of_app. right. by left. }
      unfold job_recorded. rewrite lookup_insert_eq.
      split; [intros _; by apply has_str_insert_ne|].
      do 2 (split; [absurd_status|]).
      split; intros Hin; exfalso;
        eapply (workers_other ws1 ws2 job_id job_id OutputSet); done.
    + intros Hj. eapply recorded_workers; [|by apply Hrec]. rewrite Hws.
      intros pc _ Hin. apply elem_of_app in Hin as [Hin|Hin];
        apply elem_of_app; [by left|right; by right].
  - (* set_error *)
    rewrite Hws in Hwork, Hnd.
    unfold set_error. rewrite stored_set_field by done.
    case_decide as Hid.
    + subst id'. destruct (stored (store a) job_id) as [job|] eqn:Hj; [|done].
      intros [= <-].
      assert (Hconv : job !! "status" = Some CONVERTING).
      { rewrite <- (status_of_stored _ _ _ Hj). apply (Hwork job_id Converting).
        apply elem_of_app. right. by left. }
      destruct (Hrec _ _ Hj) as (Hd & He & Hu & Ho & Hs).
      assert (Hset : has_str (<["error" := VStr error]> job) "error")
        by (exists error; by rewrite lookup_insert_eq).
      unfold job_recorded. rewrite !lookup_insert_ne by done.
      rewrite Hconv. do 3 (split; [absurd_status|]).
      split; [|done]. intros Hin. apply elem_of_app in Hin as [Hin|Hin].
      * exfalso. eapply (workers_other ws1 ws2 job_id job_id Converting OutputSet);
          [done| |done]. apply elem_of_app. by left.
      * apply elem_of_cons in Hin as [[=]|Hin].
        exfalso. eapply (workers_other ws1 ws2 job_id job_id Converting OutputSet);
          [done| |done]. apply elem_of_app. by right.
    + intros Hj. eapply recorded_workers; [|by apply Hrec]. rewrite Hws.
      intros pc _ Hin.
      destruct (workers_in_replace ws1 ws2 job_id id' ErrorSet Converting pc Hin)
        as [?|?]; [congruence|done].
  - (* error *)
    rewrite Hws in Hwork, Hnd.
    unfold update_status. rewrite stored_set_field by done.
    case_decide as Hid.
    + subst id'. destruct (stored (store a) job_id) as [job|] eqn:Hj; [|done].
      intros [= <-].
      destruct (Hrec _ _ Hj) as (Hd & He & Hu & Ho & Hs).
      assert (Herr : has_str job "error").
      { apply Hs. rewrite Hws. apply elem_of_app. right. by left. }
      unfold job_recorded. rewrite lookup_insert_eq.
      split; [absurd_status|].
      split; [intros _; by apply has_str_insert_ne|].
      split; [absurd_status|].
      split; intros Hin; exfalso;
        eapply (workers_other ws1 ws2 job_id job_id ErrorSet); done.
    + intros Hj. eapply recorded_workers; [|by apply Hrec]. rewrite Hws.
      intros pc _ Hin. apply elem_of_app in Hin as [Hin|Hin];
        apply elem_of_app; [by left|right; by right].
Qed.

Lemma reachable_recorded (a : App) :
  reachable a -> invariant a /\ results_recorded a.
Proof.
  unfold reachable. revert a. apply rtc_ind_r.
  - split; [apply invariant_init|]. intros job_id job Hj.
    unfold stored in Hj. simpl in Hj. by rewrite lookup_empty in Hj.
  - intros b c _ Hstep [Hinv Hrec].
    split; [by apply (step_invariant b c)|by apply (step_recorded b c)].
Qed.



(** ** The assembly: what is left after [build_m4b] *)

Lemma gone_bind {A} (m : M A) (f : A -> M unit) (p : list N) :
  (forall a fs fs', assembly.run_fs (f a) fs = (fs', Ok tt) -> fs' !! p = None) ->
  forall fs fs', assembly.run_fs (m ≫= f) fs = (fs', Ok tt) -> fs' !! p = None.
Proof.
  intros Hf fs fs'. unfold assembly.run_fs. rewrite run_bind.
  destruct (m fs) as [[[a|e] fs1] t1]; cbn [fst snd]; [|done].
  specialize (Hf a fs1 fs'). unfold assembly.run_fs in Hf.
  destruct (f a fs1) as [[r fs2] t2]. cbn [fst snd] in *. exact Hf.
Qed.

Lemma gone_unlink (p : list N) (fs fs' : gmap (list N) node) :
  assembly.run_fs (writing (assembly.unlink p)) fs = (fs', Ok tt) ->
  fs' !! p = None.
Proof.
  unfold assembly.run_fs, writing, assembly.unlink.
  destruct (fs !! p) as [n|] eqn:Hp; [destruct (is_dir n)|]; cbn [fst snd];
    intros [= <-]; try done.
  apply lookup_delete_eq.
Qed.



(** ** converter: the progress reports *)

Section progress.

Variable w : World.
Variable self : Converter.
Variable on_progress : option (Z -> Z -> list N -> result unit).
Variable work_path : list N.
Variable total : Z.

Let report (c : Chapter.t) : list event :=
  match on_progress with
  | Some _ => [EvProgress (Chapter.index c + 1) total (Chapter.title c)]
  | None => []
  end.

Lemma chapter_body_progress (chapter_audios : list ChapterAudio.t)
      (c : Chapter.t) (fs : gmap (list N) node) :
  exists r fs' t,
    chapter_body w self on_progress work_path total chapter_audios c fs
      = (r, fs', t)
    /\ List.filter is_progress t `prefix_of` report c
    /\ (forall audios, r = Ok audios -> List.filter is_progress t = report c).
Proof.
  unfold chapter_body, report.
  cbv [mbind M_bind bind get_fs emit writing reading lift ret].
  destruct (cached fs _).
  - destruct (probe_duration_ms w _ fs) as [d|e];
      [destruct on_progress as [callback|];
       [destruct (callback _ _ _) as [[]|e]|]|];
      eexists _, _, _; (split; [reflexivity|]); cbn;
      (split; [done || apply prefix_nil|]); done.
  - destruct (synthesize _ _ _ _ fs) as [fs1 [[]|e]].
    2:{ eexists _, _, _. split; [reflexivity|]. cbn.
        split; [apply prefix_nil|done]. }
    destruct (probe_duration_ms w _ fs1) as [d|e];
      [destruct on_progress as [callback|];
       [destruct (callback _ _ _) as [[]|e]|]|];
      eexists _, _, _; (split; [reflexivity|]); cbn;
      (split; [done || apply prefix_nil|]); done.
Qed.

Lemma for_chapters_progress (chapters : list Chapter.t)
      (chapter_audios : list ChapterAudio.t) (fs : gmap (list N) node) :
  exists r fs' t,
    for_chapters (chapter_body w self on_progress work_path total)
      chapters chapter_audios fs = (r, fs', t)
    /\ List.filter is_progress t `prefix_of` flat_map report chapters
    /\ (forall audios, r = Ok audios ->
        List.filter is_progress t = flat_map report chapters).
Proof.
  revert chapter_audios fs.
  induction chapters as [|c rest IH]; intros chapter_audios fs.
  - by exists (Ok chapter_audios), fs, [].
  - cbn [for_chapters flat_map]. rewrite run_bind.
    destruct (chapter_body_progress chapter_audios c fs)
      as (r1 & fs1 & t1 & -> & Hpre & Hok).
    destruct r1 as [audios1|e].
    + destruct (IH audios1 fs1) as (r2 & fs2 & t2 & -> & Hpre2 & Hok2).
      eexists _, _, _. split; [reflexivity|].
      rewrite List.filter_app, (Hok _ eq_refl).
      split; [by apply prefix_app|]. intros audios Hr. by rewrite (Hok2 _ Hr).
    + eexists _, _, _. split; [reflexivity|]. split; [|done].
      by apply prefix_app_r.
Qed.

End progress.

Lemma enrich_metadata_no_progress (w : World) (metadata metadata' : BookMetadata.t)
      (fs fs' : gmap (list N) node) (t : list event) :
  _enrich_metadata w metadata fs = (Ok metadata', fs', t) ->
  List.filter is_progress t = [].
Proof.
  unfold _enrich_metadata.
  cbv [mbind M_bind bind emit lift ret try_except].
  destruct (has_cover (BookMetadata.cover_image metadata)); [by intros [= _ _ <-]|].
  destruct (enrich_metadata w _ _) as [cover|e]; [|by intros [= _ _ <-]].
  destruct (has_cover cover); [by intros [= _ _ <-]|].
  destruct (fetch_cover_image w _ _) as [cover'|e]; [|by intros [= _ _ <-]].
  destruct (has_cover cover'); by intros [= _ _ <-].
Qed.

Lemma parse_epub_indices (w : World) (epub_path : list N)
      (fs : gmap (list N) node) (metadata : BookMetadata.t)
      (chapters : list Chapter.t) :
  parse_epub w epub_path fs = (Ok (metadata, chapters), fs, [EvParse epub_path]) ->
  forall k c, chapters !! k = Some c -> Chapter.index c = Z.of_nat k.
Proof.
  unfold parse_epub. cbv [mbind M_bind bind emit reading lift].
  destruct (read_epub w epub_path fs) as [book|e]; [|done].
  destruct (parse _ _ _ _ _) as [[md chs]|e] eqn:Hp; [|done].
  intros [= -> ->]. apply parse_ok, extract_chapters_ok in Hp as (_ & Hidx & _).
  exact Hidx.
Qed.

Lemma flat_map_singleton {A B} (f : A -> B) (l : list A) :
  flat_map (fun x => [f x]) l = f <$> l.
Proof. induction l as [|x l IH]; [done|]. cbn. by rewrite IH. Qed.

Lemma fmap_by_index {B} (g : Z -> Chapter.t -> B) (l : list Chapter.t) :
  (forall k c, l !! k = Some c -> Chapter.index c = Z.of_nat k) ->
  (fun c => g (Chapter.index c) c) <$> l = imap (fun k c => g (Z.of_nat k) c) l.
Proof.
  intros H. apply list_eq. intros k.
  rewrite list_lookup_fmap, list_lookup_imap.
  destruct (l !! k) as [c|] eqn:E; [|done]. cbn. by rewrite (H _ _ E).
Qed.



(** ** The engine registry *)

Section registry_facts.

Context {Cls Engine : Type}.
Variable instantiate : Cls -> result Engine.

Lemma dict_get_set (name other : list N) (cls : Cls) (d : list (list N * Cls)) :
  tts.dict_get other (tts.dict_set name cls d) =
    if decide (other = name) then Some cls else tts.dict_get other d.
Proof.
  induction d as [|[k v] d IH]; cbn [tts.dict_set tts.dict_get].
  - repeat case_decide; congruence.
  - destruct (decide (k = name)) as [->|Hne]; cbn [tts.dict_get];
      repeat case_decide; congruence.
Qed.

Lemma dict_keys_set (name : list N) (cls : Cls) (d : list (list N * Cls)) :
  (tts.dict_set name cls d).*1 =
    if decide (name ∈ d.*1) then d.*1 else d.*1 ++ [name].
Proof.
  induction d as [|[k v] d IH]; cbn [tts.dict_set fmap list_fmap fst].
  - rewrite decide_False; [done|]. apply not_elem_of_nil.
  - destruct (decide (k = name)) as [->|Hne]; cbn [fmap list_fmap fst].
    + rewrite decide_True; [done|]. by left.
    + fold (@fmap list _ _ _ (@fst (list N) Cls) (tts.dict_set name cls d)).
      fold (@fmap list _ _ _ (@fst (list N) Cls) d). rewrite IH.
      destruct (decide (name ∈ d.*1)) as [Hin|Hnin].
      * rewrite decide_True; [done|]. by right.
      * rewrite decide_False; [done|].
        intros Hin. apply elem_of_cons in Hin as [->|Hin]; done.
Qed.

Lemma dict_get_keys (name : list N) (d : list (list N * Cls)) :
  name ∈ d.*1 <-> is_Some (tts.dict_get name d).
Proof.
  induction d as [|[k v] d IH]; cbn [tts.dict_get fmap list_fmap fst].
  - split; [intros H; by apply elem_of_nil in H|by intros [x Hx]].
  - fold (@fmap list _ _ _ (@fst (list N) Cls) d).
    rewrite elem_of_cons. case_decide as Hk.
    + split; [eauto|]. intros _. by left.
    + rewrite IH. split; [intros [->|?]; done|by right].
Qed.


End registry_facts.

(** ** The cover: the format read off the first bytes *)

Lemma create_cover_entry (self : JobManager)
      (job_id epub_path title author language : list N) (total : Z)
      (cover : option (list N)) :
  let made := (create self job_id epub_path title author language total cover).2 in
  exists r, (get made job_id).1 = Some r
            /\ objects (get made job_id).2 !! r ≫= (.!! "cover_image"%string)
               = Some (of_cover cover).
Proof.
  intros made.
  destruct (get_snapshot made job_id
              (new_job job_id epub_path title author language total cover))
    as (r & Hr & Hobj & _).
  - apply stored_create_same.
  - apply new_job_nonempty.
  - exists r. split; [done|]. by rewrite Hobj.
Qed.


(** ** The list handed to the concat demuxer *)

Lemma read_token_quoted (path rest : list N) :
  assembly.read_token true
    (replace (lit "'") (lit "'\''") path ++ 39%N :: rest)
  = path ++ assembly.read_token false rest.
Proof.
  change (lit "'") with [39%N]. rewrite replace_single.
  change (lit "'\''") with [39; 92; 39; 39]%N.
  induction path as [|c path IH]; [done|].
  cbn [flat_map]. destruct (N.eqb_spec 39 c) as [<-|Hne].
  - rewrite <- app_assoc.
    change (assembly.read_token true
              ([39; 92; 39; 39]%N
                 ++ flat_map (fun x => if (39 =? x)%N then [39; 92; 39; 39]%N
                                       else [x]) path ++ 39%N :: rest))
      with (39%N :: assembly.read_token true
              (flat_map (fun x => if (39 =? x)%N then [39; 92; 39; 39]%N
                                  else [x]) path ++ 39%N :: rest)).
    by rewrite IH.
  - rewrite <- app_assoc.
    change (assembly.read_token true
              ([c] ++ flat_map (fun x => if (39 =? x)%N then [39; 92; 39; 39]%N
                                         else [x]) path ++ 39%N :: rest))
      with (if (c =? 39)%N
            then assembly.read_token false
                   (flat_map (fun x => if (39 =? x)%N then [39; 92; 39; 39]%N
                                       else [x]) path ++ 39%N :: rest)
            else c :: assembly.read_token true
                   (flat_map (fun x => if (39 =? x)%N then [39; 92; 39; 39]%N
                                       else [x]) path ++ 39%N :: rest)).
    rewrite (proj2 (N.eqb_neq c 39)) by congruence. by rewrite IH.
Qed.


(** ** The Edge engine: the split of a long text *)

Import edge_engine.

Lemma unspaced_app (a b : list N) : unspaced (a ++ b) = unspaced a ++ unspaced b.
Proof. apply filter_app. Qed.

Lemma unspaced_spaces (m : list N) :
  Forall (fun x => isspace x = true) m -> unspaced m = [].
Proof.
  induction 1 as [|x m Hx _ IH]; [done|]. unfold unspaced in *.
  rewrite filter_cons_False; [done|]. congruence.
Qed.

Lemma unspaced_drop_while (s : list N) :
  unspaced (drop_while isspace s) = unspaced s.
Proof.
  induction s as [|x s IH]; [done|]. cbn [drop_while].
  destruct (isspace x) eqn:Hx; [|done].
  rewrite IH. unfold unspaced. rewrite filter_cons_False; [done|]. congruence.
Qed.

Lemma unspaced_reverse (s : list N) : unspaced (reverse s) = reverse (unspaced s).
Proof. apply filter_reverse. Qed.

Lemma unspaced_strip (s : list N) : unspaced (strip s) = unspaced s.
Proof.
  unfold strip, rstrip, lstrip.
  rewrite unspaced_reverse, unspaced_drop_while, unspaced_reverse,
    reverse_involutive.
  apply unspaced_drop_while.
Qed.

Lemma length_drop_while {A} (c : A -> bool) (s : list A) :
  (length (drop_while c s) <= length s)%nat.
Proof.
  induction s as [|x s IH]; [done|]. cbn [drop_while].
  destruct (c x); cbn [length]; lia.
Qed.

Lemma length_strip (s : list N) : (length (strip s) <= length s)%nat.
Proof.
  unfold strip, rstrip, lstrip. rewrite length_reverse.
  etrans; [apply length_drop_while|]. rewrite length_reverse.
  apply length_drop_while.
Qed.

Lemma concat_push (c : N) (pieces : list (list N)) :
  concat (push c pieces) = c :: concat pieces.
Proof. by destruct pieces. Qed.

(** What the pattern matches is a run of whitespace. *)
Lemma match_sentence_gap (prev : option N) (s rest : list N) :
  match_at re_sentence_gap prev s = Some rest ->
  exists gap, s = gap ++ rest /\ Forall (fun x => isspace x = true) gap.
Proof.
  unfold re_sentence_gap.
  change (match_at [Assert [Behind sentence_stop]; Plus isspace] prev s)
    with (if existsb (holds prev s) [Behind sentence_stop]
          then match_at [Plus isspace] prev s else None).
  destruct (existsb _ _); [|done]. rewrite match_rep1.
  case_decide; [|done]. intros [= <-].
  destruct (run_split isspace s) as (run & E & Hrun & _). by exists run.
Qed.

(** The pieces of the split hold what the text holds, whitespace apart. *)
Lemma split_scan_unspaced (s : list N) :
  forall prev skip,
    Forall (fun x => isspace x = true) (take skip s) ->
    unspaced (concat (split_scan re_sentence_gap prev skip s)) = unspaced s.
Proof.
  induction s as [|c s IH]; intros prev skip Hskip; [done|].
  cbn [split_scan]. destruct skip as [|k].
  - destruct (match_at re_sentence_gap prev (c :: s)) as [rest|] eqn:Hm.
    + destruct (length (c :: s) - length rest)%nat as [|k] eqn:Hlen.
      * rewrite concat_push. unfold unspaced in *. rewrite !filter_cons.
        rewrite (IH (Some c) O) by done. done.
      * apply match_sentence_gap in Hm as (gap & E & Hgap).
        assert (Hg : length gap = S k).
        { apply (f_equal length) in E. rewrite length_app in E. lia. }
        destruct gap as [|g gap]; [done|]. cbn [app] in E.
        injection E as <- ->. apply Forall_cons in Hgap as [Hc Hgap].
        cbn [concat app]. rewrite (IH (Some c) k).
        -- unfold unspaced. rewrite filter_cons_False; [done|]. congruence.
        -- cbn [length] in Hg. injection Hg as <-.
           by rewrite take_app_length.
    + rewrite concat_push. unfold unspaced in *. rewrite !filter_cons.
      rewrite (IH (Some c) O) by done. done.
  - cbn [take] in Hskip. apply Forall_cons in Hskip as [Hc Hskip].
    rewrite (IH (Some c) k) by done.
    unfold unspaced. rewrite filter_cons_False; [done|]. congruence.
Qed.

Lemma pack_step_unspaced (limit : nat) (chunks : list (list N))
      (current_chunk sentence : list N) :
  let st := pack_step limit (chunks, current_chunk) sentence in
  unspaced (concat st.1 ++ st.2)
  = unspaced (concat chunks ++ current_chunk) ++ unspaced sentence.
Proof.
  cbn zeta. unfold pack_step.
  destruct ((limit <? _)%nat && truthy current_chunk); cbn [fst snd].
  - rewrite concat_app. cbn [concat]. rewrite app_nil_r.
    by rewrite !unspaced_app, unspaced_strip, <- !app_assoc.
  - destruct (truthy current_chunk) eqn:Ht.
    + rewrite !unspaced_app. rewrite (unspaced_spaces (lit " "));
        [by rewrite <- app_assoc|by repeat constructor].
    + destruct current_chunk; [|done]. by rewrite !app_nil_r, unspaced_app.
Qed.

Lemma pack_fold_unspaced (limit : nat) (sentences : list (list N)) :
  forall chunks current_chunk,
    let st := fold_left (pack_step limit) sentences (chunks, current_chunk) in
    unspaced (concat st.1 ++ st.2)
    = unspaced (concat chunks ++ current_chunk) ++ unspaced (concat sentences).
Proof.
  induction sentences as [|sentence rest IH]; intros chunks current_chunk.
  - cbn. by rewrite app_nil_r.
  - cbn [fold_left concat].
    pose proof (pack_step_unspaced limit chunks current_chunk sentence) as Hstep.
    destruct (pack_step limit (chunks, current_chunk) sentence) as [chunks1 current1].
    cbn zeta in *. cbn [fst snd] in Hstep. rewrite IH, Hstep.
    by rewrite (unspaced_app sentence), <- app_assoc.
Qed.

(** A chunk is within the limit, or it is one sentence. *)
Lemma pack_fold_bound (limit : nat) (all : list (list N))
      (sentences : list (list N)) :
  forall chunks current_chunk,
    sentences ⊆ all ->
    Forall (fun chunk => (length chunk <= limit)%nat
                         \/ exists sentence, sentence ∈ all
                                             /\ chunk = strip sentence) chunks ->
    ((length current_chunk <= limit)%nat \/ current_chunk ∈ all) ->
    Forall (fun chunk => (length chunk <= limit)%nat
                         \/ exists sentence, sentence ∈ all
                                             /\ chunk = strip sentence)
           (fold_left (pack_step limit) sentences (chunks, current_chunk)).1
    /\ ((length (fold_left (pack_step limit) sentences
                   (chunks, current_chunk)).2 <= limit)%nat
        \/ (fold_left (pack_step limit) sentences (chunks, current_chunk)).2 ∈ all).
Proof.
  induction sentences as [|sentence rest IH];
    intros chunks current_chunk Hsub Hchunks Hcur; [done|].
  cbn [fold_left]. unfold pack_step at 2 4 6.
  assert (Hin : sentence ∈ all) by (apply Hsub; by left).
  assert (Hrest : rest ⊆ all) by (intros x Hx; apply Hsub; by right).
  destruct ((limit <? _)%nat && truthy current_chunk) eqn:Hflush.
  - apply IH; [done| |by right].
    apply Forall_app. split; [done|]. constructor; [|done].
    destruct Hcur as [Hlen|Hc]; [left|right; eauto].
    pose proof (length_strip current_chunk). lia.
  - apply IH; [done..|].
    destruct (truthy current_chunk) eqn:Ht; [|by right].
    rewrite andb_true_r in Hflush. apply Nat.ltb_ge in Hflush.
    left. rewrite !length_app. cbn [length lit]. cbn. lia.
Qed.


(** ** converter: an empty [work_dir] *)


